(** * tiny-struct: a shallow embedding of the field types and the struct codec

    The development follows [src/field-types.ts] and the struct core
    ([struct], [from], [to], [$toBuffer], [$clone]).

    The first part is the embedding: the platform objects the library is
    written against (ArrayBuffer, DataView, Uint8Array, TextEncoder,
    TextDecoder), the field types, the struct compiler and codec, and the
    vocabulary the properties are stated in.  The second part holds the
    properties and their proofs.

    Numbers are modelled by their integral values, byte offsets and sizes
    are integers, a JavaScript string is its list of UTF-16 code units, and
    a Uint8Array held by a record is a reference into a heap.

    Plain objects are modelled by their own data properties, with
    [Object.prototype] behind them for lookups.  Assignment to the key
    [__proto__] is the one operation on a plain object that is not an
    operation on its own properties (it goes to the accessor of
    [Object.prototype]); the properties of the struct codec are therefore
    stated for field names other than [__proto__] ([proto_free]). *)

From Stdlib Require Import ZArith List Lia Bool.
From stdpp Require Import base list strings.

Local Open Scope Z_scope.

(** * The embedding *)

(** ** Outcomes of a JavaScript call *)

Inductive JsError := RangeError | TypeError.

(** [Unmodelled] marks calls whose argument the TypeScript signature excludes
    and whose coercion (string to number, object to primitive, ...) is not
    part of the embedding.  Nothing is claimed about them. *)
Inductive outcome (A : Type) : Type :=
  | Ok (a : A)
  | Throw (e : JsError)
  | Unmodelled.
Arguments Ok {A} a.
Arguments Throw {A} e.
Arguments Unmodelled {A}.

Definition obind {A B} (m : outcome A) (k : A -> outcome B) : outcome B :=
  match m with
  | Ok a => k a
  | Throw e => Throw e
  | Unmodelled => Unmodelled
  end.

Definition succeeds {A} (m : outcome A) : bool :=
  match m with Ok _ => true | _ => false end.

(** ** Bytes and byte sequences

    A byte is an integer in [0, 256); a buffer is a list of them. *)

Definition is_byte (b : Z) : Prop := 0 <= b < 256.
Definition bytes_ok (bs : list Z) : Prop := Forall is_byte bs.

Definition zeros (n : Z) : list Z := replicate (Z.to_nat n) 0.

(** [slice bs i n]: the [n] bytes of [bs] that start at index [i]. *)
Definition slice (bs : list Z) (i n : Z) : list Z :=
  take (Z.to_nat n) (drop (Z.to_nat i) bs).

(** [splice bs i new]: [bs] with the bytes at [i, i + length new) replaced. *)
Definition splice (bs : list Z) (i : Z) (new : list Z) : list Z :=
  take (Z.to_nat i) bs ++ new ++ drop (Z.to_nat i + length new)%nat bs.

(** Little-endian digits, as NumericToRawBytes / RawBytesToNumeric use them. *)
Fixpoint le_bytes (w : nat) (v : Z) : list Z :=
  match w with
  | O => []
  | S k => v mod 256 :: le_bytes k (v / 256)
  end.

Fixpoint le_value (bs : list Z) : Z :=
  match bs with
  | [] => 0
  | b :: rest => b + 256 * le_value rest
  end.

Definition to_signed (w : nat) (v : Z) : Z :=
  if v <? 2 ^ (8 * Z.of_nat w - 1) then v else v - 2 ^ (8 * Z.of_nat w).

(** ** The heap of Uint8Array objects

    A Uint8Array held in a record is a mutable object, so records hold a
    reference.  [new Uint8Array(..)] allocates the next free cell; nothing
    is ever freed. *)

Definition loc := nat.
Abbreviation Heap := (list (list Z)).

Definition alloc (h : Heap) (content : list Z) : loc * Heap :=
  (length h, h ++ [content]).

(** ** Values a record can hold *)

Inductive Value :=
  | VUndefined
  | VNumber (n : Z)            (* an integral Number *)
  | VBigInt (n : Z)
  | VString (s : list Z)       (* UTF-16 code units *)
  | VBytes (l : loc)           (* a Uint8Array *)
  | VObject.                   (* any other object: the struct, a method,
                                  a member of Object.prototype *)

(** A plain object: its own enumerable properties, in the order
    [Object.entries] lists them.  [obj_set] is the assignment [o[k] = v]
    for a key other than [__proto__]: an existing property keeps its place,
    a new one goes last. *)
Definition JsObject := list (string * Value).

(** The properties every plain object inherits from [Object.prototype]. *)
Definition object_prototype_names : list string :=
  ["__proto__"; "constructor"; "hasOwnProperty"; "isPrototypeOf";
   "propertyIsEnumerable"; "toLocaleString"; "toString"; "valueOf";
   "__defineGetter__"; "__defineSetter__"; "__lookupGetter__";
   "__lookupSetter__"]%string.

(** What a lookup finds when the object has no own property [k]: the
    member of [Object.prototype] of that name, or [undefined]. *)
Definition inherited (k : string) : Value :=
  if existsb (String.eqb k) object_prototype_names then VObject else VUndefined.

(** The lookup [o[k]]: an own property, or else what is inherited. *)
Fixpoint obj_get (o : JsObject) (k : string) : Value :=
  match o with
  | [] => inherited k
  | (k', v) :: rest => if String.eqb k' k then v else obj_get rest k
  end.

Fixpoint obj_has (o : JsObject) (k : string) : bool :=
  match o with
  | [] => false
  | (k', _) :: rest => if String.eqb k' k then true else obj_has rest k
  end.

Fixpoint obj_set (o : JsObject) (k : string) (v : Value) : JsObject :=
  match o with
  | [] => [(k, v)]
  | (k', v') :: rest =>
      if String.eqb k' k then (k', v) :: rest else (k', v') :: obj_set rest k v
  end.

(** The computations of the library thread the heap and may throw. *)
Definition M (A : Type) : Type := Heap -> outcome (A * Heap).

Definition ret {A} (a : A) : M A := fun h => Ok (a, h).
Definition bind {A B} (m : M A) (k : A -> M B) : M B :=
  fun h => match m h with
           | Ok (a, h') => k a h'
           | Throw e => Throw e
           | Unmodelled => Unmodelled
           end.
Definition lift {A} (m : outcome A) : M A :=
  fun h => match m with
           | Ok a => Ok (a, h)
           | Throw e => Throw e
           | Unmodelled => Unmodelled
           end.
Definition throw {A} (e : JsError) : M A := fun _ => Throw e.

Notation "'let*' x ':=' m 'in' k" := (bind m (fun x => k))
  (at level 10, x name, m at level 100, k at level 200).
Notation "'let?' x ':=' m 'in' k" := (obind m (fun x => k))
  (at level 10, x name, m at level 100, k at level 200).

(** ** DataView *)

Module DataView.

(** [buffer] is the content of the whole underlying ArrayBuffer; the view
    covers [byteLength] bytes of it starting at [byteOffset]. *)
Record t := mk {
  buffer : list Z;
  byteOffset : Z;
  byteLength : Z
}.

Definition wf (dv : t) : Prop :=
  0 <= byteOffset dv /\ 0 <= byteLength dv /\
  byteOffset dv + byteLength dv <= Z.of_nat (length (buffer dv)).

(** GetViewValue: ToIndex rejects a negative index, then the range check,
    then the bytes are read in the requested order. *)
Definition GetViewValue (dv : t) (requestIndex : Z) (littleEndian : bool)
    (w : nat) : outcome Z :=
  if requestIndex <? 0 then Throw RangeError
  else if byteLength dv <? requestIndex + Z.of_nat w then Throw RangeError
  else
    let raw := slice (buffer dv) (byteOffset dv + requestIndex) (Z.of_nat w) in
    Ok (le_value (if littleEndian then raw else rev raw)).

(** SetViewValue: ToIndex, then the value conversion (done by the caller
    through [conv]), then the range check, then the store of the value
    reduced modulo 2^(8w). *)
Definition SetViewValue (dv : t) (requestIndex : Z) (littleEndian : bool)
    (w : nat) (conv : outcome Z) : outcome t :=
  if requestIndex <? 0 then Throw RangeError
  else
    let? v := conv in
    if byteLength dv <? requestIndex + Z.of_nat w then Throw RangeError
    else
      let raw := le_bytes w (v mod 2 ^ (8 * Z.of_nat w)) in
      Ok (mk (splice (buffer dv) (byteOffset dv + requestIndex)
                (if littleEndian then raw else rev raw))
             (byteOffset dv) (byteLength dv)).

(** ToNumber on the values of the embedding.  [undefined] is NaN, which
    every integer conversion stores as 0; a BigInt is a TypeError. *)
Definition ToNumber (v : Value) : outcome Z :=
  match v with
  | VNumber n => Ok n
  | VUndefined => Ok 0
  | VBigInt _ => Throw TypeError
  | _ => Unmodelled
  end.

(** ToBigInt: only a BigInt converts; [undefined] and Numbers throw. *)
Definition ToBigInt (v : Value) : outcome Z :=
  match v with
  | VBigInt n => Ok n
  | VUndefined | VNumber _ => Throw TypeError
  | _ => Unmodelled
  end.

Definition getUint8 dv off := GetViewValue dv off false 1.
Definition getUint16 dv off le := GetViewValue dv off le 2.
Definition getUint32 dv off le := GetViewValue dv off le 4.
Definition getBigUint64 dv off le := GetViewValue dv off le 8.
Definition getInt8 dv off :=
  let? v := GetViewValue dv off false 1 in Ok (to_signed 1 v).
Definition getInt16 dv off le :=
  let? v := GetViewValue dv off le 2 in Ok (to_signed 2 v).
Definition getInt32 dv off le :=
  let? v := GetViewValue dv off le 4 in Ok (to_signed 4 v).
Definition getBigInt64 dv off le :=
  let? v := GetViewValue dv off le 8 in Ok (to_signed 8 v).

Definition setUint8 dv off v := SetViewValue dv off false 1 (ToNumber v).
Definition setUint16 dv off v le := SetViewValue dv off le 2 (ToNumber v).
Definition setUint32 dv off v le := SetViewValue dv off le 4 (ToNumber v).
Definition setBigUint64 dv off v le := SetViewValue dv off le 8 (ToBigInt v).
Definition setInt8 dv off v := SetViewValue dv off false 1 (ToNumber v).
Definition setInt16 dv off v le := SetViewValue dv off le 2 (ToNumber v).
Definition setInt32 dv off v le := SetViewValue dv off le 4 (ToNumber v).
Definition setBigInt64 dv off v le := SetViewValue dv off le 8 (ToBigInt v).

End DataView.

(** ** TextEncoder and TextDecoder (UTF-8)

    A JavaScript string is a sequence of UTF-16 code units. *)

Module TextCodec.

Definition is_high_surrogate (u : Z) : bool := (0xD800 <=? u) && (u <=? 0xDBFF).
Definition is_low_surrogate (u : Z) : bool := (0xDC00 <=? u) && (u <=? 0xDFFF).

(** Conversion to a scalar value string: a surrogate pair is one code
    point, a lone surrogate becomes U+FFFD. *)
Fixpoint to_scalar_values (s : list Z) : list Z :=
  match s with
  | [] => []
  | c :: rest =>
      if is_high_surrogate c then
        match rest with
        | d :: rest' =>
            if is_low_surrogate d
            then (0x10000 + (c - 0xD800) * 0x400 + (d - 0xDC00))
                   :: to_scalar_values rest'
            else 0xFFFD :: to_scalar_values rest
        | [] => [0xFFFD]
        end
      else if is_low_surrogate c then 0xFFFD :: to_scalar_values rest
      else c :: to_scalar_values rest
  end.

(** The UTF-8 encoder: one to four bytes per scalar value. *)
Definition utf8_bytes (cp : Z) : list Z :=
  let cont k := Z.lor 0x80 (Z.land (Z.shiftr cp (6 * k)) 0x3F) in
  if cp <=? 0x7F then [cp]
  else if cp <=? 0x7FF then [Z.shiftr cp 6 + 0xC0; cont 0]
  else if cp <=? 0xFFFF then [Z.shiftr cp 12 + 0xE0; cont 1; cont 0]
  else [Z.shiftr cp 18 + 0xF0; cont 2; cont 1; cont 0].

Definition encode (s : list Z) : list Z :=
  flat_map utf8_bytes (to_scalar_values s).

(** The UTF-8 decoder of the Encoding standard, with replacement. *)
Record dstate := mkd {
  code_point : Z;
  bytes_seen : Z;
  bytes_needed : Z;
  lower : Z;
  upper : Z
}.

Definition dinit : dstate := mkd 0 0 0 0x80 0xBF.

Definition between (lo hi b : Z) : bool := (lo <=? b) && (b <=? hi).

(** A byte read while no sequence is open. *)
Definition lead (b : Z) : list Z * dstate :=
  if between 0x00 0x7F b then ([b], dinit)
  else if between 0xC2 0xDF b then ([], mkd (Z.land b 0x1F) 0 1 0x80 0xBF)
  else if between 0xE0 0xEF b then
    ([], mkd (Z.land b 0xF) 0 2
           (if b =? 0xE0 then 0xA0 else 0x80)
           (if b =? 0xED then 0x9F else 0xBF))
  else if between 0xF0 0xF4 b then
    ([], mkd (Z.land b 0x7) 0 3
           (if b =? 0xF0 then 0x90 else 0x80)
           (if b =? 0xF4 then 0x8F else 0xBF))
  else ([0xFFFD], dinit).

Definition handler (st : dstate) (b : Z) : list Z * dstate :=
  if bytes_needed st =? 0 then lead b
  else if negb (between (lower st) (upper st) b) then
    (* error; the byte is put back and read again from the initial state *)
    let '(out, st') := lead b in (0xFFFD :: out, st')
  else
    let cp := Z.lor (Z.shiftl (code_point st) 6) (Z.land b 0x3F) in
    if bytes_seen st + 1 =? bytes_needed st then ([cp], dinit)
    else ([], mkd cp (bytes_seen st + 1) (bytes_needed st) 0x80 0xBF).

Fixpoint utf8_decode (st : dstate) (bs : list Z) : list Z :=
  match bs with
  | [] => if bytes_needed st =? 0 then [] else [0xFFFD]
  | b :: rest => let '(out, st') := handler st b in out ++ utf8_decode st' rest
  end.

(** [new TextDecoder()] leaves ignoreBOM off: a leading U+FEFF is dropped. *)
Definition strip_bom (cps : list Z) : list Z :=
  match cps with
  | c :: rest => if c =? 0xFEFF then rest else cps
  | [] => []
  end.

Definition utf16_units (cp : Z) : list Z :=
  if cp <? 0x10000 then [cp]
  else [0xD800 + (cp - 0x10000) / 0x400; 0xDC00 + (cp - 0x10000) mod 0x400].

Definition decode (bs : list Z) : list Z :=
  flat_map utf16_units (strip_bom (utf8_decode dinit bs)).

(** Strings without a lone surrogate. *)
Definition is_unit (u : Z) : bool := (0 <=? u) && (u <=? 0xFFFF).

Fixpoint well_formed (s : list Z) : bool :=
  match s with
  | [] => true
  | c :: rest =>
      is_unit c &&
      if is_high_surrogate c then
        match rest with
        | d :: rest' => is_low_surrogate d && well_formed rest'
        | [] => false
        end
      else negb (is_low_surrogate c) && well_formed rest
  end.

Definition starts_with_bom (s : list Z) : bool :=
  match s with
  | c :: _ => c =? 0xFEFF
  | [] => false
  end.

End TextCodec.

Definition txt (s : string) : list Z :=
  map (fun a => Z.of_nat (Ascii.nat_of_ascii a)) (String.list_ascii_of_string s).

(** ** Field types ([src/field-types.ts]) *)

(** [interface FieldType<T>]: the value type is the dynamic [Value]. *)
Record FieldType := mkFieldType {
  size : Z;
  parse : DataView.t -> Z -> bool -> M Value;
  write : DataView.t -> Z -> Value -> bool -> M DataView.t
}.

Module FieldTypes.

(** [new Uint8Array(length)] rejects a negative length. *)
Definition check_length {A} (length : Z) (k : outcome A) : outcome A :=
  if length <? 0 then Throw RangeError else k.

(** [for (i = 0; i < length; i++) result[i] = buffer.getUint8(offset + i)],
    from index [i], [n] iterations left. *)
Fixpoint read_loop (buffer : DataView.t) (offset i : Z) (n : nat)
    : outcome (list Z) :=
  match n with
  | O => Ok []
  | S k =>
      let? b := DataView.getUint8 buffer (offset + i) in
      let? rest := read_loop buffer offset (i + 1) k in
      Ok (b :: rest)
  end.

(** [value[i] || 0] for the [value] handed to [bytes(..).write]. *)
Definition element_or_zero (h : Heap) (value : Value) (i : Z) : outcome Value :=
  match value with
  | VBytes l =>
      match h !! l with
      | Some content => Ok (VNumber (nth (Z.to_nat i) content 0))
      | None => Unmodelled
      end
  | VUndefined => Throw TypeError
  | VNumber _ | VBigInt _ => Ok (VNumber 0)
  | VString _ | VObject => Unmodelled
  end.

Fixpoint write_elements (h : Heap) (buffer : DataView.t) (offset : Z)
    (value : Value) (i : Z) (n : nat) : outcome DataView.t :=
  match n with
  | O => Ok buffer
  | S k =>
      let? e := element_or_zero h value i in
      let? buffer' := DataView.setUint8 buffer (offset + i) e in
      write_elements h buffer' offset value (i + 1) k
  end.

(** [bytes(length)].  The source allocates [result] first and fills it in
    the loop; the array enters the heap here once its content is read,
    which is the same heap whenever [parse] returns. *)
Definition bytes (length : Z) : FieldType := {|
  size := length;
  parse := fun buffer offset _ =>
    let* content := lift (check_length length
                      (read_loop buffer offset 0 (Z.to_nat length))) in
    fun h => Ok (VBytes (fst (alloc h content)), snd (alloc h content));
  write := fun buffer offset value _ =>
    fun h => lift (write_elements h buffer offset value 0 (Z.to_nat length)) h
|}.

Definition uint8 : FieldType := {|
  size := 1;
  parse := fun buffer offset _ =>
    lift (let? v := DataView.getUint8 buffer offset in Ok (VNumber v));
  write := fun buffer offset value _ =>
    lift (DataView.setUint8 buffer offset value)
|}.

Definition uint16 : FieldType := {|
  size := 2;
  parse := fun buffer offset littleEndian =>
    lift (let? v := DataView.getUint16 buffer offset littleEndian in Ok (VNumber v));
  write := fun buffer offset value littleEndian =>
    lift (DataView.setUint16 buffer offset value littleEndian)
|}.

Definition uint32 : FieldType := {|
  size := 4;
  parse := fun buffer offset littleEndian =>
    lift (let? v := DataView.getUint32 buffer offset littleEndian in Ok (VNumber v));
  write := fun buffer offset value littleEndian =>
    lift (DataView.setUint32 buffer offset value littleEndian)
|}.

Definition uint64 : FieldType := {|
  size := 8;
  parse := fun buffer offset littleEndian =>
    lift (let? v := DataView.getBigUint64 buffer offset littleEndian in Ok (VBigInt v));
  write := fun buffer offset value littleEndian =>
    lift (DataView.setBigUint64 buffer offset value littleEndian)
|}.

Definition int8 : FieldType := {|
  size := 1;
  parse := fun buffer offset _ =>
    lift (let? v := DataView.getInt8 buffer offset in Ok (VNumber v));
  write := fun buffer offset value _ =>
    lift (DataView.setInt8 buffer offset value)
|}.

Definition int16 : FieldType := {|
  size := 2;
  parse := fun buffer offset littleEndian =>
    lift (let? v := DataView.getInt16 buffer offset littleEndian in Ok (VNumber v));
  write := fun buffer offset value littleEndian =>
    lift (DataView.setInt16 buffer offset value littleEndian)
|}.

Definition int32 : FieldType := {|
  size := 4;
  parse := fun buffer offset littleEndian =>
    lift (let? v := DataView.getInt32 buffer offset littleEndian in Ok (VNumber v));
  write := fun buffer offset value littleEndian =>
    lift (DataView.setInt32 buffer offset value littleEndian)
|}.

Definition int64 : FieldType := {|
  size := 8;
  parse := fun buffer offset littleEndian =>
    lift (let? v := DataView.getBigInt64 buffer offset littleEndian in Ok (VBigInt v));
  write := fun buffer offset value littleEndian =>
    lift (DataView.setBigInt64 buffer offset value littleEndian)
|}.

(** The scan of [cstring(..).parse]: stop at the first zero byte or after
    [n] more bytes; the result is the prefix copied into [bytes]. *)
Fixpoint scan_loop (buffer : DataView.t) (offset i : Z) (n : nat)
    : outcome (list Z) :=
  match n with
  | O => Ok []
  | S k =>
      let? byte := DataView.getUint8 buffer (offset + i) in
      if byte =? 0 then Ok []
      else let? rest := scan_loop buffer offset (i + 1) k in Ok (byte :: rest)
  end.

(** [new TextEncoder().encode(value)]: the argument is optional and
    defaults to the empty text, so [undefined] encodes to no bytes. *)
Definition encode_input (value : Value) : outcome (list Z) :=
  match value with
  | VString s => Ok (TextCodec.encode s)
  | VUndefined => Ok []
  | _ => Unmodelled
  end.

(** [for (...) buffer.setUint8(offset + i, encoded[i])] over [bs], from
    index [i]. *)
Fixpoint store_loop (buffer : DataView.t) (offset i : Z) (bs : list Z)
    : outcome DataView.t :=
  match bs with
  | [] => Ok buffer
  | b :: rest =>
      let? buffer' := DataView.setUint8 buffer (offset + i) (VNumber b) in
      store_loop buffer' offset (i + 1) rest
  end.

Definition cstring (maxLength : Z) : FieldType := {|
  size := maxLength;
  parse := fun buffer offset _ =>
    lift (check_length maxLength
            (let? bytes := scan_loop buffer offset 0 (Z.to_nat maxLength) in
             Ok (VString (TextCodec.decode bytes))));
  write := fun buffer offset value _ =>
    lift (let? encoded := encode_input value in
          let length := Z.min (Z.of_nat (List.length encoded)) (maxLength - 1) in
          let? buffer' := store_loop buffer offset 0 (take (Z.to_nat length) encoded) in
          (* Null-terminate *)
          DataView.setUint8 buffer' (offset + length) (VNumber 0))
|}.

(** [new Uint8Array(buffer.buffer, offset, length)]: a view of the
    underlying ArrayBuffer, at an offset counted from its start. *)
Definition array_view (arraybuffer : list Z) (offset length : Z)
    : outcome (list Z) :=
  if offset <? 0 then Throw RangeError
  else if length <? 0 then Throw RangeError
  else if Z.of_nat (List.length arraybuffer) <? offset + length then Throw RangeError
  else Ok (slice arraybuffer offset length).

Definition string (length : Z) : FieldType := {|
  size := length;
  parse := fun buffer offset _ =>
    lift (let? view := array_view (DataView.buffer buffer) offset length in
          Ok (VString (TextCodec.decode view)));
  write := fun buffer offset value _ =>
    lift (let? encoded := encode_input value in
          let bytesToWrite := Z.min (Z.of_nat (List.length encoded)) length in
          let? buffer' := store_loop buffer offset 0
                            (take (Z.to_nat bytesToWrite) encoded) in
          (* Pad with zeros if needed *)
          store_loop buffer' offset bytesToWrite
            (zeros (length - bytesToWrite)))
|}.

Definition custom (size : Z)
    (parse : DataView.t -> Z -> bool -> M Value)
    (write : DataView.t -> Z -> Value -> bool -> M DataView.t) : FieldType :=
  {| size := size; parse := parse; write := write |}.

End FieldTypes.

(** ** The struct compiler and codec *)

Record StructOptions := { opt_littleEndian : option bool }.

(** [Object.entries(fields)]: the fields in the order [Object.entries]
    lists them, which is the order of declaration when no name is an array
    index ([own_entries] below gives the order in general).  The keys of
    an object are distinct; the properties that depend on it say so
    ([distinct]). *)
Definition Fields := list (string * FieldType).

(** [fieldOffsets], an object from field name to byte offset, for field
    names other than [__proto__]. *)
Fixpoint offsets_set (o : list (string * Z)) (k : string) (v : Z)
    : list (string * Z) :=
  match o with
  | [] => [(k, v)]
  | (k', v') :: rest =>
      if String.eqb k' k then (k', v) :: rest
      else (k', v') :: offsets_set rest k v
  end.

Fixpoint offsets_get (o : list (string * Z)) (k : string) : option Z :=
  match o with
  | [] => None
  | (k', v) :: rest => if String.eqb k' k then Some v else offsets_get rest k
  end.

(** A struct definition: the public members [name], [size] (here
    [struct_size]) and [fields], and the variables [littleEndian],
    [totalSize] and [fieldOffsets] its methods close over. *)
Record Struct := mkStruct {
  name : string;
  struct_size : Z;
  fields : Fields;
  littleEndian : bool;
  totalSize : Z;
  fieldOffsets : list (string * Z)
}.

(** The layout loop of [struct]:
    [fieldOffsets[fieldName] = totalSize; totalSize += fieldType.size]. *)
Definition layout_step (acc : Z * list (string * Z)) (entry : string * FieldType)
    : Z * list (string * Z) :=
  (fst acc + size (snd entry), offsets_set (snd acc) (fst entry) (fst acc)).

Definition layout (fs : Fields) : Z * list (string * Z) :=
  fold_left layout_step fs (0, []).

Definition struct (name : string) (fields : Fields) (options : StructOptions)
    : outcome Struct :=
  let littleEndian := default false (opt_littleEndian options) in
  let '(totalSize, fieldOffsets) := layout fields in
  Ok {| name := name;
        struct_size := totalSize;
        fields := fields;
        littleEndian := littleEndian;
        totalSize := totalSize;
        fieldOffsets := fieldOffsets |}.

(** The argument of [from]: an ArrayBuffer, or a Uint8Array over
    [byteLength] bytes of an ArrayBuffer from [byteOffset] on. *)
Inductive BufferSource :=
  | ArrayBuffer (bytes : list Z)
  | Uint8Array (buffer : list Z) (byteOffset byteLength : Z).

Definition source_wf (b : BufferSource) : Prop :=
  match b with
  | ArrayBuffer bytes => bytes_ok bytes
  | Uint8Array buffer byteOffset byteLength =>
      bytes_ok buffer /\ 0 <= byteOffset /\ 0 <= byteLength /\
      byteOffset + byteLength <= Z.of_nat (length buffer)
  end.

(** The byte length of the source and the bytes a caller sees in it. *)
Definition source_length (b : BufferSource) : Z :=
  match b with
  | ArrayBuffer bytes => Z.of_nat (length bytes)
  | Uint8Array _ _ byteLength => byteLength
  end.

Definition source_bytes (b : BufferSource) : list Z :=
  match b with
  | ArrayBuffer bytes => bytes
  | Uint8Array buffer byteOffset byteLength => slice buffer byteOffset byteLength
  end.

Definition view_of (b : BufferSource) : DataView.t :=
  match b with
  | ArrayBuffer bytes => DataView.mk bytes 0 (Z.of_nat (length bytes))
  | Uint8Array buffer byteOffset byteLength =>
      DataView.mk buffer byteOffset byteLength
  end.

(** A struct instance: its enumerable properties and the hidden [$struct]
    member ([$toBuffer] and [$clone] are the functions below). *)
Record Instance := mkInstance {
  props : JsObject;
  dollar_struct : Struct
}.

Definition reserved (k : string) : bool :=
  String.eqb k "$struct" || String.eqb k "$toBuffer" || String.eqb k "$clone".

(** [Object.defineProperties(result, { $struct, $toBuffer, $clone })]: a
    property of one of these names is replaced by the hidden member. *)
Definition define_members (o : JsObject) : JsObject :=
  List.filter (fun kv => negb (reserved (fst kv))) o.

(** Reading a property of an instance as [values[fieldName]] does. *)
Definition instance_object (r : Instance) : JsObject :=
  props r ++ [("$struct"%string, VObject); ("$toBuffer"%string, VObject);
              ("$clone"%string, VObject)].

(** The parse loop of [from]. *)
Fixpoint parse_fields (structDef : Struct) (dataView : DataView.t) (offset : Z)
    (fs : Fields) (result : JsObject) : M JsObject :=
  match fs with
  | [] => ret result
  | (fieldName, fieldType) :: rest =>
      match offsets_get (fieldOffsets structDef) fieldName with
      | None => fun _ => Unmodelled
      | Some fieldOffset =>
          let* v := parse fieldType dataView (offset + fieldOffset) (littleEndian structDef) in
          parse_fields structDef dataView offset rest (obj_set result fieldName v)
      end
  end.

Definition from (structDef : Struct) (buffer : BufferSource) (offset : option Z)
    : M Instance :=
  let offset := default 0 offset in
  let dataView := view_of buffer in
  let* result := parse_fields structDef dataView offset (fields structDef) [] in
  ret {| props := define_members result; dollar_struct := structDef |}.

(** [new ArrayBuffer(length)] converts [length] with ToIndex, which rejects
    what is below 0 or above 2^53 - 1 with a RangeError.  Memory is not
    bounded in the model: every length that ToIndex accepts is allocated.
    (A platform refuses, with a RangeError too, a length for which it has
    no memory; where that limit lies depends on the platform.) *)
Definition max_byte_length : Z := 2 ^ 53 - 1.

(** The write loop of [to]. *)
Fixpoint write_fields (structDef : Struct) (dataView : DataView.t) (values : JsObject)
    (fs : Fields) : M DataView.t :=
  match fs with
  | [] => ret dataView
  | (fieldName, fieldType) :: rest =>
      match offsets_get (fieldOffsets structDef) fieldName with
      | None => fun _ => Unmodelled
      | Some fieldOffset =>
          let value := obj_get values fieldName in
          let* dataView' := write fieldType dataView fieldOffset value (littleEndian structDef) in
          write_fields structDef dataView' values rest
      end
  end.

Definition to (structDef : Struct) (values : JsObject) : M (list Z) :=
  if (totalSize structDef <? 0) || (max_byte_length <? totalSize structDef)
  then throw RangeError
  else
    let buffer := zeros (totalSize structDef) in
    let dataView := DataView.mk buffer 0 (totalSize structDef) in
    let* dataView' := write_fields structDef dataView values (fields structDef) in
    ret (DataView.buffer dataView').

Definition dollar_toBuffer (this : Instance) : M (list Z) :=
  to (dollar_struct this) (instance_object this).

(** [new Uint8Array(value)]: a fresh array with the elements of [value]. *)
Definition copy_array (l : loc) : M Value :=
  fun h => match h !! l with
           | Some content => Ok (VBytes (fst (alloc h content)), snd (alloc h content))
           | None => Unmodelled
           end.

(** The loop of [$clone] over [Object.entries(this)]. *)
Fixpoint clone_arrays (entries : JsObject) (clone : JsObject) : M JsObject :=
  match entries with
  | [] => ret clone
  | (key, value) :: rest =>
      match value with
      | VBytes l =>
          let* copy := copy_array l in
          clone_arrays rest (obj_set clone key copy)
      | _ => clone_arrays rest clone
      end
  end.

Definition dollar_clone (this : Instance) : M Instance :=
  let clone := props this in
  let* clone' := clone_arrays (props this) clone in
  ret {| props := define_members clone'; dollar_struct := dollar_struct this |}.

(** What the holder of a record can do to one of its byte arrays:
    [r.field[i] = v], and reading the array. *)
Definition set_element (h : Heap) (l : loc) (i : nat) (v : Z) : Heap :=
  match h !! l with
  | Some content => <[l := <[i := v mod 256]> content]> h
  | None => h
  end.

Definition get_array (h : Heap) (v : Value) : option (list Z) :=
  match v with
  | VBytes l => h !! l
  | _ => None
  end.

(** ** The built-in field types, by name

    [FixedString] stands for [string(length)]. *)

Inductive Builtin :=
  | Bytes (length : Z)
  | Uint8 | Uint16 | Uint32 | Uint64
  | Int8 | Int16 | Int32 | Int64
  | CString (maxLength : Z)
  | FixedString (length : Z).

Definition field_of (b : Builtin) : FieldType :=
  match b with
  | Bytes n => FieldTypes.bytes n
  | Uint8 => FieldTypes.uint8
  | Uint16 => FieldTypes.uint16
  | Uint32 => FieldTypes.uint32
  | Uint64 => FieldTypes.uint64
  | Int8 => FieldTypes.int8
  | Int16 => FieldTypes.int16
  | Int32 => FieldTypes.int32
  | Int64 => FieldTypes.int64
  | CString n => FieldTypes.cstring n
  | FixedString n => FieldTypes.string n
  end.

Definition builtin_fields (decl : list (string * Builtin)) : Fields :=
  map (fun e => (fst e, field_of (snd e))) decl.

(** ** The data of the test suite *)

Definition le_opts : StructOptions := {| opt_littleEndian := Some true |}.
Definition no_opts : StructOptions := {| opt_littleEndian := None |}.

Definition Header_decl : list (string * Builtin) :=
  [("magic"%string, Bytes 4); ("version"%string, Uint16);
   ("flags"%string, Uint8); ("count"%string, Uint32)].

Definition run {A} (m : M A) (h : Heap) : outcome A :=
  match m h with
  | Ok (a, _) => Ok a
  | Throw e => Throw e
  | Unmodelled => Unmodelled
  end.

Definition Header_data : JsObject :=
  [("magic"%string, VBytes 0%nat); ("version"%string, VNumber 123);
   ("flags"%string, VNumber 7); ("count"%string, VNumber 12345)].

(** * The vocabulary of the properties *)

(** ** Layout *)

Definition sizes_sum (fs : Fields) : Z :=
  fold_right (fun e acc => size (snd e) + acc) 0 fs.

(** Property names of an object are distinct. *)
Fixpoint distinct (ks : list string) : bool :=
  match ks with
  | [] => true
  | k :: rest => negb (existsb (String.eqb k) rest) && distinct rest
  end.

Definition names (fs : Fields) : list string := map fst fs.

(** ** The names of fields *)

(** No key is [__proto__]. *)
Definition proto_free (ks : list string) : bool :=
  forallb (fun k => negb (String.eqb k "__proto__")) ks.

(** The value of a string of decimal digits. *)
Definition digit_of (a : Ascii.ascii) : option Z :=
  let n := Z.of_nat (Ascii.nat_of_ascii a) in
  if (48 <=? n) && (n <=? 57) then Some (n - 48) else None.

Fixpoint digits_value (acc : Z) (s : list Ascii.ascii) : option Z :=
  match s with
  | [] => Some acc
  | a :: rest =>
      match digit_of a with
      | Some d => digits_value (10 * acc + d) rest
      | None => None
      end
  end.

(** An array index: the canonical decimal form (a single 0, or digits that
    do not start with 0) of an integer below 2^32 - 1. *)
Definition array_index (k : string) : option Z :=
  match String.list_ascii_of_string k with
  | [] => None
  | a :: rest =>
      if (Z.of_nat (Ascii.nat_of_ascii a) =? 48)
         && negb (match rest with [] => true | _ => false end)
      then None
      else match digits_value 0 (a :: rest) with
           | Some n => if n <? 2 ^ 32 - 1 then Some n else None
           | None => None
           end
  end.

Definition is_index (k : string) : bool :=
  match array_index k with Some _ => true | None => false end.

(** No key is an array index. *)
Definition index_free (ks : list string) : bool :=
  forallb (fun k => negb (is_index k)) ks.

(** [Object.entries] of an object whose properties were created in the
    order [declared]: the properties named by an array index come first,
    in ascending order of the index, then the others in order of creation. *)
Fixpoint insert_indexed (n : Z) (e : string * FieldType)
    (sorted : list (Z * (string * FieldType))) : list (Z * (string * FieldType)) :=
  match sorted with
  | [] => [(n, e)]
  | (m, e') :: rest =>
      if n <? m then (n, e) :: (m, e') :: rest else (m, e') :: insert_indexed n e rest
  end.

Fixpoint indexed_entries (declared : Fields) : list (Z * (string * FieldType)) :=
  match declared with
  | [] => []
  | e :: rest =>
      match array_index (fst e) with
      | Some n => insert_indexed n e (indexed_entries rest)
      | None => indexed_entries rest
      end
  end.

Definition own_entries (declared : Fields) : Fields :=
  map snd (indexed_entries declared) ++
  List.filter (fun e => negb (is_index (fst e))) declared.

(** The fields [fs] sit one after the other from [start] on. *)
Fixpoint laid_out (offsets : list (string * Z)) (start : Z) (fs : Fields) : Prop :=
  match fs with
  | [] => True
  | (k, ft) :: rest =>
      offsets_get offsets k = Some start /\ laid_out offsets (start + size ft) rest
  end.

(** ** Integer fields of width 1, 2 and 4 *)

(** Width in bytes and signedness of the Number-valued integer types. *)
Definition narrow_int (b : Builtin) : option (nat * bool) :=
  match b with
  | Uint8 => Some (1%nat, false)
  | Uint16 => Some (2%nat, false)
  | Uint32 => Some (4%nat, false)
  | Int8 => Some (1%nat, true)
  | Int16 => Some (2%nat, true)
  | Int32 => Some (4%nat, true)
  | _ => None
  end.

(** The value an integer field gives back: reduced modulo 2^(8w), read as
    two's complement for the signed types. *)
Definition wrap (w : nat) (signed : bool) (v : Z) : Z :=
  let u := v mod 2 ^ (8 * Z.of_nat w) in
  if signed then to_signed w u else u.

(** ** Text: UTF-8 encoding and decoding *)

(** Unicode scalar values. *)
Definition scalar (cp : Z) : bool :=
  (0 <=? cp) && (cp <=? 0x10FFFF) && negb ((0xD800 <=? cp) && (cp <=? 0xDFFF)).

(** A text without U+0000. *)
Definition no_nul (s : list Z) : bool := forallb (fun c => negb (c =? 0)) s.

(** The decoder states from which no U+0000 can come: no sequence is open,
    or the code point read so far is not zero, or the next byte has to
    bring a bit of it. *)
Definition open_ok (st : TextCodec.dstate) : Prop :=
  TextCodec.bytes_needed st = 0 \/
  (TextCodec.upper st <= 0xBF /\
   (TextCodec.code_point st <> 0 \/ 0x90 <= TextCodec.lower st)).

(** ** Writing into a buffer whose tail is still zero *)

Definition is_byteb (b : Z) : bool := (0 <=? b) && (b <? 256).

(** [bs.length], as a Number. *)
Definition zlen (bs : list Z) : Z := Z.of_nat (length bs).

(** A view of a whole ArrayBuffer. *)
Definition whole (bs : list Z) : DataView.t := DataView.mk bs 0 (zlen bs).

(** The elements [value[i] || 0] of a Uint8Array, [n] of them from index [i]. *)
Fixpoint elements (content : list Z) (i : nat) (n : nat) : list Z :=
  match n with
  | O => []
  | S k => nth i content 0 :: elements content (S i) k
  end.

(** ** What each built-in type writes into its slot *)

(** The units of a JavaScript string are 16-bit. *)
Definition units_ok (s : list Z) : bool := forallb TextCodec.is_unit s.

(** The sizes the built-in codecs are made for: a length is not negative
    and a [cstring] has room for its terminator. *)
Definition valid_size (b : Builtin) : bool :=
  match b with
  | Bytes n => 0 <=? n
  | CString n => 1 <=? n
  | FixedString n => 0 <=? n
  | _ => true
  end.

(** The digits an integer setter stores. *)
Definition digits (le : bool) (w : nat) (z : Z) : list Z :=
  if le then le_bytes w (z mod 2 ^ (8 * Z.of_nat w))
  else rev (le_bytes w (z mod 2 ^ (8 * Z.of_nat w))).

(** The Number, BigInt, text and array an encoder gets out of a value of
    its type; [undefined] is taken as 0 and as the empty text. *)
Definition number_of (v : Value) : option Z :=
  match v with
  | VNumber z => Some z
  | VUndefined => Some 0
  | _ => None
  end.

Definition bigint_of (v : Value) : option Z :=
  match v with
  | VBigInt z => Some z
  | _ => None
  end.

Definition text_of (v : Value) : option (list Z) :=
  match v with
  | VString s => if units_ok s then Some (TextCodec.encode s) else None
  | VUndefined => Some []
  | _ => None
  end.

Definition array_of (h : Heap) (v : Value) : option (list Z) :=
  match v with
  | VBytes l =>
      match h !! l with
      | Some content => if forallb is_byteb content then Some content else None
      | None => None
      end
  | _ => None
  end.

(** The content of a field's slot after [write] on a zeroed slot, for the
    values the field accepts ([undefined] counts where the encoder takes it). *)
Definition encode_slot (b : Builtin) (le : bool) (h : Heap) (v : Value)
    : option (list Z) :=
  match b with
  | Bytes n =>
      match v with
      | VUndefined => if n <=? 0 then Some [] else None
      | _ => option_map (fun content => elements content 0 (Z.to_nat n)) (array_of h v)
      end
  | Uint8 | Int8 => option_map (digits false 1) (number_of v)
  | Uint16 | Int16 => option_map (digits le 2) (number_of v)
  | Uint32 | Int32 => option_map (digits le 4) (number_of v)
  | Uint64 | Int64 => option_map (digits le 8) (bigint_of v)
  | CString n =>
      option_map (fun e => let length := Z.min (zlen e) (n - 1) in
                           take (Z.to_nat length) e ++ zeros (n - length))
                 (text_of v)
  | FixedString n =>
      option_map (fun e => let bytesToWrite := Z.min (zlen e) n in
                           take (Z.to_nat bytesToWrite) e ++ zeros (n - bytesToWrite))
                 (text_of v)
  end.

(** ** [to]: the buffer is the concatenation of the slots *)

(** The slots of the fields of [decl], one after the other. *)
Fixpoint encode_record (decl : list (string * Builtin)) (le : bool) (h : Heap)
    (values : JsObject) : option (list Z) :=
  match decl with
  | [] => Some []
  | (k, b) :: rest =>
      match encode_slot b le h (obj_get values k), encode_record rest le h values with
      | Some slot, Some tail => Some (slot ++ tail)
      | _, _ => None
      end
  end.

(** ** [to] and missing keys *)

(** A value of the type the field declares. *)
Definition typed (b : Builtin) (h : Heap) (v : Value) : bool :=
  match b, v with
  | Bytes _, VBytes l =>
      match h !! l with
      | Some content => forallb is_byteb content
      | None => false
      end
  | (Uint8 | Uint16 | Uint32 | Int8 | Int16 | Int32), VNumber _ => true
  | (Uint64 | Int64), VBigInt _ => true
  | (CString _ | FixedString _), VString s => units_ok s
  | _, _ => false
  end.

(** The field types whose encoder accepts [undefined]. *)
Definition lenient (b : Builtin) : bool :=
  match b with
  | Bytes n => n <=? 0
  | Uint64 | Int64 => false
  | _ => true
  end.

(** A value of the field's type, or no value where the encoder accepts that. *)
Definition typed_or_missing (b : Builtin) (h : Heap) (v : Value) : bool :=
  typed b h v ||
  (lenient b && match v with VUndefined => true | _ => false end).

(** ** Reading a slot *)

(** The bytes before the first zero byte. *)
Fixpoint until_zero (bs : list Z) : list Z :=
  match bs with
  | [] => []
  | b :: rest => if b =? 0 then [] else b :: until_zero rest
  end.

(** What a field's decoder makes of the bytes of its slot. *)
Inductive Decoded :=
  | DArray (content : list Z)    (* a fresh Uint8Array with this content *)
  | DValue (v : Value).

(** The unsigned integer a getter reads from the bytes of a slot. *)
Definition unsigned_of (le : bool) (slot : list Z) : Z :=
  le_value (if le then slot else rev slot).

Definition decode_slot (b : Builtin) (le : bool) (slot : list Z) : Decoded :=
  match b with
  | Bytes _ => DArray slot
  | Uint8 => DValue (VNumber (unsigned_of false slot))
  | Uint16 => DValue (VNumber (unsigned_of le slot))
  | Uint32 => DValue (VNumber (unsigned_of le slot))
  | Uint64 => DValue (VBigInt (unsigned_of le slot))
  | Int8 => DValue (VNumber (to_signed 1 (unsigned_of false slot)))
  | Int16 => DValue (VNumber (to_signed 2 (unsigned_of le slot)))
  | Int32 => DValue (VNumber (to_signed 4 (unsigned_of le slot)))
  | Int64 => DValue (VBigInt (to_signed 8 (unsigned_of le slot)))
  | CString _ => DValue (VString (TextCodec.decode (until_zero slot)))
  | FixedString _ => DValue (VString (TextCodec.decode slot))
  end.

(** Where a field's decoder starts counting: every decoder but the one of
    [string] reads through the DataView, that is from [byteOffset] on;
    [string] reads [buffer.buffer] from its start. *)
Definition base (b : Builtin) (dv : DataView.t) : Z :=
  match b with
  | FixedString _ => 0
  | _ => DataView.byteOffset dv
  end.

(** The result of [parse]: a decoded array is allocated. *)
Definition deliver (d : Decoded) (h : Heap) : outcome (Value * Heap) :=
  match d with
  | DArray content => Ok (VBytes (length h), h ++ [content])
  | DValue v => Ok (v, h)
  end.

(** ** [from]: each field is decoded from its own slot *)

(** The record and heap the parse loop builds, field after field, from
    position [pos] of the view on. *)
Fixpoint decode_fields (decl : list (string * Builtin)) (le : bool) (dv : DataView.t)
    (pos : Z) (result : JsObject) (h : Heap) : JsObject * Heap :=
  match decl with
  | [] => (result, h)
  | (k, b) :: rest =>
      let slot := slice (DataView.buffer dv) (base b dv + pos) (size (field_of b)) in
      match decode_slot b le slot with
      | DArray content =>
          decode_fields rest le dv (pos + size (field_of b))
            (obj_set result k (VBytes (length h))) (h ++ [content])
      | DValue v =>
          decode_fields rest le dv (pos + size (field_of b)) (obj_set result k v) h
      end
  end.

(** The size of the fields of [decl] together. *)
Definition sizes_of (decl : list (string * Builtin)) : Z :=
  sizes_sum (builtin_fields decl).

(** ** Round trip *)

Definition in_range (lo hi z : Z) : bool := (lo <=? z) && (z <? hi).

(** The values a field stores without loss. *)
Definition representable (b : Builtin) (h : Heap) (v : Value) : bool :=
  match b, v with
  | Bytes n, VBytes l =>
      match h !! l with
      | Some content => forallb is_byteb content && (zlen content =? n)
      | None => false
      end
  | Uint8, VNumber z => in_range 0 (2 ^ 8) z
  | Uint16, VNumber z => in_range 0 (2 ^ 16) z
  | Uint32, VNumber z => in_range 0 (2 ^ 32) z
  | Uint64, VBigInt z => in_range 0 (2 ^ 64) z
  | Int8, VNumber z => in_range (- 2 ^ 7) (2 ^ 7) z
  | Int16, VNumber z => in_range (- 2 ^ 15) (2 ^ 15) z
  | Int32, VNumber z => in_range (- 2 ^ 31) (2 ^ 31) z
  | Int64, VBigInt z => in_range (- 2 ^ 63) (2 ^ 63) z
  | CString n, VString s =>
      TextCodec.well_formed s && negb (TextCodec.starts_with_bom s) && no_nul s &&
      (zlen (TextCodec.encode s) <=? n - 1)
  | FixedString n, VString s =>
      TextCodec.well_formed s && negb (TextCodec.starts_with_bom s) &&
      (zlen (TextCodec.encode s) <=? n)
  | _, _ => false
  end.

(** What comes back for a representable value: the value itself, except
    that fixed text comes back with one U+0000 per padding byte. *)
Definition returned (b : Builtin) (v : Value) : Value :=
  match b, v with
  | FixedString n, VString s => VString (s ++ zeros (n - zlen (TextCodec.encode s)))
  | _, _ => v
  end.

(** Fixed text that fills its field. *)
Definition fills (b : Builtin) (v : Value) : bool :=
  match b, v with
  | FixedString n, VString s => zlen (TextCodec.encode s) =? n
  | _, _ => true
  end.

(** Equality of a field in two records: byte arrays by content. *)
Definition same_field (h : Heap) (v : Value) (h' : Heap) (v' : Value) : Prop :=
  match v with
  | VBytes l => exists l' content, v' = VBytes l' /\ h !! l = Some content /\
                                   h' !! l' = Some content
  | _ => v' = v
  end.

(** The heap in which [Header_data] holds the array "ABCD". *)
Definition Header_heap : Heap := [[65; 66; 67; 68]].

(** [to] then [from] on a struct with the single field [k], and what the
    record then holds under [k]. *)
Definition there_and_back (b : Builtin) (k : string) (v : Value) : outcome Value :=
  let? sd := struct "T" (builtin_fields [(k, b)]) no_opts in
  let? buf := run (to sd [(k, v)]) [] in
  let? r := run (from sd (ArrayBuffer buf) None) [] in
  Ok (obj_get (instance_object r) k).

(** ** [from] and the length of the buffer *)

(** The field types whose decoder reads every byte of a non-empty slot. *)
Definition reads_whole_slot (b : Builtin) : bool :=
  match b with
  | Bytes n => 0 <? n
  | CString _ | FixedString _ => false
  | _ => true
  end.

(** The decoder of [b], positioned at [off] in the view [dv], runs out of
    what it may read: an integer or a non-empty byte array when its slot is
    not inside the view, [string] when its slot is not inside the
    underlying ArrayBuffer, [cstring] when it starts before the view or
    when its slot passes the end of the view and no zero byte comes before
    that end; and a negative length is refused wherever the field lies. *)
Definition runs_out (b : Builtin) (dv : DataView.t) (off : Z) : bool :=
  match b with
  | Bytes n =>
      (n <? 0) || ((0 <? n) && ((off <? 0) || (DataView.byteLength dv <? off + n)))
  | CString n =>
      (n <? 0) ||
      ((1 <=? n) &&
       ((off <? 0) ||
        ((DataView.byteLength dv <? off + n) &&
         forallb (fun x => negb (x =? 0))
           (slice (DataView.buffer dv) (DataView.byteOffset dv + off)
              (DataView.byteLength dv - off)))))
  | FixedString n =>
      (off <? 0) || (n <? 0) || (zlen (DataView.buffer dv) <? off + n)
  | _ => (off <? 0) || (DataView.byteLength dv <? off + size (field_of b))
  end.

(** ** Endianness *)

(** The width of the integer types of more than one byte. *)
Definition multi_byte (b : Builtin) : option nat :=
  match b with
  | Uint16 | Int16 => Some 2%nat
  | Uint32 | Int32 => Some 4%nat
  | Uint64 | Int64 => Some 8%nat
  | _ => None
  end.

(** The integer a record holds for a multi-byte integer field. *)
Definition stored_int (b : Builtin) (v : Value) : option Z :=
  match b, v with
  | (Uint16 | Int16 | Uint32 | Int32), VNumber z => Some z
  | (Uint64 | Int64), VBigInt z => Some z
  | _, _ => None
  end.

Definition signed (b : Builtin) : bool :=
  match b with
  | Int8 | Int16 | Int32 | Int64 => true
  | _ => false
  end.

(** The integer in a Number or BigInt value. *)
Definition payload (v : Value) : option Z :=
  match v with
  | VNumber z | VBigInt z => Some z
  | _ => None
  end.

(** ** Fixed text and the position of the view *)

(** [new Uint8Array(ab, 1, 1)] over the ArrayBuffer [ab] = 65 66. *)
Definition offset_view : BufferSource := Uint8Array [65; 66] 1 1.

(** ** [$clone] *)

(** The record [$clone] builds, entry after entry, and the heap after the
    copies of its byte arrays were allocated. *)
Fixpoint cloned (entries : JsObject) (h : Heap) : JsObject * Heap :=
  match entries with
  | [] => ([], h)
  | (k, VBytes l) :: rest =>
      let out := cloned rest (h ++ [default [] (h !! l)]) in
      ((k, VBytes (length h)) :: fst out, snd out)
  | (k, v) :: rest =>
      let out := cloned rest h in ((k, v) :: fst out, snd out)
  end.

(** A byte array of a record is allocated. *)
Definition ref_ok (h : Heap) (v : Value) : Prop :=
  match v with
  | VBytes l => (l < length h)%nat
  | _ => True
  end.

(** What holds of every record made by [from] or [$clone]: distinct keys,
    none of them an instance member, every byte array allocated. *)
Definition instance_ok (h : Heap) (r : Instance) : Prop :=
  distinct (map fst (props r)) = true /\
  Forall (fun kv => reserved (fst kv) = false /\ ref_ok h (snd kv)) (props r).

(** The definition [struct("Header", ..)] returns, and a record of it. *)
Definition Header_struct : Struct :=
  {| name := "Header"; struct_size := 11;
     fields := builtin_fields Header_decl; littleEndian := true;
     totalSize := 11;
     fieldOffsets := [("magic"%string, 0); ("version"%string, 4);
                      ("flags"%string, 6); ("count"%string, 7)] |}.

Definition Header_record : Instance :=
  {| props := Header_data; dollar_struct := Header_struct |}.

(** ** Further vocabulary: 64-bit integers, binary fields, views *)

(** Signedness of the BigInt-valued integer types. *)
Definition wide_int (b : Builtin) : option bool :=
  match b with
  | Uint64 => Some false
  | Int64 => Some true
  | _ => None
  end.

(** The content of a field's slot after [write] on a slot that held [old]:
    every encoder stores the whole slot, except the one of [cstring], which
    stops after the terminator and leaves the rest of [old] in place. *)
Definition overwrite (b : Builtin) (le : bool) (h : Heap) (v : Value) (old : list Z)
    : option (list Z) :=
  match b with
  | CString n =>
      option_map (fun e => let length := Z.min (zlen e) (n - 1) in
                           take (Z.to_nat length) e ++ 0 :: drop (Z.to_nat (length + 1)) old)
                 (text_of v)
  | _ => encode_slot b le h v
  end.

(** The field types that hold bytes or integers, not text. *)
Definition binary (b : Builtin) : bool :=
  match b with
  | CString _ | FixedString _ => false
  | _ => true
  end.

(** A field whose decoder honours the position of the source in its
    ArrayBuffer: every field does when the source starts at offset 0, and
    every field but [string] does always. *)
Definition reads_through_view (src : BufferSource) (b : Builtin) : bool :=
  match b with
  | FixedString _ => DataView.byteOffset (view_of src) =? 0
  | _ => true
  end.

(** A struct with one fixed-text field, and one with the [version] field of
    the header alone. *)
Definition Code_struct : Struct :=
  {| name := "Code"; struct_size := 4;
     fields := builtin_fields [("code"%string, FixedString 4)]; littleEndian := false;
     totalSize := 4; fieldOffsets := [("code"%string, 0)] |}.

Definition Version_struct : Struct :=
  {| name := "Version"; struct_size := 2;
     fields := builtin_fields [("version"%string, Uint16)]; littleEndian := true;
     totalSize := 2; fieldOffsets := [("version"%string, 0)] |}.

(** The number of byte-array fields in a declaration. *)
Definition count_arrays (decl : list (string * Builtin)) : nat :=
  length (List.filter (fun e => match snd e with Bytes _ => true | _ => false end) decl).

(** ** The contract of a field type

    [struct] takes any object with [size], [parse] and [write], such as the
    ones [custom] builds.  The codec of a struct works for field types that
    keep to their slot. *)

(** [reads ft le slot v]: positioned on the bytes [slot] inside any view, the
    decoder of [ft] returns [v] and leaves the heap alone. *)
Definition reads (ft : FieldType) (le : bool) (slot : list Z) (v : Value) : Prop :=
  forall dv off h,
    DataView.wf dv -> 0 <= off -> off + size ft <= DataView.byteLength dv ->
    slice (DataView.buffer dv) (DataView.byteOffset dv + off) (size ft) = slot ->
    parse ft dv off le h = Ok (v, h).

(** [carries ft le v]: wherever the slot of [ft] lies in a view, its encoder
    replaces the slot, changes nothing else, and leaves there bytes from
    which its decoder reads [v] again. *)
Definition carries (ft : FieldType) (le : bool) (v : Value) : Prop :=
  0 <= size ft /\
  forall dv off h pre old post,
    DataView.buffer dv = pre ++ old ++ post ->
    DataView.byteOffset dv + off = zlen pre -> zlen old = size ft ->
    0 <= off -> off + size ft <= DataView.byteLength dv ->
    exists slot,
      zlen slot = size ft /\ reads ft le slot v /\
      write ft dv off v le h
      = Ok (DataView.mk (pre ++ slot ++ post) (DataView.byteOffset dv)
              (DataView.byteLength dv), h).

(** The bytes [bs] hold, slot after slot, content from which the decoders
    of [fs] read the values of [values]. *)
Fixpoint stored (le : bool) (values : JsObject) (fs : Fields) (bs : list Z) : Prop :=
  match fs with
  | [] => bs = []
  | (k, ft) :: rest =>
      exists slot tail,
        bs = slot ++ tail /\ zlen slot = size ft /\
        reads ft le slot (obj_get values k) /\ stored le values rest tail
  end.

(** [result[k] = values[k]] for the fields of [fs], in their order. *)
Fixpoint assign (values : JsObject) (fs : Fields) (result : JsObject) : JsObject :=
  match fs with
  | [] => result
  | (k, _) :: rest => assign values rest (obj_set result k (obj_get values k))
  end.

(** The built-in types that keep to the contract for the values they
    represent: the integers and [cstring].  [bytes] allocates, and
    [string] does not read through the view. *)
Definition plain (b : Builtin) : bool :=
  match b with
  | Bytes _ | FixedString _ => false
  | _ => true
  end.

(** A struct with a custom field that wraps the codec of [uint16]. *)
Definition Tagged_fields : Fields :=
  [("id"%string, FieldTypes.custom 2 (parse FieldTypes.uint16) (write FieldTypes.uint16));
   ("delta"%string, FieldTypes.int8)].

Definition Tagged_struct : Struct :=
  {| name := "Tagged"; struct_size := 3; fields := Tagged_fields; littleEndian := false;
     totalSize := 3; fieldOffsets := [("id"%string, 0); ("delta"%string, 2)] |}.

(** * Properties *)

(** ** Tactics *)

Ltac zcases :=
  repeat match goal with
  | |- context [?a <? ?b] => destruct (Z.ltb_spec a b); try lia
  | |- context [?a <=? ?b] => destruct (Z.leb_spec a b); try lia
  | |- context [?a =? ?b] => destruct (Z.eqb_spec a b); try lia
  end.

Ltac divmod := Z.div_mod_to_equations; lia.

Ltac surrogates :=
  unfold TextCodec.is_unit, TextCodec.is_high_surrogate, TextCodec.is_low_surrogate in *;
  repeat match goal with
  | H : _ && _ = true |- _ => apply andb_true_iff in H as [? ?]
  | H : _ && _ = false |- _ => apply andb_false_iff in H
  | H : (_ <=? _) = true |- _ => apply Z.leb_le in H
  | H : (_ <=? _) = false |- _ => apply Z.leb_gt in H
  end.

(** ** TextEncoder and TextDecoder (UTF-8)

    A JavaScript string is a sequence of UTF-16 code units. *)

Example encode_ascii : TextCodec.encode (txt "ABCD") = [65; 66; 67; 68].
Proof. reflexivity. Qed.
Example encode_euro : TextCodec.encode [0x20AC] = [0xE2; 0x82; 0xAC].
Proof. reflexivity. Qed.
Example encode_pair : TextCodec.encode [0xD83D; 0xDE00] = [0xF0; 0x9F; 0x98; 0x80].
Proof. reflexivity. Qed.
Example decode_pair : TextCodec.decode [0xF0; 0x9F; 0x98; 0x80] = [0xD83D; 0xDE00].
Proof. reflexivity. Qed.
Example decode_bom : TextCodec.decode [0xEF; 0xBB; 0xBF; 0x41] = [0x41].
Proof. reflexivity. Qed.
Example decode_truncated : TextCodec.decode [0x41; 0xE2; 0x82] = [0x41; 0xFFFD].
Proof. reflexivity. Qed.
Example decode_overlong : TextCodec.decode [0xC0; 0x80] = [0xFFFD; 0xFFFD].
Proof. reflexivity. Qed.

(** ** Running the examples of the test suite *)

Example Header_size :
  (let? structDef := struct "Header" (builtin_fields Header_decl) le_opts in Ok (struct_size structDef))
  = Ok 11.
Proof. reflexivity. Qed.

Example Header_to :
  (let? structDef := struct "Header" (builtin_fields Header_decl) le_opts in
   run (to structDef Header_data) [[65; 66; 67; 68]])
  = Ok [65; 66; 67; 68; 123; 0; 7; 0x39; 0x30; 0; 0].
Proof. reflexivity. Qed.

Example Header_from :
  (let? structDef := struct "Header" (builtin_fields Header_decl) le_opts in
   let? r := run (from structDef (ArrayBuffer [65; 66; 67; 68; 123; 0; 7; 0x39; 0x30; 0; 0]) None) [] in
   Ok (props r))
  = Ok [("magic"%string, VBytes 0%nat); ("version"%string, VNumber 123);
        ("flags"%string, VNumber 7); ("count"%string, VNumber 12345)].
Proof. reflexivity. Qed.

Example StringData_roundtrip :
  (let? structDef := struct "StringData"
               (builtin_fields [("name"%string, FixedString 10); ("code"%string, FixedString 4)])
               no_opts in
   let? b := run (to structDef [("name"%string, VString (txt "Test Name"));
                        ("code"%string, VString (txt "XYZ"))]) [] in
   let? r := run (from structDef (ArrayBuffer b) None) [] in
   Ok (props r))
  = Ok [("name"%string, VString (txt "Test Name" ++ [0]));
        ("code"%string, VString (txt "XYZ" ++ [0]))].
Proof. reflexivity. Qed.

Example CStringData_roundtrip :
  (let? structDef := struct "CStringData"
               (builtin_fields [("name"%string, CString 10); ("code"%string, CString 5)])
               no_opts in
   let? b := run (to structDef [("name"%string, VString (txt "Test Name"));
                        ("code"%string, VString (txt "XYZ"))]) [] in
   let? r := run (from structDef (ArrayBuffer b) None) [] in
   Ok (b, props r))
  = Ok (map Z.of_nat [84; 101; 115; 116; 32; 78; 97; 109; 101; 0; 88; 89; 90; 0; 0]%nat,
        [("name"%string, VString (txt "Test Name"));
         ("code"%string, VString (txt "XYZ"))]).
Proof. reflexivity. Qed.

(** ** Byte sequences *)

Lemma zeros_length (n : Z) : length (zeros n) = Z.to_nat n.
Proof. apply length_replicate. Qed.

Lemma zeros_bytes_ok (n : Z) : bytes_ok (zeros n).
Proof. apply Forall_replicate. unfold is_byte. lia. Qed.

Lemma zeros_add (a b : Z) : 0 <= a -> 0 <= b -> zeros (a + b) = zeros a ++ zeros b.
Proof.
  intros Ha Hb. unfold zeros. rewrite Z2Nat.inj_add by lia.
  apply replicate_add.
Qed.

Lemma zeros_succ (n : Z) : 0 < n -> zeros n = 0 :: zeros (n - 1).
Proof.
  intros Hn. unfold zeros.
  replace (Z.to_nat n) with (S (Z.to_nat (n - 1))) by lia. reflexivity.
Qed.

(** Reading a slot that sits between [pre] and [post]. *)
Lemma slice_middle (pre slot post : list Z) (i n : Z) :
  i = Z.of_nat (length pre) -> n = Z.of_nat (length slot) ->
  slice (pre ++ slot ++ post) i n = slot.
Proof.
  intros -> ->. unfold slice. rewrite !Nat2Z.id.
  rewrite drop_app_length. apply take_app_length.
Qed.

(** Overwriting a slot that sits between [pre] and [post]. *)
Lemma splice_middle (pre old post new : list Z) (i : Z) :
  i = Z.of_nat (length pre) -> length new = length old ->
  splice (pre ++ old ++ post) i new = pre ++ new ++ post.
Proof.
  intros -> Hlen. unfold splice. rewrite Nat2Z.id.
  rewrite take_app_length. f_equal. f_equal.
  rewrite Hlen, drop_app_add', drop_app_length; reflexivity.
Qed.

(** Any in-range region of a buffer can be exposed as a middle slot. *)
Lemma split_at (bs : list Z) (i n : Z) :
  0 <= i -> 0 <= n -> i + n <= Z.of_nat (length bs) ->
  bs = take (Z.to_nat i) bs ++ slice bs i n ++ drop (Z.to_nat (i + n)) bs
  /\ length (take (Z.to_nat i) bs) = Z.to_nat i
  /\ length (slice bs i n) = Z.to_nat n.
Proof.
  intros Hi Hn Hle. unfold slice. split; [|split].
  - rewrite Z2Nat.inj_add by lia.
    rewrite <- (take_drop (Z.to_nat i) bs) at 1. f_equal.
    rewrite <- (take_drop (Z.to_nat n) (drop (Z.to_nat i) bs)) at 1. f_equal.
    rewrite drop_drop. reflexivity.
  - rewrite length_take. lia.
  - rewrite length_take, length_drop. lia.
Qed.

(** ** Little-endian digits *)

Lemma le_bytes_length (w : nat) (v : Z) : length (le_bytes w v) = w.
Proof. revert v. induction w as [|w IH]; intros v; simpl; [reflexivity|]. now rewrite IH. Qed.

Lemma pow_bits (w : nat) : 2 ^ (8 * Z.of_nat w) = 256 ^ Z.of_nat w.
Proof. rewrite Z.pow_mul_r by lia. reflexivity. Qed.

Lemma le_value_bytes (w : nat) (v : Z) :
  le_value (le_bytes w v) = v mod 2 ^ (8 * Z.of_nat w).
Proof.
  rewrite pow_bits. revert v. induction w as [|w IH]; intros v.
  - simpl. now rewrite Z.mod_1_r.
  - cbn [le_bytes le_value]. rewrite IH.
    rewrite Nat2Z.inj_succ, Z.pow_succ_r by lia.
    rewrite Z.rem_mul_r by lia. reflexivity.
Qed.

Lemma to_signed_range (w : nat) (v : Z) :
  (0 < w)%nat ->
  - 2 ^ (8 * Z.of_nat w - 1) <= v < 2 ^ (8 * Z.of_nat w - 1) ->
  to_signed w (v mod 2 ^ (8 * Z.of_nat w)) = v.
Proof.
  intros Hw Hv. unfold to_signed.
  assert (Hp : 2 ^ (8 * Z.of_nat w) = 2 * 2 ^ (8 * Z.of_nat w - 1)).
  { rewrite <- Z.pow_succ_r by lia. f_equal. lia. }
  assert (Hpos : 0 < 2 ^ (8 * Z.of_nat w - 1)) by (apply Z.pow_pos_nonneg; lia).
  destruct (Z_lt_le_dec v 0) as [Hneg|Hnn].
  - replace (v mod 2 ^ (8 * Z.of_nat w)) with (v + 2 ^ (8 * Z.of_nat w)).
    + destruct (Z.ltb_spec (v + 2 ^ (8 * Z.of_nat w)) (2 ^ (8 * Z.of_nat w - 1))); lia.
    + symmetry. rewrite <- (Z.mod_add v 1) by lia. rewrite Z.mul_1_l.
      apply Z.mod_small. lia.
  - rewrite Z.mod_small by lia.
    destruct (Z.ltb_spec v (2 ^ (8 * Z.of_nat w - 1))); lia.
Qed.

(** ** Layout *)

Lemma sizes_sum_app (xs ys : Fields) :
  sizes_sum (xs ++ ys) = sizes_sum xs + sizes_sum ys.
Proof. induction xs as [|x xs IH]; simpl; [reflexivity|]. rewrite IH. lia. Qed.

Lemma existsb_eqb_false (k : string) (ks : list string) :
  existsb (String.eqb k) ks = false <-> ~ In k ks.
Proof.
  induction ks as [|k' ks IH]; simpl; [tauto|].
  rewrite orb_false_iff, IH. destruct (String.eqb_spec k k'); intuition congruence.
Qed.

Lemma distinct_app_mid (pre post : list string) (k : string) :
  distinct (pre ++ k :: post) = true -> ~ In k pre /\ ~ In k post /\ distinct post = true.
Proof.
  induction pre as [|p pre IH]; simpl.
  - rewrite andb_true_iff, negb_true_iff, existsb_eqb_false. tauto.
  - rewrite andb_true_iff, negb_true_iff, existsb_eqb_false.
    intros [Hp Hd]. destruct (IH Hd) as (H1 & H2 & H3).
    repeat split; try assumption.
    intros [->|Hin]; [|tauto]. apply Hp, in_or_app. right. now left.
Qed.

Lemma offsets_get_set (o : list (string * Z)) (k k' : string) (v : Z) :
  offsets_get (offsets_set o k v) k' =
  if String.eqb k k' then Some v else offsets_get o k'.
Proof.
  induction o as [|[k0 v0] o IH]; simpl.
  - reflexivity.
  - destruct (String.eqb_spec k0 k) as [->|Hne]; simpl.
    + destruct (String.eqb_spec k k'); reflexivity.
    + rewrite IH. destruct (String.eqb_spec k0 k') as [->|Hne'].
      * destruct (String.eqb_spec k k'); congruence.
      * reflexivity.
Qed.

Lemma layout_fold_size (fs : Fields) (t : Z) (o : list (string * Z)) :
  fst (fold_left layout_step fs (t, o)) = t + sizes_sum fs.
Proof.
  revert t o. induction fs as [|[k ft] fs IH]; intros t o; simpl.
  - lia.
  - unfold layout_step at 2. simpl. rewrite IH. lia.
Qed.

Lemma layout_fold_other (fs : Fields) (t : Z) (o : list (string * Z)) (k : string) :
  ~ In k (names fs) ->
  offsets_get (snd (fold_left layout_step fs (t, o))) k = offsets_get o k.
Proof.
  revert t o. induction fs as [|[k0 ft] fs IH]; intros t o Hin; simpl in *.
  - reflexivity.
  - unfold layout_step at 2. simpl. rewrite IH by tauto.
    rewrite offsets_get_set. destruct (String.eqb_spec k0 k); [tauto|reflexivity].
Qed.

Lemma layout_fold_lookup (pre post : Fields) (k : string) (ft : FieldType)
    (t : Z) (o : list (string * Z)) :
  distinct (names (pre ++ (k, ft) :: post)) = true ->
  offsets_get (snd (fold_left layout_step (pre ++ (k, ft) :: post) (t, o))) k
  = Some (t + sizes_sum pre).
Proof.
  revert t o. induction pre as [|[k0 ft0] pre IH]; intros t o Hd.
  - simpl in *. unfold layout_step at 2. simpl.
    apply andb_true_iff in Hd as [Hk _].
    apply negb_true_iff, existsb_eqb_false in Hk.
    rewrite layout_fold_other by exact Hk.
    rewrite offsets_get_set, String.eqb_refl. f_equal. lia.
  - simpl in *. unfold layout_step at 2. simpl.
    apply andb_true_iff in Hd as [_ Hd].
    rewrite IH by exact Hd. f_equal. lia.
Qed.

Lemma layout_lookup (pre post : Fields) (k : string) (ft : FieldType) :
  distinct (names (pre ++ (k, ft) :: post)) = true ->
  offsets_get (snd (layout (pre ++ (k, ft) :: post))) k = Some (sizes_sum pre).
Proof. intros Hd. unfold layout. now rewrite layout_fold_lookup. Qed.

Lemma layout_laid_out_from (pre fs : Fields) :
  distinct (names (pre ++ fs)) = true ->
  laid_out (snd (layout (pre ++ fs))) (sizes_sum pre) fs.
Proof.
  revert pre. induction fs as [|[k ft] fs IH]; intros pre Hd; simpl.
  - exact I.
  - split.
    + now apply layout_lookup.
    + specialize (IH (pre ++ [(k, ft)])).
      rewrite <- app_assoc in IH. simpl in IH.
      rewrite sizes_sum_app in IH. simpl in IH.
      rewrite Z.add_0_r in IH. now apply IH.
Qed.

Lemma layout_laid_out (fs : Fields) :
  distinct (names fs) = true -> laid_out (snd (layout fs)) 0 fs.
Proof. intros Hd. now apply (layout_laid_out_from [] fs). Qed.

Lemma struct_unfold (n : string) (fs : Fields) (options : StructOptions) :
  struct n fs options =
  Ok {| name := n; struct_size := fst (layout fs); fields := fs;
        littleEndian := default false (opt_littleEndian options);
        totalSize := fst (layout fs); fieldOffsets := snd (layout fs) |}.
Proof. unfold struct. destruct (layout fs). reflexivity. Qed.

Lemma layout_size (fs : Fields) : fst (layout fs) = sizes_sum fs.
Proof. unfold layout. now rewrite layout_fold_size. Qed.

Lemma sizes_sum_pos (fs : Fields) :
  Forall (fun e => 0 < size (snd e)) fs -> 0 <= sizes_sum fs.
Proof. induction 1; simpl; lia. Qed.

Lemma distinct_NoDup (ks : list string) : distinct ks = true <-> NoDup ks.
Proof.
  induction ks as [|k ks IH]; simpl.
  - split; [constructor | reflexivity].
  - rewrite andb_true_iff, negb_true_iff, existsb_eqb_false, IH.
    rewrite NoDup_cons, list_elem_of_In. tauto.
Qed.

Lemma insert_indexed_perm (n : Z) (e : string * FieldType)
    (sorted : list (Z * (string * FieldType))) :
  Permutation (insert_indexed n e sorted) ((n, e) :: sorted).
Proof.
  induction sorted as [|[m e'] sorted IH]; simpl; [reflexivity|].
  destruct (n <? m); [reflexivity|].
  rewrite IH. apply perm_swap.
Qed.

(** [Object.entries] lists every property once. *)
Lemma own_entries_perm (declared : Fields) : Permutation (own_entries declared) declared.
Proof.
  unfold own_entries, is_index.
  induction declared as [|e declared IH]; [reflexivity|].
  cbn [indexed_entries List.filter].
  destruct (array_index (fst e)) as [n|]; cbn [negb].
  - rewrite insert_indexed_perm. simpl. now rewrite IH.
  - rewrite <- Permutation_middle. now rewrite IH.
Qed.

(** Without array indices among the names it lists them as declared. *)
Lemma own_entries_id (declared : Fields) :
  index_free (names declared) = true -> own_entries declared = declared.
Proof.
  unfold own_entries, index_free, is_index.
  induction declared as [|e declared IH]; [reflexivity|].
  simpl. destruct (array_index (fst e)); [discriminate|].
  intros H. simpl in H. specialize (IH H).
  assert (Hnil : indexed_entries declared = []).
  { clear IH. induction declared as [|e' declared IH']; [reflexivity|].
    simpl in *. destruct (array_index (fst e')); [discriminate|]. now apply IH'. }
  rewrite Hnil in *. simpl in *. now rewrite IH.
Qed.

Lemma sizes_sum_perm (xs ys : Fields) : Permutation xs ys -> sizes_sum xs = sizes_sum ys.
Proof.
  induction 1 as [|e xs ys _ IH|e1 e2 xs|xs ys zs _ IH1 _ IH2]; simpl in *; lia.
Qed.

Lemma own_entries_distinct (declared : Fields) :
  distinct (names declared) = true -> distinct (names (own_entries declared)) = true.
Proof.
  rewrite !distinct_NoDup. intros H.
  assert (Hperm : Permutation (names (own_entries declared)) (names declared))
    by (unfold names; apply Permutation_map, own_entries_perm).
  now rewrite Hperm.
Qed.

(** C5 (as the code has it). [struct] lays the fields out in the order in
    which [Object.entries] lists them.  For field names that are distinct
    and not [__proto__]: the struct's size is the sum of the field sizes;
    each field's offset is the sum of the sizes of the fields listed before
    it; consecutive fields touch (no gap, no padding); the last offset plus
    the last size is the struct's size; and where every size is positive,
    offsets increase strictly and slots do not overlap.  The order of
    [Object.entries] is the order of declaration when no name is an array
    index. *)
Theorem layout_invariant (n : string) (declared : Fields) (options : StructOptions) :
  distinct (names declared) = true ->
  proto_free (names declared) = true ->
  exists sd,
    struct n (own_entries declared) options = Ok sd /\
    (index_free (names declared) = true -> own_entries declared = declared) /\
    struct_size sd = sizes_sum declared /\
    totalSize sd = struct_size sd /\
    (forall pre k ft post, own_entries declared = pre ++ (k, ft) :: post ->
       offsets_get (fieldOffsets sd) k = Some (sizes_sum pre)) /\
    (forall pre k1 ft1 k2 ft2 post o1,
       own_entries declared = pre ++ (k1, ft1) :: (k2, ft2) :: post ->
       offsets_get (fieldOffsets sd) k1 = Some o1 ->
       offsets_get (fieldOffsets sd) k2 = Some (o1 + size ft1)) /\
    (Forall (fun e => 0 < size (snd e)) declared ->
     forall pre k1 ft1 mid k2 ft2 post o1 o2,
       own_entries declared = pre ++ (k1, ft1) :: mid ++ (k2, ft2) :: post ->
       offsets_get (fieldOffsets sd) k1 = Some o1 ->
       offsets_get (fieldOffsets sd) k2 = Some o2 ->
       0 <= o1 /\ o1 < o2 /\ o1 + size ft1 <= o2 /\ o2 + size ft2 <= struct_size sd) /\
    (forall pre k ft o, own_entries declared = pre ++ [(k, ft)] ->
       offsets_get (fieldOffsets sd) k = Some o ->
       o + size ft = struct_size sd).
Proof.
  intros Hd0 _.
  pose proof (own_entries_distinct declared Hd0) as Hd.
  pose proof (sizes_sum_perm _ _ (own_entries_perm declared)) as Hsum.
  set (fs := own_entries declared) in *.
  rewrite struct_unfold. eexists. split; [reflexivity|]. simpl.
  rewrite layout_size.
  assert (Hlook : forall pre k ft post, fs = pre ++ (k, ft) :: post ->
            offsets_get (snd (layout fs)) k = Some (sizes_sum pre)).
  { intros pre k ft post Hfs. rewrite Hfs in Hd |- *. now apply layout_lookup. }
  split; [apply own_entries_id|]. split; [exact Hsum|]. split; [reflexivity|].
  split; [exact Hlook|]. split; [|split].
  - intros pre k1 ft1 k2 ft2 post o1 Hfs H1.
    rewrite (Hlook pre k1 ft1 _ Hfs) in H1. injection H1 as <-.
    rewrite (Hlook (pre ++ [(k1, ft1)]) k2 ft2 post).
    + rewrite sizes_sum_app. simpl. f_equal. lia.
    + rewrite Hfs, <- app_assoc. reflexivity.
  - intros Hpos pre k1 ft1 mid k2 ft2 post o1 o2 Hfs H1 H2.
    assert (Hpos' : Forall (fun e => 0 < size (snd e)) fs).
    { eapply Permutation_Forall; [|exact Hpos]. symmetry. apply own_entries_perm. }
    rewrite (Hlook pre k1 ft1 _ Hfs) in H1. injection H1 as <-.
    rewrite (Hlook (pre ++ (k1, ft1) :: mid) k2 ft2 post) in H2
      by (rewrite Hfs, <- app_assoc; reflexivity).
    injection H2 as <-. rewrite Hfs.
    rewrite Hfs in Hpos'.
    apply Forall_app in Hpos' as [Hpre H]. apply Forall_cons in H as [H1 H].
    apply Forall_app in H as [Hmid H]. apply Forall_cons in H as [H2 Hpost].
    apply sizes_sum_pos in Hpre, Hmid, Hpost.
    rewrite !sizes_sum_app. simpl. rewrite sizes_sum_app. simpl in *. lia.
  - intros pre k ft o Hfs Ho.
    rewrite (Hlook pre k ft [] Hfs) in Ho. injection Ho as <-.
    rewrite Hfs. rewrite sizes_sum_app. simpl. lia.
Qed.

Lemma layout_invariant_witness :
  distinct (names (builtin_fields Header_decl)) = true /\
  exists sd, struct "Header" (builtin_fields Header_decl) le_opts = Ok sd /\
             struct_size sd = 11.
Proof.
  split; [reflexivity|].
  destruct (layout_invariant "Header" (builtin_fields Header_decl) le_opts eq_refl eq_refl)
    as (sd & Hs & _ & Hsize & _).
  exists sd. split; [exact Hs|]. rewrite Hsize. reflexivity.
Defined.

(** C5 as stated fails.  A field whose name is an array index is laid out
    before the fields declared ahead of it: in [{ b: uint8(), 1: uint16() }]
    the field [1] is at offset 0 and [b], declared first, at offset 2.  And
    offsets do not increase strictly where a size is 0, which [struct]
    accepts: in [{ pad: bytes(0), x: uint8() }] both fields are at 0. *)
Lemma layout_follows_entries_order :
  (distinct ["b"; "1"]%string = true /\
   own_entries [("b"%string, FieldTypes.uint8); ("1"%string, FieldTypes.uint16)]
   = [("1"%string, FieldTypes.uint16); ("b"%string, FieldTypes.uint8)] /\
   exists sd,
     struct "S" (own_entries [("b"%string, FieldTypes.uint8); ("1"%string, FieldTypes.uint16)])
       no_opts = Ok sd /\
     offsets_get (fieldOffsets sd) "b" = Some 2 /\
     offsets_get (fieldOffsets sd) "1" = Some 0) /\
  (exists sd,
     struct "P" (own_entries [("pad"%string, FieldTypes.bytes 0); ("x"%string, FieldTypes.uint8)])
       no_opts = Ok sd /\
     offsets_get (fieldOffsets sd) "pad" = Some 0 /\
     offsets_get (fieldOffsets sd) "x" = Some 0).
Proof.
  split.
  - split; [reflexivity|]. split; [reflexivity|].
    eexists. split; [reflexivity|]. split; reflexivity.
  - eexists. split; [reflexivity|]. split; reflexivity.
Qed.

(** ** Construction *)

(** C7 (as the code has it). [struct] validates nothing: for every field
    list, whatever the sizes, it returns a definition with the given name
    and fields, the sum of the sizes as its size and the flag of the
    options; so construction cannot fail for positive sizes either. *)
Theorem struct_never_fails (n : string) (fs : Fields) (options : StructOptions) :
  succeeds (struct n fs options) = true /\
  exists sd,
    struct n fs options = Ok sd /\
    name sd = n /\ fields sd = fs /\ struct_size sd = sizes_sum fs /\
    littleEndian sd = default false (opt_littleEndian options).
Proof.
  rewrite struct_unfold. split; [reflexivity|].
  eexists. split; [reflexivity|]. cbn. rewrite layout_size. repeat split.
Qed.

(** C7 as stated fails: a field of size zero is accepted. *)
Lemma struct_accepts_nonpositive_size :
  Exists (fun e => size (snd e) <= 0) [("pad"%string, FieldTypes.bytes 0)] /\
  succeeds (struct "Padded" [("pad"%string, FieldTypes.bytes 0)] no_opts) = true.
Proof. split; [constructor; simpl; lia | reflexivity]. Qed.

(** ** DataView accesses inside the view *)

Lemma slice_splice (bs new : list Z) (i : Z) :
  0 <= i -> i + Z.of_nat (length new) <= Z.of_nat (length bs) ->
  slice (splice bs i new) i (Z.of_nat (length new)) = new.
Proof.
  intros Hi Hle.
  destruct (split_at bs i (Z.of_nat (length new))) as (Hbs & Hl1 & Hl2); try lia.
  rewrite Hbs. rewrite splice_middle by lia. apply slice_middle; lia.
Qed.

Lemma GetViewValue_in (dv : DataView.t) (idx : Z) (le : bool) (w : nat) :
  0 <= idx -> idx + Z.of_nat w <= DataView.byteLength dv ->
  DataView.GetViewValue dv idx le w =
  Ok (le_value (if le then slice (DataView.buffer dv) (DataView.byteOffset dv + idx) (Z.of_nat w)
                else rev (slice (DataView.buffer dv) (DataView.byteOffset dv + idx) (Z.of_nat w)))).
Proof. intros H1 H2. unfold DataView.GetViewValue. zcases. reflexivity. Qed.

Lemma GetViewValue_out (dv : DataView.t) (idx : Z) (le : bool) (w : nat) :
  idx < 0 \/ DataView.byteLength dv < idx + Z.of_nat w ->
  DataView.GetViewValue dv idx le w = Throw RangeError.
Proof. intros H. unfold DataView.GetViewValue. zcases; reflexivity. Qed.

Lemma SetViewValue_in (dv : DataView.t) (idx : Z) (le : bool) (w : nat) (v : Z) :
  0 <= idx -> idx + Z.of_nat w <= DataView.byteLength dv ->
  DataView.SetViewValue dv idx le w (Ok v) =
  Ok (DataView.mk
        (splice (DataView.buffer dv) (DataView.byteOffset dv + idx)
           (if le then le_bytes w (v mod 2 ^ (8 * Z.of_nat w))
            else rev (le_bytes w (v mod 2 ^ (8 * Z.of_nat w)))))
        (DataView.byteOffset dv) (DataView.byteLength dv)).
Proof. intros H1 H2. unfold DataView.SetViewValue. zcases. reflexivity. Qed.

Lemma order_length (le : bool) (bs : list Z) :
  length (if le then bs else rev bs) = length bs.
Proof. destruct le; [reflexivity | apply length_rev]. Qed.

Lemma order_involutive (le : bool) (bs : list Z) :
  (if le then (if le then bs else rev bs) else rev (if le then bs else rev bs)) = bs.
Proof. destruct le; [reflexivity | apply rev_involutive]. Qed.

(** Storing an integer and loading it back through the same view. *)
Lemma get_after_set (dv : DataView.t) (idx : Z) (le : bool) (w : nat) (v : Z) :
  DataView.wf dv -> 0 <= idx -> idx + Z.of_nat w <= DataView.byteLength dv ->
  exists dv',
    DataView.SetViewValue dv idx le w (Ok v) = Ok dv' /\
    DataView.byteOffset dv' = DataView.byteOffset dv /\
    DataView.byteLength dv' = DataView.byteLength dv /\
    slice (DataView.buffer dv') (DataView.byteOffset dv + idx) (Z.of_nat w)
      = (if le then le_bytes w (v mod 2 ^ (8 * Z.of_nat w))
         else rev (le_bytes w (v mod 2 ^ (8 * Z.of_nat w)))) /\
    DataView.GetViewValue dv' idx le w = Ok (v mod 2 ^ (8 * Z.of_nat w)).
Proof.
  intros (Hbo & Hbl & Hfit) Hidx Hw.
  rewrite SetViewValue_in by assumption. eexists. split; [reflexivity|]. simpl.
  set (raw := le_bytes w (v mod 2 ^ (8 * Z.of_nat w))).
  assert (Hlen : length (if le then raw else rev raw) = w).
  { rewrite order_length. apply le_bytes_length. }
  assert (Hslice : slice (splice (DataView.buffer dv) (DataView.byteOffset dv + idx)
                            (if le then raw else rev raw))
                     (DataView.byteOffset dv + idx) (Z.of_nat w)
                   = (if le then raw else rev raw)).
  { replace (Z.of_nat w) with (Z.of_nat (length (if le then raw else rev raw)))
      by (now rewrite Hlen).
    apply slice_splice; lia. }
  repeat split; [exact Hslice|].
  rewrite GetViewValue_in by (simpl; lia). simpl. rewrite Hslice.
  rewrite order_involutive. unfold raw. rewrite le_value_bytes.
  f_equal. apply Z.mod_mod. apply Z.pow_nonzero; lia.
Qed.

(** ** Integer fields of width 1, 2 and 4 *)

Lemma lift_ok {A} (m : outcome A) (a : A) (h : Heap) :
  m = Ok a -> lift m h = Ok (a, h).
Proof. intros ->. reflexivity. Qed.

(** C10. Encoding a Number outside the range of a 1-, 2- or 4-byte integer
    field does not fail: the slot holds the digits of the value reduced
    modulo 2^(8w), and decoding returns that reduced value (as a signed
    number for the signed types).  The second part exhibits a record whose
    field changes through [to] and [from] with no error. *)
Theorem integer_overflow_wraps :
  (forall b w sg, narrow_int b = Some (w, sg) ->
   forall dv off v le h,
     DataView.wf dv -> 0 <= off -> off + Z.of_nat w <= DataView.byteLength dv ->
     exists dv',
       write (field_of b) dv off (VNumber v) le h = Ok (dv', h) /\
       slice (DataView.buffer dv') (DataView.byteOffset dv + off) (Z.of_nat w)
         = (if le then le_bytes w (v mod 2 ^ (8 * Z.of_nat w))
            else rev (le_bytes w (v mod 2 ^ (8 * Z.of_nat w)))) /\
       parse (field_of b) dv' off le h = Ok (VNumber (wrap w sg v), h)) /\
  (exists sd buf r,
     struct "Byte" [("x"%string, FieldTypes.uint8)] no_opts = Ok sd /\
     run (to sd [("x"%string, VNumber 256)]) [] = Ok buf /\
     run (from sd (ArrayBuffer buf) None) [] = Ok r /\
     obj_get (props r) "x" = VNumber 0 /\ VNumber 0 <> VNumber 256).
Proof.
  split.
  - intros b w sg Hb dv off v le h Hwf Hoff Hfit.
    destruct b; simpl in Hb; try discriminate; injection Hb as <- <-;
      simpl field_of; cbn [write parse FieldTypes.uint8 FieldTypes.uint16
        FieldTypes.uint32 FieldTypes.int8 FieldTypes.int16 FieldTypes.int32];
      unfold DataView.setUint8, DataView.setUint16, DataView.setUint32,
        DataView.setInt8, DataView.setInt16, DataView.setInt32,
        DataView.getUint8, DataView.getUint16, DataView.getUint32,
        DataView.getInt8, DataView.getInt16, DataView.getInt32;
      cbn [DataView.ToNumber].
    all: try (destruct (get_after_set dv off le _ v Hwf Hoff Hfit)
                as (dv' & Hset & _ & _ & Hsl & Hget);
              exists dv'; rewrite (lift_ok _ _ _ Hset);
              split; [reflexivity|]; split; [exact Hsl|];
              rewrite Hget; reflexivity).
    all: destruct (get_after_set dv off false _ v Hwf Hoff Hfit)
           as (dv' & Hset & _ & _ & Hsl & Hget);
         exists dv'; rewrite (lift_ok _ _ _ Hset);
         split; [reflexivity|]; split;
         [rewrite Hsl; destruct le; reflexivity | rewrite Hget; reflexivity].
  - eexists _, _, _. repeat split; try reflexivity. discriminate.
Qed.

Lemma integer_overflow_wraps_witness :
  DataView.wf (DataView.mk [0; 0; 0; 0] 0 4) /\
  exists dv',
    write FieldTypes.int16 (DataView.mk [0; 0; 0; 0] 0 4) 1 (VNumber 40000) false []
      = Ok (dv', []) /\
    parse FieldTypes.int16 dv' 1 false [] = Ok (VNumber (-25536), []).
Proof.
  assert (Hwf : DataView.wf (DataView.mk [0; 0; 0; 0] 0 4))
    by (unfold DataView.wf; simpl; lia).
  split; [exact Hwf|].
  destruct (proj1 integer_overflow_wraps Int16 2%nat true eq_refl
              (DataView.mk [0; 0; 0; 0] 0 4) 1 40000 false [] Hwf)
    as (dv' & Hw & _ & Hp); [lia | simpl; lia |].
  exists dv'. split; [exact Hw | exact Hp].
Defined.

(** ** Text: UTF-8 encoding and decoding *)

Lemma lor_high_low (c y n : Z) :
  0 <= n -> 0 <= y < 2 ^ n -> Z.lor (c * 2 ^ n) y = c * 2 ^ n + y.
Proof.
  intros Hn Hy. rewrite <- Z.add_lor_land.
  assert (Hland : Z.land (c * 2 ^ n) y = 0).
  { apply Z.bits_inj'. intros i Hi. rewrite Z.land_spec, Z.bits_0.
    destruct (Z_lt_le_dec i n) as [Hlt|Hge].
    - rewrite Z.mul_pow2_bits_low by lia. reflexivity.
    - rewrite <- (Z.mod_small y (2 ^ n)) by lia.
      rewrite Z.mod_pow2_bits_high by lia. apply andb_false_r. }
  rewrite Hland. lia.
Qed.

Lemma land_low (x n : Z) : 0 <= n -> Z.land x (2 ^ n - 1) = x mod 2 ^ n.
Proof.
  intros Hn. rewrite <- Z.land_ones by lia. f_equal.
  rewrite Z.ones_equiv. lia.
Qed.

Lemma land_3F (x : Z) : Z.land x 0x3F = x mod 64.
Proof. apply (land_low x 6). lia. Qed.
Lemma land_1F (x : Z) : Z.land x 0x1F = x mod 32.
Proof. apply (land_low x 5). lia. Qed.
Lemma land_0F (x : Z) : Z.land x 0xF = x mod 16.
Proof. apply (land_low x 4). lia. Qed.
Lemma land_07 (x : Z) : Z.land x 0x7 = x mod 8.
Proof. apply (land_low x 3). lia. Qed.

Lemma continuation_byte (x : Z) : Z.lor 0x80 (Z.land x 0x3F) = 128 + x mod 64.
Proof.
  rewrite land_3F. apply (lor_high_low 2 (x mod 64) 6); [lia|].
  apply Z.mod_pos_bound. lia.
Qed.

Lemma accumulate (c b : Z) :
  Z.lor (Z.shiftl c 6) (Z.land b 0x3F) = c * 64 + b mod 64.
Proof.
  rewrite land_3F, Z.shiftl_mul_pow2 by lia.
  apply (lor_high_low c (b mod 64) 6); [lia|].
  apply Z.mod_pos_bound. lia.
Qed.

(** The encoder in arithmetic form. *)
Lemma utf8_bytes_arith (cp : Z) :
  TextCodec.utf8_bytes cp =
  if cp <=? 0x7F then [cp]
  else if cp <=? 0x7FF then [cp / 64 + 192; 128 + cp mod 64]
  else if cp <=? 0xFFFF then
    [cp / 4096 + 224; 128 + (cp / 64) mod 64; 128 + cp mod 64]
  else [cp / 262144 + 240; 128 + (cp / 4096) mod 64;
        128 + (cp / 64) mod 64; 128 + cp mod 64].
Proof.
  unfold TextCodec.utf8_bytes. rewrite !continuation_byte.
  rewrite !Z.shiftr_div_pow2 by lia.
  change (2 ^ (6 * 0)) with 1. change (2 ^ (6 * 1)) with 64.
  change (2 ^ (6 * 2)) with 4096. change (2 ^ 6) with 64.
  change (2 ^ 12) with 4096. change (2 ^ 18) with 262144.
  rewrite Z.div_1_r. reflexivity.
Qed.

Lemma scalar_range (cp : Z) :
  scalar cp = true <-> (0 <= cp <= 0x10FFFF /\ ~ (0xD800 <= cp <= 0xDFFF)).
Proof.
  unfold scalar. rewrite !andb_true_iff, negb_true_iff, andb_false_iff.
  rewrite !Z.leb_le, !Z.leb_gt. lia.
Qed.

Lemma utf8_bytes_ok (cp : Z) : scalar cp = true -> bytes_ok (TextCodec.utf8_bytes cp).
Proof.
  intros Hs. apply scalar_range in Hs. rewrite utf8_bytes_arith.
  unfold bytes_ok, is_byte.
  zcases; repeat constructor; divmod.
Qed.

Lemma utf8_bytes_nonzero (cp : Z) :
  scalar cp = true -> cp <> 0 -> Forall (fun b => b <> 0) (TextCodec.utf8_bytes cp).
Proof.
  intros Hs Hne. apply scalar_range in Hs. rewrite utf8_bytes_arith.
  zcases; repeat constructor; divmod.
Qed.

Lemma lead_ascii (b : Z) :
  0 <= b <= 0x7F -> TextCodec.lead b = ([b], TextCodec.dinit).
Proof. intros H. unfold TextCodec.lead, TextCodec.between. zcases. reflexivity. Qed.

Lemma lead_two (b : Z) :
  0xC2 <= b <= 0xDF ->
  TextCodec.lead b = ([], TextCodec.mkd (b mod 32) 0 1 0x80 0xBF).
Proof.
  intros H. unfold TextCodec.lead, TextCodec.between. rewrite land_1F.
  zcases. reflexivity.
Qed.

Lemma lead_three (b : Z) :
  0xE0 <= b <= 0xEF ->
  TextCodec.lead b =
  ([], TextCodec.mkd (b mod 16) 0 2 (if b =? 0xE0 then 0xA0 else 0x80)
         (if b =? 0xED then 0x9F else 0xBF)).
Proof.
  intros H. unfold TextCodec.lead, TextCodec.between. rewrite land_0F.
  destruct (Z.leb_spec 0 b), (Z.leb_spec b 127), (Z.leb_spec 194 b),
    (Z.leb_spec b 223), (Z.leb_spec 224 b), (Z.leb_spec b 239); try lia.
  reflexivity.
Qed.

Lemma lead_four (b : Z) :
  0xF0 <= b <= 0xF4 ->
  TextCodec.lead b =
  ([], TextCodec.mkd (b mod 8) 0 3 (if b =? 0xF0 then 0x90 else 0x80)
         (if b =? 0xF4 then 0x8F else 0xBF)).
Proof.
  intros H. unfold TextCodec.lead, TextCodec.between. rewrite land_07.
  destruct (Z.leb_spec 0 b), (Z.leb_spec b 127), (Z.leb_spec 194 b),
    (Z.leb_spec b 223), (Z.leb_spec 224 b), (Z.leb_spec b 239),
    (Z.leb_spec 240 b), (Z.leb_spec b 244); try lia.
  reflexivity.
Qed.

Lemma handler_lead (st : TextCodec.dstate) (b : Z) :
  TextCodec.bytes_needed st = 0 -> TextCodec.handler st b = TextCodec.lead b.
Proof. intros H. unfold TextCodec.handler. rewrite H. reflexivity. Qed.

Lemma handler_continue (c seen needed lo hi b : Z) :
  needed <> 0 -> lo <= b <= hi ->
  TextCodec.handler (TextCodec.mkd c seen needed lo hi) b =
  if seen + 1 =? needed then ([c * 64 + b mod 64], TextCodec.dinit)
  else ([], TextCodec.mkd (c * 64 + b mod 64) (seen + 1) needed 0x80 0xBF).
Proof.
  intros Hn Hb. unfold TextCodec.handler, TextCodec.between.
  cbn [TextCodec.bytes_needed TextCodec.lower TextCodec.upper
       TextCodec.code_point TextCodec.bytes_seen].
  rewrite accumulate.
  destruct (Z.eqb_spec needed 0); [lia|].
  destruct (Z.leb_spec lo b), (Z.leb_spec b hi); try lia.
  reflexivity.
Qed.

Lemma decode_encoded (cp : Z) (rest : list Z) :
  scalar cp = true ->
  TextCodec.utf8_decode TextCodec.dinit (TextCodec.utf8_bytes cp ++ rest)
  = cp :: TextCodec.utf8_decode TextCodec.dinit rest.
Proof.
  intros Hs. apply scalar_range in Hs. rewrite utf8_bytes_arith.
  destruct (Z.leb_spec cp 0x7F) as [H1|H1];
    [|destruct (Z.leb_spec cp 0x7FF) as [H2|H2];
      [|destruct (Z.leb_spec cp 0xFFFF) as [H3|H3]]];
    cbn [app TextCodec.utf8_decode].
  - rewrite handler_lead by reflexivity. rewrite lead_ascii by lia. reflexivity.
  - rewrite handler_lead by reflexivity. rewrite lead_two by divmod.
    rewrite handler_continue by (try discriminate; divmod).
    simpl (0 + 1 =? 1). cbv iota. cbn [app]. f_equal. divmod.
  - rewrite handler_lead by reflexivity. rewrite lead_three by divmod.
    rewrite handler_continue by (try discriminate; zcases; divmod).
    simpl (0 + 1 =? 2). cbv iota.
    rewrite handler_continue by (try discriminate; divmod).
    simpl (0 + 1 + 1 =? 2). cbv iota. cbn [app]. f_equal. divmod.
  - rewrite handler_lead by reflexivity. rewrite lead_four by divmod.
    rewrite handler_continue by (try discriminate; zcases; divmod).
    simpl (0 + 1 =? 3). cbv iota.
    rewrite handler_continue by (try discriminate; divmod).
    simpl (0 + 1 + 1 =? 3). cbv iota.
    rewrite handler_continue by (try discriminate; divmod).
    simpl (0 + 1 + 1 + 1 =? 3). cbv iota. cbn [app]. f_equal. divmod.
Qed.

Lemma decode_encoded_list (cps rest : list Z) :
  forallb scalar cps = true ->
  TextCodec.utf8_decode TextCodec.dinit (flat_map TextCodec.utf8_bytes cps ++ rest)
  = cps ++ TextCodec.utf8_decode TextCodec.dinit rest.
Proof.
  induction cps as [|cp cps IH]; intros Hs; simpl in *.
  - reflexivity.
  - apply andb_true_iff in Hs as [Hcp Hs].
    rewrite <- app_assoc, decode_encoded by exact Hcp.
    now rewrite IH.
Qed.

Lemma decode_zeros (k : nat) :
  TextCodec.utf8_decode TextCodec.dinit (replicate k 0) = replicate k 0.
Proof. induction k as [|k IH]; simpl; [reflexivity|]. now rewrite IH. Qed.

(** Induction over the units of a well-formed string: a unit that is no
    surrogate, or a surrogate pair, at a time. *)
Lemma well_formed_ind (P : list Z -> Prop) :
  P [] ->
  (forall c s, TextCodec.is_unit c = true ->
     TextCodec.is_high_surrogate c = false -> TextCodec.is_low_surrogate c = false ->
     TextCodec.well_formed s = true -> P s -> P (c :: s)) ->
  (forall c d s, TextCodec.is_high_surrogate c = true ->
     TextCodec.is_low_surrogate d = true ->
     TextCodec.well_formed s = true -> P s -> P (c :: d :: s)) ->
  forall s, TextCodec.well_formed s = true -> P s.
Proof.
  intros Hnil Hone Hpair s.
  remember (length s) as n eqn:Hn. revert s Hn.
  induction n as [n IH] using lt_wf_ind. intros s Hn Hwf.
  destruct s as [|c s]; [exact Hnil|].
  simpl in Hwf. apply andb_true_iff in Hwf as [Hu Hwf].
  destruct (TextCodec.is_high_surrogate c) eqn:Hc.
  - destruct s as [|d s]; [discriminate|].
    apply andb_true_iff in Hwf as [Hd Hwf].
    apply Hpair; try assumption.
    apply (IH (length s)); [simpl in Hn; lia | reflexivity | exact Hwf].
  - apply andb_true_iff in Hwf as [Hl Hwf]. apply negb_true_iff in Hl.
    apply Hone; try assumption.
    apply (IH (length s)); [simpl in Hn; lia | reflexivity | exact Hwf].
Qed.

Lemma scalar_values_scalar (s : list Z) :
  TextCodec.well_formed s = true ->
  forallb scalar (TextCodec.to_scalar_values s) = true.
Proof.
  intros Hwf0. pattern s. apply well_formed_ind; [| | |exact Hwf0]; clear s Hwf0;
    [|intros c s Hu Hh Hl Hwf IH|intros c d s Hc Hd Hwf IH].
  - reflexivity.
  - simpl. rewrite Hh, Hl. simpl. rewrite IH, andb_true_r.
    apply scalar_range. surrogates. lia.
  - simpl. rewrite Hc, Hd. simpl. rewrite IH, andb_true_r.
    apply scalar_range. surrogates. lia.
Qed.

Lemma units_of_scalar_values (s : list Z) :
  TextCodec.well_formed s = true ->
  flat_map TextCodec.utf16_units (TextCodec.to_scalar_values s) = s.
Proof.
  intros Hwf0. pattern s. apply well_formed_ind; [| | |exact Hwf0]; clear s Hwf0;
    [|intros c s Hu Hh Hl Hwf IH|intros c d s Hc Hd Hwf IH].
  - reflexivity.
  - simpl. rewrite Hh, Hl. simpl. rewrite IH.
    unfold TextCodec.utf16_units. surrogates. zcases. reflexivity.
  - simpl. rewrite Hc, Hd. simpl. rewrite IH.
    unfold TextCodec.utf16_units. surrogates. zcases. simpl. f_equal; [|f_equal]; divmod.
Qed.

Lemma strip_bom_scalar_values (s tail : list Z) :
  TextCodec.well_formed s = true -> TextCodec.starts_with_bom s = false ->
  Forall (fun c => c <> 0xFEFF) (firstn 1 tail) ->
  TextCodec.strip_bom (TextCodec.to_scalar_values s ++ tail)
  = TextCodec.to_scalar_values s ++ tail.
Proof.
  intros Hwf Hbom Htail.
  destruct s as [|c s].
  - simpl. destruct tail as [|t tail]; [reflexivity|]. simpl.
    apply Forall_cons in Htail as [Ht _].
    destruct (Z.eqb_spec t 0xFEFF); [contradiction | reflexivity].
  - simpl in Hbom, Hwf. apply andb_true_iff in Hwf as [Hu Hwf]. simpl.
    destruct (TextCodec.is_high_surrogate c) eqn:Hc.
    + destruct s as [|d s]; [discriminate|].
      apply andb_true_iff in Hwf as [Hd _]. rewrite Hd. simpl.
      surrogates. zcases. reflexivity.
    + apply andb_true_iff in Hwf as [Hl _]. apply negb_true_iff in Hl.
      rewrite Hl. simpl. rewrite Hbom. reflexivity.
Qed.

(** Decoding the encoding of a text followed by [k] zero bytes gives the
    text followed by [k] U+0000 characters. *)
Lemma decode_encode_padded (s : list Z) (k : nat) :
  TextCodec.well_formed s = true -> TextCodec.starts_with_bom s = false ->
  TextCodec.decode (TextCodec.encode s ++ replicate k 0) = s ++ replicate k 0.
Proof.
  intros Hwf Hbom. unfold TextCodec.decode, TextCodec.encode.
  rewrite decode_encoded_list by now apply scalar_values_scalar.
  rewrite decode_zeros.
  rewrite strip_bom_scalar_values; try assumption.
  - rewrite flat_map_app, units_of_scalar_values by assumption. f_equal.
    clear. induction k as [|k IH]; simpl; [reflexivity|]. now rewrite IH.
  - destruct k; simpl; repeat constructor. lia.
Qed.

Lemma decode_encode (s : list Z) :
  TextCodec.well_formed s = true -> TextCodec.starts_with_bom s = false ->
  TextCodec.decode (TextCodec.encode s) = s.
Proof.
  intros Hwf Hbom. pose proof (decode_encode_padded s 0 Hwf Hbom) as H.
  simpl in H. now rewrite !app_nil_r in H.
Qed.

Lemma encode_nonzero (s : list Z) :
  TextCodec.well_formed s = true -> no_nul s = true ->
  Forall (fun b => b <> 0) (TextCodec.encode s).
Proof.
  intros Hwf0. unfold TextCodec.encode. pattern s.
  apply well_formed_ind; [| | |exact Hwf0]; clear s Hwf0;
    [|intros c s Hu Hh Hl Hwf IH|intros c d s Hc Hd Hwf IH]; intros Hnn; simpl in *.
  - constructor.
  - rewrite Hh, Hl. simpl. apply andb_true_iff in Hnn as [Hc0 Hnn].
    apply negb_true_iff, Z.eqb_neq in Hc0.
    apply Forall_app. split; [|now apply IH].
    apply utf8_bytes_nonzero; [|exact Hc0].
    apply scalar_range. surrogates. lia.
  - rewrite Hc, Hd. simpl. apply andb_true_iff in Hnn as [_ Hnn].
    apply andb_true_iff in Hnn as [_ Hnn].
    apply Forall_app. split; [|now apply IH].
    apply utf8_bytes_nonzero; [apply scalar_range|]; surrogates; lia.
Qed.

Lemma lead_nonzero (b : Z) :
  b <> 0 ->
  Forall (fun c => c <> 0) (fst (TextCodec.lead b)) /\ open_ok (snd (TextCodec.lead b)).
Proof.
  intros Hb. unfold TextCodec.lead, TextCodec.between, open_ok.
  rewrite land_1F, land_0F, land_07.
  destruct (Z.leb_spec 0 b), (Z.leb_spec b 127), (Z.leb_spec 194 b),
    (Z.leb_spec b 223), (Z.leb_spec 224 b), (Z.leb_spec b 239),
    (Z.leb_spec 240 b), (Z.leb_spec b 244); try lia; cbn [andb fst snd
      TextCodec.bytes_needed TextCodec.upper TextCodec.lower TextCodec.code_point
      TextCodec.dinit];
    (split; [repeat constructor; lia|]); try (left; reflexivity); right.
  all: zcases; split; try lia; try (left; divmod); try (right; lia).
Qed.

Lemma handler_nonzero (st : TextCodec.dstate) (b : Z) :
  open_ok st -> b <> 0 ->
  Forall (fun c => c <> 0) (fst (TextCodec.handler st b)) /\
  open_ok (snd (TextCodec.handler st b)).
Proof.
  intros Hst Hb. unfold TextCodec.handler.
  destruct (Z.eqb_spec (TextCodec.bytes_needed st) 0) as [Hn|Hn].
  - now apply lead_nonzero.
  - destruct Hst as [Hst|(Hup & Hcp)]; [contradiction|].
    destruct (lead_nonzero b Hb) as [Hout Hopen].
    unfold TextCodec.between.
    destruct (Z.leb_spec (TextCodec.lower st) b), (Z.leb_spec b (TextCodec.upper st));
      cbn [andb negb].
    2-4: destruct (TextCodec.lead b) as [out st']; simpl in *;
         (split; [constructor; [lia | exact Hout] | exact Hopen]).
    rewrite accumulate.
    assert (Hne : TextCodec.code_point st * 64 + b mod 64 <> 0)
      by (destruct Hcp; divmod).
    destruct (TextCodec.bytes_seen st + 1 =? TextCodec.bytes_needed st); simpl.
    + split; [repeat constructor; exact Hne | left; reflexivity].
    + split; [constructor|]. right. simpl. split; [lia | now left].
Qed.

Lemma utf8_decode_nonzero (st : TextCodec.dstate) (bs : list Z) :
  open_ok st -> Forall (fun b => b <> 0) bs ->
  Forall (fun c => c <> 0) (TextCodec.utf8_decode st bs).
Proof.
  intros Hst Hbs. revert st Hst.
  induction Hbs as [|b bs Hb _ IH]; intros st Hst; simpl.
  - destruct (TextCodec.bytes_needed st =? 0); repeat constructor. lia.
  - destruct (handler_nonzero st b Hst Hb) as [Hout Hopen].
    destruct (TextCodec.handler st b) as [out st']. simpl in *.
    apply Forall_app. split; [exact Hout | now apply IH].
Qed.

Lemma decode_nonzero (bs : list Z) :
  Forall (fun b => b <> 0) bs -> Forall (fun c => c <> 0) (TextCodec.decode bs).
Proof.
  intros Hbs. unfold TextCodec.decode.
  assert (Hcps : Forall (fun c => c <> 0)
                   (TextCodec.strip_bom (TextCodec.utf8_decode TextCodec.dinit bs))).
  { pose proof (utf8_decode_nonzero TextCodec.dinit bs (or_introl eq_refl) Hbs) as H.
    destruct H as [|c cps Hc H]; simpl; [constructor|].
    destruct (c =? 0xFEFF); [exact H | now constructor]. }
  induction Hcps as [|c cps Hc _ IH]; simpl; [constructor|].
  apply Forall_app. split; [|exact IH].
  unfold TextCodec.utf16_units. zcases; repeat constructor; divmod.
Qed.

(** ** Writing into a buffer whose tail is still zero *)

Lemma is_byteb_ok (bs : list Z) : forallb is_byteb bs = true <-> bytes_ok bs.
Proof.
  unfold bytes_ok. rewrite forallb_forall, List.Forall_forall.
  split; intros H b Hb; specialize (H b Hb); unfold is_byteb, is_byte in *.
  - apply andb_true_iff in H as [H1 H2]. apply Z.leb_le in H1. apply Z.ltb_lt in H2. lia.
  - apply andb_true_iff. rewrite Z.leb_le, Z.ltb_lt. lia.
Qed.

Lemma byte_digits (b : Z) : is_byte b -> rev (le_bytes 1 (b mod 2 ^ (8 * Z.of_nat 1))) = [b].
Proof.
  intros Hb. unfold is_byte in Hb. cbn [le_bytes rev app].
  change (2 ^ (8 * Z.of_nat 1)) with 256.
  rewrite Z.mod_mod by lia. rewrite Z.mod_small by lia. reflexivity.
Qed.

Lemma zlen_app (xs ys : list Z) : zlen (xs ++ ys) = zlen xs + zlen ys.
Proof. unfold zlen. rewrite length_app. lia. Qed.

Lemma zlen_nonneg (xs : list Z) : 0 <= zlen xs.
Proof. unfold zlen. lia. Qed.

Lemma zlen_zeros (n : Z) : 0 <= n -> zlen (zeros n) = n.
Proof. intros Hn. unfold zlen. rewrite zeros_length. lia. Qed.

Lemma set_in_middle (pre old post new : list Z) (idx : Z) (le : bool) (w : nat) (v : Z) :
  idx = zlen pre -> length old = w ->
  new = (if le then le_bytes w (v mod 2 ^ (8 * Z.of_nat w))
         else rev (le_bytes w (v mod 2 ^ (8 * Z.of_nat w)))) ->
  DataView.SetViewValue (whole (pre ++ old ++ post)) idx le w (Ok v)
  = Ok (whole (pre ++ new ++ post)).
Proof.
  intros -> Hold ->. unfold whole.
  rewrite SetViewValue_in; cbn [DataView.byteLength DataView.byteOffset DataView.buffer].
  - assert (Hlen : length (if le then le_bytes w (v mod 2 ^ (8 * Z.of_nat w))
                     else rev (le_bytes w (v mod 2 ^ (8 * Z.of_nat w)))) = length old).
    { rewrite order_length, le_bytes_length. now symmetry. }
    rewrite splice_middle by (unfold zlen; lia || exact Hlen).
    unfold whole. do 2 f_equal. rewrite !zlen_app. unfold zlen. lia.
  - apply zlen_nonneg.
  - rewrite !zlen_app. pose proof (zlen_nonneg post). unfold zlen in *. lia.
Qed.

Lemma setUint8_in_middle (pre post : list Z) (o b idx : Z) :
  idx = zlen pre -> is_byte b ->
  DataView.setUint8 (whole (pre ++ o :: post)) idx (VNumber b)
  = Ok (whole (pre ++ b :: post)).
Proof.
  intros Hidx Hb. unfold DataView.setUint8. cbn [DataView.ToNumber].
  apply (set_in_middle pre [o] post [b] idx false 1 b Hidx eq_refl).
  symmetry. now apply byte_digits.
Qed.

Lemma store_loop_middle (bs : list Z) :
  bytes_ok bs ->
  forall pre old post offset i,
    offset + i = zlen pre -> length old = length bs ->
    FieldTypes.store_loop (whole (pre ++ old ++ post)) offset i bs
    = Ok (whole (pre ++ bs ++ post)).
Proof.
  induction 1 as [|b bs Hb _ IH]; intros pre old post offset i Hi Hlen.
  - destruct old; [reflexivity | discriminate].
  - destruct old as [|o old]; [discriminate|]. injection Hlen as Hlen.
    cbn [FieldTypes.store_loop app].
    rewrite (setUint8_in_middle pre (old ++ post) o b) by assumption.
    cbn [obind].
    specialize (IH (pre ++ [b]) old post offset (i + 1)).
    rewrite <- !app_assoc in IH. cbn [app] in IH. apply IH; [|exact Hlen].
    rewrite zlen_app. unfold zlen at 2. simpl. lia.
Qed.

Lemma elements_length (content : list Z) (i n : nat) : length (elements content i n) = n.
Proof. revert i. induction n as [|n IH]; intros i; simpl; [reflexivity|]. now rewrite IH. Qed.

Lemma elements_bytes_ok (content : list Z) (i n : nat) :
  bytes_ok content -> bytes_ok (elements content i n).
Proof.
  intros Hc. revert i. induction n as [|n IH]; intros i; simpl; constructor.
  - destruct (nth_in_or_default i content 0) as [Hin| ->].
    + unfold bytes_ok in Hc. rewrite List.Forall_forall in Hc. now apply Hc.
    + unfold is_byte. lia.
  - apply IH.
Qed.

Lemma elements_exact (content : list Z) :
  elements content 0 (length content) = content.
Proof.
  enough (H : forall pre, elements (pre ++ content) (length pre) (length content) = content)
    by apply (H []).
  induction content as [|c content IH]; intros pre; simpl; [reflexivity|].
  f_equal.
  - rewrite app_nth2 by lia. now rewrite Nat.sub_diag.
  - specialize (IH (pre ++ [c])). rewrite <- app_assoc, length_app in IH. simpl in IH.
    now rewrite Nat.add_1_r in IH.
Qed.

Lemma write_elements_middle (h : Heap) (l : loc) (content : list Z) (n : nat) :
  h !! l = Some content -> bytes_ok content ->
  forall pre old post offset i,
    0 <= i -> offset + i = zlen pre -> length old = n ->
    FieldTypes.write_elements h (whole (pre ++ old ++ post)) offset (VBytes l) i n
    = Ok (whole (pre ++ elements content (Z.to_nat i) n ++ post)).
Proof.
  intros Hl Hc. induction n as [|n IH]; intros pre old post offset i Hi0 Hi Hlen.
  - destruct old; [reflexivity | discriminate].
  - destruct old as [|o old]; [discriminate|]. injection Hlen as Hlen.
    cbn [FieldTypes.write_elements FieldTypes.element_or_zero elements app].
    rewrite Hl. cbn [obind].
    rewrite (setUint8_in_middle pre (old ++ post) o) by
      (try assumption; pose proof (elements_bytes_ok content (Z.to_nat i) 1 Hc) as He;
       simpl in He; now apply Forall_cons in He as [He _]).
    cbn [obind].
    specialize (IH (pre ++ [nth (Z.to_nat i) content 0]) old post offset (i + 1)).
    rewrite <- !app_assoc in IH. cbn [app] in IH.
    replace (Z.to_nat (i + 1)) with (S (Z.to_nat i)) in IH by lia.
    apply IH; [lia | | exact Hlen].
    rewrite zlen_app. unfold zlen at 2. simpl. lia.
Qed.

(** ** What each built-in type writes into its slot *)

Lemma units_scalar (s : list Z) :
  units_ok s = true -> forallb scalar (TextCodec.to_scalar_values s) = true.
Proof.
  remember (length s) as n eqn:Hn. revert s Hn.
  induction n as [n IH] using lt_wf_ind. intros s Hn Hu.
  destruct s as [|c s]; [reflexivity|].
  simpl in Hu. apply andb_true_iff in Hu as [Hc Hu]. simpl in Hn.
  assert (Hfffd : scalar 0xFFFD = true) by reflexivity.
  assert (Hs : forallb scalar (TextCodec.to_scalar_values s) = true)
    by (apply (IH (length s)); [lia | reflexivity | exact Hu]).
  cbn [TextCodec.to_scalar_values].
  destruct (TextCodec.is_high_surrogate c) eqn:Hh.
  - destruct s as [|d s]; [reflexivity|].
    destruct (TextCodec.is_low_surrogate d) eqn:Hl.
    + simpl in Hu. apply andb_true_iff in Hu as [Hd Hu]. simpl.
      rewrite (IH (length s)); [|simpl in Hn; lia | reflexivity | exact Hu].
      rewrite andb_true_r. apply scalar_range. surrogates. lia.
    + cbn [forallb]. now rewrite Hfffd, Hs.
  - destruct (TextCodec.is_low_surrogate c) eqn:Hl; cbn [forallb]; rewrite Hs.
    + now rewrite Hfffd.
    + rewrite andb_true_r. apply scalar_range. surrogates. lia.
Qed.

Lemma encode_units_ok (s : list Z) : units_ok s = true -> bytes_ok (TextCodec.encode s).
Proof.
  intros Hu. apply units_scalar in Hu. unfold TextCodec.encode.
  induction (TextCodec.to_scalar_values s) as [|cp cps IH]; simpl in *.
  - constructor.
  - apply andb_true_iff in Hu as [Hcp Hu].
    apply Forall_app. split; [now apply utf8_bytes_ok | now apply IH].
Qed.

Lemma digits_length (le : bool) (w : nat) (z : Z) : length (digits le w z) = w.
Proof. unfold digits. rewrite order_length. apply le_bytes_length. Qed.

Lemma zeros_split (a k : Z) : 0 <= a <= k -> zeros k = zeros a ++ zeros (k - a).
Proof. intros H. rewrite <- zeros_add by lia. f_equal. lia. Qed.

Lemma text_of_bytes_ok (v : Value) (e : list Z) : text_of v = Some e -> bytes_ok e.
Proof.
  destruct v; simpl; try discriminate.
  - intros [= <-]. constructor.
  - destruct (units_ok s) eqn:Hu; [|discriminate].
    intros [= <-]. now apply encode_units_ok.
Qed.

Lemma encode_input_text (v : Value) (e : list Z) :
  text_of v = Some e -> FieldTypes.encode_input v = Ok e.
Proof.
  destruct v; simpl; try discriminate.
  - now intros [= <-].
  - destruct (units_ok s); [|discriminate]. now intros [= <-].
Qed.

Lemma take_zlen (e : list Z) (m : Z) :
  0 <= m <= zlen e -> zlen (take (Z.to_nat m) e) = m.
Proof. intros H. unfold zlen in *. rewrite length_take. lia. Qed.

Lemma int_write_slot (pre : list Z) (k : Z) (le : bool) (w : nat) (conv : outcome Z)
    (z : Z) (h : Heap) :
  conv = Ok z -> Z.of_nat w <= k ->
  lift (DataView.SetViewValue (whole (pre ++ zeros k)) (zlen pre) le w conv) h
  = Ok (whole (pre ++ digits le w z ++ zeros (k - Z.of_nat w)), h).
Proof.
  intros -> Hk. rewrite (zeros_split (Z.of_nat w) k) by lia.
  erewrite set_in_middle; [reflexivity | reflexivity | | reflexivity].
  rewrite zeros_length. lia.
Qed.

Lemma number_of_ToNumber (v : Value) (z : Z) :
  number_of v = Some z -> DataView.ToNumber v = Ok z.
Proof. destruct v; simpl; try discriminate; now intros [= <-]. Qed.

Lemma bigint_of_ToBigInt (v : Value) (z : Z) :
  bigint_of v = Some z -> DataView.ToBigInt v = Ok z.
Proof. destruct v; simpl; try discriminate; now intros [= <-]. Qed.

Lemma some_eq {A} (x y : A) : Some x = Some y -> x = y.
Proof. congruence. Qed.

Lemma write_slot (b : Builtin) (le : bool) (h : Heap) (v : Value)
    (slot pre : list Z) (k : Z) :
  valid_size b = true -> encode_slot b le h v = Some slot ->
  size (field_of b) <= k ->
  write (field_of b) (whole (pre ++ zeros k)) (zlen pre) v le h
    = Ok (whole (pre ++ slot ++ zeros (k - size (field_of b))), h)
  /\ zlen slot = size (field_of b).
Proof.
  intros Hv He Hk.
  destruct b; cbn [valid_size] in Hv; cbn [encode_slot] in He; simpl in Hk; cbn [field_of write size
    FieldTypes.bytes FieldTypes.uint8 FieldTypes.uint16 FieldTypes.uint32
    FieldTypes.uint64 FieldTypes.int8 FieldTypes.int16 FieldTypes.int32
    FieldTypes.int64 FieldTypes.cstring FieldTypes.string].
  - (* bytes *)
    apply Z.leb_le in Hv.
    assert (Hcases : (v = VUndefined /\ length = 0 /\ slot = []) \/
              (exists l content, v = VBytes l /\ h !! l = Some content /\
                 bytes_ok content /\ slot = elements content 0 (Z.to_nat length))).
    { destruct v; cbn [array_of option_map] in He; try discriminate.
      - left. destruct (Z.leb_spec length 0); [|discriminate].
        injection He as <-. repeat split. lia.
      - right. destruct (h !! l) as [content|] eqn:Hl; [|discriminate].
        destruct (forallb is_byteb content) eqn:Hc; [|discriminate].
        cbn [option_map] in He. apply some_eq in He. subst slot. exists l, content. repeat split; try assumption.
        now apply is_byteb_ok. }
    destruct Hcases as [(-> & -> & ->)|(l & content & -> & Hl & Hc & ->)].
    + simpl. rewrite Z.sub_0_r. split; reflexivity.
    + rewrite (zeros_split length k) by lia.
      rewrite (write_elements_middle h l content (Z.to_nat length) Hl Hc
                 pre (zeros length) _ (zlen pre) 0);
        [|lia|lia|apply zeros_length].
      split; [reflexivity|]. unfold zlen. rewrite elements_length. lia.
  - destruct (number_of v) as [z|] eqn:Hz; [|discriminate]. cbn [option_map] in He. apply some_eq in He. subst slot.
    unfold DataView.setUint8. split; [|reflexivity].
    apply int_write_slot; [now apply number_of_ToNumber | exact Hk].
  - destruct (number_of v) as [z|] eqn:Hz; [|discriminate]. cbn [option_map] in He. apply some_eq in He. subst slot.
    unfold DataView.setUint16. split; [|unfold zlen; rewrite digits_length; reflexivity].
    apply int_write_slot; [now apply number_of_ToNumber | exact Hk].
  - destruct (number_of v) as [z|] eqn:Hz; [|discriminate]. cbn [option_map] in He. apply some_eq in He. subst slot.
    unfold DataView.setUint32. split; [|unfold zlen; rewrite digits_length; reflexivity].
    apply int_write_slot; [now apply number_of_ToNumber | exact Hk].
  - destruct (bigint_of v) as [z|] eqn:Hz; [|discriminate]. cbn [option_map] in He. apply some_eq in He. subst slot.
    unfold DataView.setBigUint64. split; [|unfold zlen; rewrite digits_length; reflexivity].
    apply int_write_slot; [now apply bigint_of_ToBigInt | exact Hk].
  - destruct (number_of v) as [z|] eqn:Hz; [|discriminate]. cbn [option_map] in He. apply some_eq in He. subst slot.
    unfold DataView.setInt8. split; [|reflexivity].
    apply int_write_slot; [now apply number_of_ToNumber | exact Hk].
  - destruct (number_of v) as [z|] eqn:Hz; [|discriminate]. cbn [option_map] in He. apply some_eq in He. subst slot.
    unfold DataView.setInt16. split; [|unfold zlen; rewrite digits_length; reflexivity].
    apply int_write_slot; [now apply number_of_ToNumber | exact Hk].
  - destruct (number_of v) as [z|] eqn:Hz; [|discriminate]. cbn [option_map] in He. apply some_eq in He. subst slot.
    unfold DataView.setInt32. split; [|unfold zlen; rewrite digits_length; reflexivity].
    apply int_write_slot; [now apply number_of_ToNumber | exact Hk].
  - destruct (bigint_of v) as [z|] eqn:Hz; [|discriminate]. cbn [option_map] in He. apply some_eq in He. subst slot.
    unfold DataView.setBigInt64. split; [|unfold zlen; rewrite digits_length; reflexivity].
    apply int_write_slot; [now apply bigint_of_ToBigInt | exact Hk].
  - (* cstring *)
    apply Z.leb_le in Hv.
    destruct (text_of v) as [e|] eqn:Ht; [|discriminate]. cbn [option_map] in He. apply some_eq in He. subst slot.
    rewrite (encode_input_text v e Ht). cbn [obind].
    fold (zlen e). set (len := Z.min (zlen e) (maxLength - 1)).
    pose proof (zlen_nonneg e) as He0.
    assert (Hlen : 0 <= len <= zlen e /\ len <= maxLength - 1) by (unfold len; lia).
    assert (Hok : bytes_ok (take (Z.to_nat len) e)).
    { apply Forall_take. now apply (text_of_bytes_ok v). }
    assert (Htl : zlen (take (Z.to_nat len) e) = len) by (apply take_zlen; lia).
    rewrite (zeros_split len k) by lia.
    rewrite (store_loop_middle _ Hok pre (zeros len) (zeros (k - len)) (zlen pre) 0);
      [|lia| rewrite zeros_length; unfold zlen in Htl; lia].
    cbn [obind].
    rewrite (zeros_succ (k - len)) by lia.
    rewrite app_assoc.
    rewrite (setUint8_in_middle (pre ++ take (Z.to_nat len) e) _ 0 0);
      [|rewrite zlen_app; lia | unfold is_byte; lia].
    split.
    + simpl. do 3 f_equal. rewrite <- !app_assoc. do 2 f_equal.
      rewrite (zeros_succ (maxLength - len)) by lia. simpl. f_equal.
      rewrite <- zeros_add by lia. f_equal. lia.
    + rewrite zlen_app, Htl, zlen_zeros by lia. lia.
  - (* string *)
    apply Z.leb_le in Hv.
    destruct (text_of v) as [e|] eqn:Ht; [|discriminate]. cbn [option_map] in He. apply some_eq in He. subst slot.
    rewrite (encode_input_text v e Ht). cbn [obind].
    fold (zlen e). set (m := Z.min (zlen e) length).
    pose proof (zlen_nonneg e) as He0.
    assert (Hm : 0 <= m <= zlen e /\ m <= length) by (unfold m; lia).
    assert (Hok : bytes_ok (take (Z.to_nat m) e)).
    { apply Forall_take. now apply (text_of_bytes_ok v). }
    assert (Htl : zlen (take (Z.to_nat m) e) = m) by (apply take_zlen; lia).
    rewrite (zeros_split m k) by lia.
    rewrite (store_loop_middle _ Hok pre (zeros m) (zeros (k - m)) (zlen pre) 0);
      [|lia| rewrite zeros_length; unfold zlen in Htl; lia].
    cbn [obind].
    rewrite (zeros_split (length - m) (k - m)) by lia.
    rewrite app_assoc.
    rewrite (store_loop_middle _ (zeros_bytes_ok (length - m))
               (pre ++ take (Z.to_nat m) e) (zeros (length - m)) _ (zlen pre) m);
      [|rewrite zlen_app; lia | reflexivity].
    split.
    + simpl. do 3 f_equal. rewrite <- !app_assoc. do 4 f_equal. lia.
    + rewrite zlen_app, Htl, zlen_zeros by lia. lia.
Qed.

(** ** [to]: the buffer is the concatenation of the slots *)

Lemma valid_size_nonneg (b : Builtin) : valid_size b = true -> 0 <= size (field_of b).
Proof. destruct b; simpl; intros H; try lia; apply Z.leb_le in H; lia. Qed.

Lemma sizes_sum_nonneg (decl : list (string * Builtin)) :
  forallb valid_size (map snd decl) = true -> 0 <= sizes_sum (builtin_fields decl).
Proof.
  induction decl as [|[k b] decl IH]; simpl; [lia|].
  intros H. apply andb_true_iff in H as [Hb H].
  apply valid_size_nonneg in Hb. specialize (IH H). lia.
Qed.

Lemma whole_zeros (n : Z) : 0 <= n -> DataView.mk (zeros n) 0 n = whole ([] ++ zeros n).
Proof. intros Hn. unfold whole. simpl. now rewrite zlen_zeros. Qed.

Lemma write_fields_spec (sd : Struct) (values : JsObject) (h : Heap)
    (decl : list (string * Builtin)) :
  forallb valid_size (map snd decl) = true ->
  forall pre k bs,
    laid_out (fieldOffsets sd) (zlen pre) (builtin_fields decl) ->
    encode_record decl (littleEndian sd) h values = Some bs ->
    sizes_sum (builtin_fields decl) <= k ->
    write_fields sd (whole (pre ++ zeros k)) values (builtin_fields decl) h
      = Ok (whole (pre ++ bs ++ zeros (k - sizes_sum (builtin_fields decl))), h)
    /\ zlen bs = sizes_sum (builtin_fields decl).
Proof.
  induction decl as [|[name b] decl IH]; intros Hvalid pre k bs Hlay Henc Hk.
  - simpl in *. injection Henc as <-. rewrite Z.sub_0_r. split; reflexivity.
  - simpl in Hvalid. apply andb_true_iff in Hvalid as [Hb Hvalid].
    cbn [builtin_fields map fst snd laid_out] in Hlay. destruct Hlay as [Hoff Hlay].
    cbn [encode_record] in Henc.
    destruct (encode_slot b (littleEndian sd) h (obj_get values name)) as [slot|] eqn:Hslot;
      [|discriminate].
    destruct (encode_record decl (littleEndian sd) h values) as [tail|] eqn:Htail;
      [|discriminate].
    apply some_eq in Henc. subst bs.
    pose proof (sizes_sum_nonneg decl Hvalid) as Hrest.
    cbn [builtin_fields map fst snd sizes_sum fold_right] in Hk |- *.
    fold (builtin_fields decl) in *. fold (sizes_sum (builtin_fields decl)) in *.
    destruct (write_slot b (littleEndian sd) h (obj_get values name) slot pre k Hb Hslot)
      as [Hw Hlen]; [lia|].
    cbn [write_fields]. rewrite Hoff. unfold bind at 1. rewrite Hw.
    rewrite app_assoc.
    destruct (IH Hvalid (pre ++ slot) (k - size (field_of b)) tail) as [Hrec Htl];
      [rewrite zlen_app, Hlen; exact Hlay | reflexivity | lia |].
    rewrite Hrec. split.
    + do 3 f_equal. rewrite <- !app_assoc. do 4 f_equal. lia.
    + rewrite zlen_app. lia.
Qed.

Lemma struct_members (n : string) (fs : Fields) (options : StructOptions) (sd : Struct) :
  struct n fs options = Ok sd ->
  name sd = n /\ fields sd = fs /\ struct_size sd = sizes_sum fs /\
  totalSize sd = sizes_sum fs /\ fieldOffsets sd = snd (layout fs) /\
  littleEndian sd = default false (opt_littleEndian options).
Proof.
  rewrite struct_unfold. intros [= <-]. cbn. rewrite layout_size. repeat split.
Qed.

Lemma to_allocates (sd : Struct) :
  0 <= totalSize sd <= max_byte_length ->
  (totalSize sd <? 0) || (max_byte_length <? totalSize sd) = false.
Proof.
  intros H. apply orb_false_iff. split; apply Z.ltb_ge; lia.
Qed.

(** [to] on a struct of built-in fields returns the concatenation of the
    slots of its fields and leaves the heap as it was. *)
Lemma to_spec (n : string) (decl : list (string * Builtin)) (options : StructOptions)
    (sd : Struct) (values : JsObject) (h : Heap) (bs : list Z) :
  struct n (builtin_fields decl) options = Ok sd ->
  distinct (names (builtin_fields decl)) = true ->
  forallb valid_size (map snd decl) = true ->
  struct_size sd <= max_byte_length ->
  encode_record decl (littleEndian sd) h values = Some bs ->
  to sd values h = Ok (bs, h) /\ zlen bs = struct_size sd.
Proof.
  intros Hs Hd Hvalid Hmax Henc.
  destruct (struct_members _ _ _ _ Hs) as (_ & Hf & Hsz & Htot & Hoff & _).
  pose proof (sizes_sum_nonneg decl Hvalid) as Hnn.
  unfold to. rewrite to_allocates by lia. rewrite Htot, Hf, Hsz.
  rewrite whole_zeros by lia.
  destruct (write_fields_spec sd values h decl Hvalid [] (sizes_sum (builtin_fields decl)) bs)
    as [Hw Hlen].
  - rewrite Hoff. apply layout_laid_out. exact Hd.
  - exact Henc.
  - lia.
  - unfold bind. rewrite Hw. unfold ret. simpl.
    rewrite Z.sub_diag. unfold zeros. simpl. rewrite app_nil_r.
    split; [reflexivity | exact Hlen].
Qed.

(** ** [to] and missing keys *)

Lemma typed_or_missing_encodes (b : Builtin) (le : bool) (h : Heap) (v : Value) :
  typed_or_missing b h v = true -> exists slot, encode_slot b le h v = Some slot.
Proof.
  unfold typed_or_missing. intros H. apply orb_true_iff in H as [H|H].
  - destruct b, v; simpl in H; try discriminate; cbn [encode_slot number_of
      bigint_of text_of array_of option_map]; try rewrite H; try (eexists; reflexivity).
    destruct (h !! l) as [content|]; [|discriminate]. rewrite H. eexists; reflexivity.
  - apply andb_true_iff in H as [Hl Hv]. destruct v; try discriminate.
    destruct b; simpl in Hl; try discriminate; cbn [encode_slot number_of text_of
      option_map]; try rewrite Hl; eexists; reflexivity.
Qed.

Lemma encode_record_total (decl : list (string * Builtin)) (le : bool) (h : Heap)
    (values : JsObject) :
  (forall k b, In (k, b) decl -> typed_or_missing b h (obj_get values k) = true) ->
  exists bs, encode_record decl le h values = Some bs.
Proof.
  induction decl as [|[k b] decl IH]; intros H; simpl.
  - eexists; reflexivity.
  - destruct (typed_or_missing_encodes b le h (obj_get values k)) as [slot ->].
    { apply H. now left. }
    destruct IH as [tail ->]; [intros; apply H; now right|].
    eexists; reflexivity.
Qed.

Lemma write_fields_app (sd : Struct) (values : JsObject) (fs1 fs2 : Fields) :
  forall dv h,
    write_fields sd dv values (fs1 ++ fs2) h =
    match write_fields sd dv values fs1 h with
    | Ok (dv', h') => write_fields sd dv' values fs2 h'
    | Throw e => Throw e
    | Unmodelled => Unmodelled
    end.
Proof.
  induction fs1 as [|[k ft] fs1 IH]; intros dv h; simpl.
  - reflexivity.
  - destruct (offsets_get (fieldOffsets sd) k); [|reflexivity].
    unfold bind. destruct (write ft dv z (obj_get values k) (littleEndian sd) h)
      as [[dv' h']| |]; [apply IH | reflexivity..].
Qed.

Lemma laid_out_app (o : list (string * Z)) (fs1 fs2 : Fields) (start : Z) :
  laid_out o start (fs1 ++ fs2) ->
  laid_out o start fs1 /\ laid_out o (start + sizes_sum fs1) fs2.
Proof.
  revert start. induction fs1 as [|[k ft] fs1 IH]; intros start H; simpl in *.
  - rewrite Z.add_0_r. tauto.
  - destruct H as [Hk H]. destruct (IH _ H) as [H1 H2].
    repeat split; try assumption. now rewrite Z.add_assoc.
Qed.

Lemma builtin_fields_app (d1 d2 : list (string * Builtin)) :
  builtin_fields (d1 ++ d2) = builtin_fields d1 ++ builtin_fields d2.
Proof. apply map_app. Qed.

Lemma missing_strict_throws (b : Builtin) (dv : DataView.t) (off : Z) (le : bool) (h : Heap) :
  valid_size b = true -> lenient b = false -> 0 <= off ->
  write (field_of b) dv off VUndefined le h = Throw TypeError.
Proof.
  intros Hv Hl Hoff. destruct b; simpl in Hl; try discriminate.
  - apply Z.leb_gt in Hl. simpl.
    destruct (Z.to_nat length) eqn:Hn; [lia|]. reflexivity.
  - simpl. unfold DataView.setBigUint64, DataView.SetViewValue. zcases; reflexivity.
  - simpl. unfold DataView.setBigInt64, DataView.SetViewValue. zcases; reflexivity.
Qed.

(** C3 (as the code has it). [to] checks no key at entry; each field's
    encoder receives [values[fieldName]].  For a struct of built-in fields
    with valid sizes whose names are not [__proto__] and whose size the
    platform can allocate: when every declared key holds a value of its
    field's type, [to] succeeds with exactly [size] bytes, and it still
    does when keys of 1/2/4-byte integer or text fields are missing, that
    is when [values[fieldName]] is [undefined] (they encode as 0 and as the
    empty text).  The first missing key of a 64-bit integer or non-empty
    byte-array field makes its encoder throw a TypeError, after the fields
    before it were written (before it in the order of [Object.entries],
    which is the order of declaration when no name is an array index).  A size above 2^53 - 1 makes [to] throw a
    RangeError whatever the values are. *)
Theorem to_checks_no_key (n : string) (decl : list (string * Builtin))
    (options : StructOptions) (sd : Struct) (values : JsObject) (h : Heap) :
  struct n (builtin_fields decl) options = Ok sd ->
  distinct (names (builtin_fields decl)) = true ->
  proto_free (map fst decl) = true ->
  forallb valid_size (map snd decl) = true ->
  (struct_size sd <= max_byte_length ->
   (forall k b, In (k, b) decl -> typed_or_missing b h (obj_get values k) = true) ->
   exists buf, to sd values h = Ok (buf, h) /\ zlen buf = struct_size sd) /\
  (struct_size sd <= max_byte_length ->
   index_free (map fst decl) = true ->
   forall pre k b post,
     decl = pre ++ (k, b) :: post ->
     (forall k' b', In (k', b') pre -> typed_or_missing b' h (obj_get values k') = true) ->
     obj_get values k = VUndefined -> lenient b = false ->
     to sd values h = Throw TypeError) /\
  (max_byte_length < struct_size sd -> to sd values h = Throw RangeError).
Proof.
  intros Hs Hd _ Hvalid.
  destruct (struct_members _ _ _ _ Hs) as (_ & Hf & Hsz & Htot & Hoff & _).
  pose proof (sizes_sum_nonneg decl Hvalid) as Hnn.
  split; [|split].
  - intros Hmax Hall.
    destruct (encode_record_total decl (littleEndian sd) h values Hall) as [bs Hbs].
    exists bs. now apply (to_spec n decl options).
  - intros Hmax _ pre k b post Hdecl Hpre Hk Hstrict.
    pose proof (layout_laid_out _ Hd) as Hlay. rewrite <- Hoff in Hlay.
    unfold to. rewrite to_allocates by lia. rewrite Htot, Hf.
    rewrite whole_zeros by lia.
    subst decl. rewrite builtin_fields_app in *.
    rewrite map_app, forallb_app in Hvalid. apply andb_true_iff in Hvalid as [Hv1 Hv2].
    simpl in Hv2. apply andb_true_iff in Hv2 as [Hvb Hv2].
    apply laid_out_app in Hlay as [Hlay1 Hlay2].
    destruct (encode_record_total pre (littleEndian sd) h values Hpre) as [bs Hbs].
    rewrite sizes_sum_app in *.
    pose proof (sizes_sum_nonneg pre Hv1).
    pose proof (sizes_sum_nonneg ((k, b) :: post)
                  ltac:(simpl; now rewrite Hvb, Hv2)) as Hpost.
    destruct (write_fields_spec sd values h pre Hv1 []
                (sizes_sum (builtin_fields pre) + sizes_sum (builtin_fields ((k, b) :: post)))
                bs Hlay1 Hbs) as [Hw Hlen]; [lia|].
    unfold bind. rewrite write_fields_app, Hw.
    cbn [builtin_fields map fst snd write_fields laid_out] in Hlay2 |- *.
    destruct Hlay2 as [Hoffk _]. rewrite Hoffk, Hk.
    unfold bind. rewrite missing_strict_throws by (assumption || lia). reflexivity.
  - intros Hbig. unfold to.
    replace (max_byte_length <? totalSize sd) with true
      by (symmetry; apply Z.ltb_lt; lia).
    now rewrite orb_true_r.
Qed.

(** C3 as stated fails: a record without the key of a [uint8] field is
    encoded, the missing value as 0. *)
Lemma to_accepts_missing_key :
  exists sd,
    struct "Flags" [("flags"%string, FieldTypes.uint8)] no_opts = Ok sd /\
    obj_has [] "flags" = false /\
    run (to sd []) [] = Ok [0].
Proof. eexists. repeat split. Qed.

Lemma to_checks_no_key_witness :
  exists sd buf,
    struct "Header" (builtin_fields Header_decl) le_opts = Ok sd /\
    to sd Header_data [[65; 66; 67; 68]] = Ok (buf, [[65; 66; 67; 68]]) /\
    zlen buf = struct_size sd.
Proof.
  pose (sd := {| name := "Header"; struct_size := 11;
                 fields := builtin_fields Header_decl; littleEndian := true;
                 totalSize := 11;
                 fieldOffsets := [("magic"%string, 0); ("version"%string, 4);
                                  ("flags"%string, 6); ("count"%string, 7)] |}).
  destruct (to_checks_no_key "Header" Header_decl le_opts sd Header_data
              [[65; 66; 67; 68]] eq_refl eq_refl eq_refl eq_refl) as [Hok _].
  destruct Hok as (buf & Hto & Hlen).
  - unfold max_byte_length. simpl. lia.
  - intros k b Hin. simpl in Hin.
    destruct Hin as [[= <- <-]|[[= <- <-]|[[= <- <-]|[[= <- <-]|[]]]]]; reflexivity.
  - exists sd, buf. repeat split; assumption.
Defined.

(** ** Reading a slot *)

Lemma slice_succ (bs : list Z) (j : Z) :
  0 <= j -> j < zlen bs ->
  exists x, slice bs j 1 = [x] /\
            forall k, slice bs j (Z.of_nat (S k)) = x :: slice bs (j + 1) (Z.of_nat k).
Proof.
  intros Hj Hlt. unfold slice, zlen in *.
  destruct (drop (Z.to_nat j) bs) as [|x rest] eqn:Hd.
  - apply (f_equal length) in Hd. rewrite length_drop in Hd. simpl in Hd. lia.
  - exists x. split; [reflexivity|]. intros k.
    rewrite !Nat2Z.id. simpl. f_equal.
    replace (Z.to_nat (j + 1)) with (S (Z.to_nat j)) by lia.
    rewrite <- (drop_drop bs (Z.to_nat j) 1) || idtac.
    replace (S (Z.to_nat j)) with (Z.to_nat j + 1)%nat by lia.
    rewrite <- drop_drop, Hd. reflexivity.
Qed.

Lemma getUint8_at (dv : DataView.t) (idx : Z) :
  DataView.wf dv -> 0 <= idx -> idx + 1 <= DataView.byteLength dv ->
  exists x, slice (DataView.buffer dv) (DataView.byteOffset dv + idx) 1 = [x] /\
            DataView.getUint8 dv idx = Ok x.
Proof.
  intros (Hbo & Hbl & Hfit) Hidx Hin.
  destruct (slice_succ (DataView.buffer dv) (DataView.byteOffset dv + idx))
    as (x & Hx & _); [lia | unfold zlen; lia |].
  exists x. split; [exact Hx|].
  unfold DataView.getUint8. rewrite GetViewValue_in by (simpl; lia).
  change (Z.of_nat 1) with 1. rewrite Hx. simpl. f_equal. lia.
Qed.

Lemma read_loop_slice (dv : DataView.t) (offset : Z) (n : nat) :
  DataView.wf dv ->
  forall i, 0 <= offset + i -> offset + i + Z.of_nat n <= DataView.byteLength dv ->
  FieldTypes.read_loop dv offset i n
  = Ok (slice (DataView.buffer dv) (DataView.byteOffset dv + offset + i) (Z.of_nat n)).
Proof.
  intros Hwf. induction n as [|n IH]; intros i Hi Hfit.
  - reflexivity.
  - cbn [FieldTypes.read_loop].
    destruct (getUint8_at dv (offset + i) Hwf) as (x & Hx & Hget); [lia..|].
    rewrite Hget. cbn [obind]. rewrite IH by lia. cbn [obind].
    destruct Hwf as (Hbo & Hbl & Hlen).
    destruct (slice_succ (DataView.buffer dv) (DataView.byteOffset dv + offset + i))
      as (y & Hy & Hs); [lia | unfold zlen; lia |].
    rewrite Hs. rewrite Z.add_assoc in Hx. rewrite Hx in Hy. injection Hy as <-.
    do 3 f_equal. lia.
Qed.

Lemma scan_loop_slice (dv : DataView.t) (offset : Z) (n : nat) :
  DataView.wf dv ->
  forall i, 0 <= offset + i -> offset + i + Z.of_nat n <= DataView.byteLength dv ->
  FieldTypes.scan_loop dv offset i n
  = Ok (until_zero (slice (DataView.buffer dv) (DataView.byteOffset dv + offset + i)
                      (Z.of_nat n))).
Proof.
  intros Hwf. induction n as [|n IH]; intros i Hi Hfit.
  - reflexivity.
  - cbn [FieldTypes.scan_loop].
    destruct (getUint8_at dv (offset + i) Hwf) as (x & Hx & Hget); [lia..|].
    rewrite Hget. cbn [obind].
    pose proof Hwf as (Hbo & Hbl & Hlen).
    destruct (slice_succ (DataView.buffer dv) (DataView.byteOffset dv + offset + i))
      as (y & Hy & Hs); [lia | unfold zlen; lia |].
    rewrite Hs. rewrite Z.add_assoc in Hx. rewrite Hx in Hy. injection Hy as <-.
    cbn [until_zero]. destruct (x =? 0); [reflexivity|].
    rewrite IH by lia. cbn [obind]. do 4 f_equal. lia.
Qed.

Lemma until_zero_stop (e rest : list Z) :
  Forall (fun b => b <> 0) e -> until_zero (e ++ 0 :: rest) = e.
Proof.
  induction 1 as [|b e Hb _ IH]; simpl; [reflexivity|].
  destruct (Z.eqb_spec b 0); [contradiction|]. now rewrite IH.
Qed.

Lemma until_zero_all (e : list Z) :
  Forall (fun b => b <> 0) e -> until_zero e = e.
Proof.
  induction 1 as [|b e Hb _ IH]; simpl; [reflexivity|].
  destruct (Z.eqb_spec b 0); [contradiction|]. now rewrite IH.
Qed.

Lemma parse_slot (b : Builtin) (le : bool) (dv : DataView.t) (off : Z) (h : Heap) :
  valid_size b = true -> DataView.wf dv ->
  0 <= off -> off + size (field_of b) <= DataView.byteLength dv ->
  parse (field_of b) dv off le h
  = deliver (decode_slot b le (slice (DataView.buffer dv) (base b dv + off)
                                (size (field_of b)))) h.
Proof.
  intros Hv Hwf Hoff Hfit.
  destruct b; cbn [valid_size] in Hv; simpl in Hfit; cbn [field_of parse size
    FieldTypes.bytes FieldTypes.uint8 FieldTypes.uint16 FieldTypes.uint32
    FieldTypes.uint64 FieldTypes.int8 FieldTypes.int16 FieldTypes.int32
    FieldTypes.int64 FieldTypes.cstring FieldTypes.string decode_slot base deliver];
    unfold DataView.getUint8, DataView.getUint16, DataView.getUint32,
      DataView.getBigUint64, DataView.getInt8, DataView.getInt16,
      DataView.getInt32, DataView.getBigInt64;
    try (rewrite GetViewValue_in by (simpl; lia); reflexivity).
  - apply Z.leb_le in Hv. unfold FieldTypes.check_length.
    destruct (Z.ltb_spec length 0); [lia|].
    rewrite read_loop_slice by (try assumption; lia).
    unfold bind, lift, alloc. simpl. rewrite Z2Nat.id by lia.
    rewrite Z.add_0_r. reflexivity.
  - apply Z.leb_le in Hv. unfold FieldTypes.check_length.
    destruct (Z.ltb_spec maxLength 0); [lia|].
    rewrite scan_loop_slice by (try assumption; lia).
    simpl. rewrite Z2Nat.id by lia. rewrite Z.add_0_r. reflexivity.
  - apply Z.leb_le in Hv. unfold FieldTypes.array_view.
    destruct Hwf as (Hbo & Hbl & Hlen). zcases. reflexivity.
Qed.

(** ** [from]: each field is decoded from its own slot *)

Lemma parse_fields_spec (sd : Struct) (dv : DataView.t) (o : Z)
    (decl : list (string * Builtin)) :
  DataView.wf dv -> forallb valid_size (map snd decl) = true ->
  forall start result h,
    laid_out (fieldOffsets sd) start (builtin_fields decl) ->
    0 <= o + start ->
    o + start + sizes_sum (builtin_fields decl) <= DataView.byteLength dv ->
    parse_fields sd dv o (builtin_fields decl) result h
    = Ok (decode_fields decl (littleEndian sd) dv (o + start) result h).
Proof.
  intros Hwf. induction decl as [|[k b] decl IH]; intros Hvalid start result h Hlay Hlo Hhi.
  - reflexivity.
  - simpl in Hvalid. apply andb_true_iff in Hvalid as [Hb Hvalid].
    cbn [builtin_fields map fst snd laid_out sizes_sum fold_right] in Hlay, Hhi |- *.
    fold (builtin_fields decl) in *. fold (sizes_sum (builtin_fields decl)) in *.
    destruct Hlay as [Hoff Hlay].
    pose proof (sizes_sum_nonneg decl Hvalid) as Hrest.
    pose proof (valid_size_nonneg b Hb) as Hsz.
    cbn [parse_fields decode_fields]. rewrite Hoff. unfold bind at 1.
    rewrite parse_slot by (try assumption; lia).
    destruct (decode_slot b (littleEndian sd) _) as [content|v]; cbn [deliver];
      rewrite (IH Hvalid (start + size (field_of b))) by (try assumption; lia);
      rewrite Z.add_assoc; reflexivity.
Qed.

Lemma obj_get_set (o : JsObject) (k k' : string) (v : Value) :
  obj_get (obj_set o k v) k' = if String.eqb k k' then v else obj_get o k'.
Proof.
  induction o as [|[k0 v0] o IH]; simpl.
  - reflexivity.
  - destruct (String.eqb_spec k0 k) as [->|Hne]; simpl.
    + destruct (String.eqb_spec k k'); reflexivity.
    + rewrite IH. destruct (String.eqb_spec k0 k') as [->|Hne'].
      * destruct (String.eqb_spec k k'); congruence.
      * reflexivity.
Qed.

Lemma obj_get_define_members (o : JsObject) (k : string) :
  reserved k = false -> obj_get (define_members o) k = obj_get o k.
Proof.
  intros Hk. unfold define_members.
  induction o as [|[k0 v0] o IH]; simpl; [reflexivity|].
  destruct (reserved k0) eqn:Hr; simpl.
  - destruct (String.eqb_spec k0 k) as [->|_]; [congruence | exact IH].
  - destruct (String.eqb_spec k0 k); [reflexivity | exact IH].
Qed.

(** The decoders only allocate: the heap grows at its end. *)
Lemma decode_fields_heap (decl : list (string * Builtin)) (le : bool) (dv : DataView.t) :
  forall pos result h,
    exists ext, snd (decode_fields decl le dv pos result h) = h ++ ext.
Proof.
  induction decl as [|[k b] decl IH]; intros pos result h; simpl.
  - exists []. now rewrite app_nil_r.
  - destruct (decode_slot b le _) as [content|v].
    + destruct (IH (pos + size (field_of b)) (obj_set result k (VBytes (length h)))
                  (h ++ [content])) as [ext ->].
      exists (content :: ext). now rewrite <- app_assoc.
    + apply IH.
Qed.

Lemma decode_fields_other (decl : list (string * Builtin)) (le : bool) (dv : DataView.t)
    (k : string) :
  ~ In k (map fst decl) ->
  forall pos result h,
    obj_get (fst (decode_fields decl le dv pos result h)) k = obj_get result k.
Proof.
  induction decl as [|[k0 b] decl IH]; intros Hin pos result h; simpl in *.
  - reflexivity.
  - destruct (decode_slot b le _) as [content|v]; rewrite IH by tauto;
      rewrite obj_get_set; destruct (String.eqb_spec k0 k); tauto.
Qed.

(** The value [from] stores under a field's name. *)
Lemma decode_fields_lookup (pre post : list (string * Builtin)) (k : string)
    (b : Builtin) (le : bool) (dv : DataView.t) :
  distinct (map fst (pre ++ (k, b) :: post)) = true ->
  forall pos result h,
    let out := decode_fields (pre ++ (k, b) :: post) le dv pos result h in
    match decode_slot b le (slice (DataView.buffer dv) (base b dv + (pos + sizes_of pre))
                              (size (field_of b))) with
    | DValue v => obj_get (fst out) k = v
    | DArray content =>
        exists l, obj_get (fst out) k = VBytes l /\ snd out !! l = Some content /\
                  (length h <= l)%nat
    end.
Proof.
  induction pre as [|[k0 b0] pre IH]; intros Hd pos result h.
  - cbn [app sizes_of builtin_fields map sizes_sum fold_right]. rewrite Z.add_0_r.
    simpl in Hd. apply andb_true_iff in Hd as [Hk _].
    apply negb_true_iff, existsb_eqb_false in Hk.
    cbn [decode_fields].
    destruct (decode_slot b le _) as [content|v]; cbv zeta.
    + exists (length h). rewrite decode_fields_other by exact Hk.
      rewrite obj_get_set, String.eqb_refl. split; [reflexivity|].
      destruct (decode_fields_heap post le dv (pos + size (field_of b))
                  (obj_set result k (VBytes (length h))) (h ++ [content])) as [ext ->].
      split; [|lia].
      rewrite <- app_assoc. now apply list_lookup_middle.
    + rewrite decode_fields_other by exact Hk.
      now rewrite obj_get_set, String.eqb_refl.
  - simpl in Hd. apply andb_true_iff in Hd as [_ Hd].
    cbn [app decode_fields].
    replace (pos + sizes_of ((k0, b0) :: pre))
      with (pos + size (field_of b0) + sizes_of pre)
      by (unfold sizes_of; simpl; lia).
    destruct (decode_slot b0 le _) as [content0|v0]; cbv zeta.
    + specialize (IH Hd (pos + size (field_of b0))
                    (obj_set result k0 (VBytes (length h))) (h ++ [content0])).
      cbv zeta in IH.
      destruct (decode_slot b le _) as [content|v]; [|exact IH].
      destruct IH as (l & H1 & H2 & H3). exists l. repeat split; try assumption.
      rewrite length_app in H3. simpl in H3. lia.
    + apply (IH Hd).
Qed.

Lemma from_spec (n : string) (decl : list (string * Builtin)) (options : StructOptions)
    (sd : Struct) (buffer : BufferSource) (offset : option Z) (h : Heap) :
  struct n (builtin_fields decl) options = Ok sd ->
  distinct (names (builtin_fields decl)) = true ->
  forallb valid_size (map snd decl) = true ->
  DataView.wf (view_of buffer) ->
  0 <= default 0 offset ->
  default 0 offset + struct_size sd <= source_length buffer ->
  from sd buffer offset h =
  Ok ({| props := define_members
                    (fst (decode_fields decl (littleEndian sd) (view_of buffer)
                            (default 0 offset) [] h));
         dollar_struct := sd |},
      snd (decode_fields decl (littleEndian sd) (view_of buffer) (default 0 offset) [] h)).
Proof.
  intros Hs Hd Hvalid Hwf Hlo Hhi.
  destruct (struct_members _ _ _ _ Hs) as (_ & Hf & Hsz & Htot & Hoff & _).
  unfold from. rewrite Hf. unfold bind.
  rewrite (parse_fields_spec sd (view_of buffer) (default 0 offset) decl Hwf Hvalid 0).
  - rewrite Z.add_0_r.
    destruct (decode_fields decl (littleEndian sd) (view_of buffer) (default 0 offset) [] h).
    reflexivity.
  - rewrite Hoff. now apply layout_laid_out.
  - lia.
  - rewrite Z.add_0_r, <- Hsz.
    destruct buffer; simpl in *; exact Hhi.
Qed.

Lemma source_view_wf (b : BufferSource) : source_wf b -> DataView.wf (view_of b).
Proof.
  destruct b; simpl; unfold DataView.wf; simpl; [lia|]. tauto.
Qed.

(** ** Round trip *)

Lemma well_formed_units (s : list Z) : TextCodec.well_formed s = true -> units_ok s = true.
Proof.
  intros Hwf0. pattern s. apply well_formed_ind; [| | |exact Hwf0]; clear s Hwf0.
  - reflexivity.
  - intros c s Hu _ _ _ IH. simpl. now rewrite Hu, IH.
  - intros c d s Hc Hd _ IH. simpl. rewrite IH, andb_true_r.
    apply andb_true_iff. split; unfold TextCodec.is_unit; surrogates;
      apply andb_true_iff; rewrite !Z.leb_le; lia.
Qed.

Lemma unsigned_digits (le : bool) (w : nat) (z : Z) :
  unsigned_of le (digits le w z) = z mod 2 ^ (8 * Z.of_nat w).
Proof.
  unfold unsigned_of, digits. rewrite order_involutive, le_value_bytes.
  apply Z.mod_mod. apply Z.pow_nonzero; lia.
Qed.

Lemma in_range_spec (lo hi z : Z) : in_range lo hi z = true -> lo <= z < hi.
Proof. unfold in_range. rewrite andb_true_iff, Z.leb_le, Z.ltb_lt. tauto. Qed.

Lemma take_all (e : list Z) (m : Z) : zlen e <= m -> take (Z.to_nat m) e = e.
Proof. intros H. apply take_ge. unfold zlen in H. lia. Qed.

Lemma slot_roundtrip (b : Builtin) (le : bool) (h : Heap) (v : Value) :
  valid_size b = true -> representable b h v = true ->
  exists slot,
    encode_slot b le h v = Some slot /\
    match decode_slot b le slot with
    | DArray content => exists l, v = VBytes l /\ h !! l = Some content
    | DValue v' => v' = returned b v
    end.
Proof.
  intros Hv Hr.
  destruct b, v; simpl in Hr; try discriminate;
    cbn [encode_slot number_of bigint_of text_of array_of option_map decode_slot returned].
  - destruct (h !! l) as [content|] eqn:Hl; [|discriminate].
    apply andb_true_iff in Hr as [Hc Hn]. apply Z.eqb_eq in Hn.
    rewrite Hc. cbn [option_map]. eexists. split; [reflexivity|].
    exists l. split; [reflexivity|]. rewrite Hl. f_equal. subst length.
    unfold zlen. rewrite Nat2Z.id. symmetry. apply elements_exact.
  - apply in_range_spec in Hr. eexists. split; [reflexivity|].
    rewrite unsigned_digits. do 2 f_equal. apply Z.mod_small. simpl. lia.
  - apply in_range_spec in Hr. eexists. split; [reflexivity|].
    rewrite unsigned_digits. do 2 f_equal. apply Z.mod_small. simpl. lia.
  - apply in_range_spec in Hr. eexists. split; [reflexivity|].
    rewrite unsigned_digits. do 2 f_equal. apply Z.mod_small. simpl. lia.
  - apply in_range_spec in Hr. eexists. split; [reflexivity|].
    rewrite unsigned_digits. do 2 f_equal. apply Z.mod_small. simpl. lia.
  - apply in_range_spec in Hr. eexists. split; [reflexivity|].
    rewrite unsigned_digits. do 2 f_equal. apply to_signed_range; simpl; lia.
  - apply in_range_spec in Hr. eexists. split; [reflexivity|].
    rewrite unsigned_digits. do 2 f_equal. apply to_signed_range; simpl; lia.
  - apply in_range_spec in Hr. eexists. split; [reflexivity|].
    rewrite unsigned_digits. do 2 f_equal. apply to_signed_range; simpl; lia.
  - apply in_range_spec in Hr. eexists. split; [reflexivity|].
    rewrite unsigned_digits. do 2 f_equal. apply to_signed_range; simpl; lia.
  - (* cstring *)
    apply andb_true_iff in Hr as [Hr Hlen]. apply andb_true_iff in Hr as [Hr Hnn].
    apply andb_true_iff in Hr as [Hwf Hbom]. apply negb_true_iff in Hbom.
    apply Z.leb_le in Hlen.
    rewrite (well_formed_units s Hwf). cbn [option_map].
    eexists. split; [reflexivity|]. cbv zeta.
    rewrite Z.min_l by lia. rewrite take_all by lia.
    rewrite (zeros_succ (maxLength - zlen (TextCodec.encode s))) by lia.
    rewrite until_zero_stop by now apply encode_nonzero.
    now rewrite decode_encode.
  - (* string *)
    apply andb_true_iff in Hr as [Hr Hlen]. apply andb_true_iff in Hr as [Hwf Hbom].
    apply negb_true_iff in Hbom. apply Z.leb_le in Hlen.
    rewrite (well_formed_units s Hwf). cbn [option_map].
    eexists. split; [reflexivity|]. cbv zeta.
    rewrite Z.min_l by lia. rewrite take_all by lia.
    unfold zeros. now rewrite decode_encode_padded.
Qed.

Lemma encode_slot_length (b : Builtin) (le : bool) (h : Heap) (v : Value) (slot : list Z) :
  valid_size b = true -> encode_slot b le h v = Some slot ->
  zlen slot = size (field_of b).
Proof.
  intros Hv He.
  apply (write_slot b le h v slot [] (size (field_of b)) Hv He). lia.
Qed.

Lemma encode_record_split (pre post : list (string * Builtin)) (k : string) (b : Builtin)
    (le : bool) (h : Heap) (values : JsObject) (bs : list Z) :
  forallb valid_size (map snd (pre ++ (k, b) :: post)) = true ->
  encode_record (pre ++ (k, b) :: post) le h values = Some bs ->
  exists bpre slot bpost,
    bs = bpre ++ slot ++ bpost /\
    encode_slot b le h (obj_get values k) = Some slot /\
    zlen bpre = sizes_of pre /\ zlen slot = size (field_of b).
Proof.
  revert bs. induction pre as [|[k0 b0] pre IH]; intros bs Hvalid Henc.
  - simpl in *. apply andb_true_iff in Hvalid as [Hb _].
    destruct (encode_slot b le h (obj_get values k)) as [slot|] eqn:Hs; [|discriminate].
    destruct (encode_record post le h values) as [tail|]; [|discriminate].
    apply some_eq in Henc. subst bs.
    exists [], slot, tail. repeat split. now apply (encode_slot_length b le h (obj_get values k)).
  - simpl in Hvalid, Henc. apply andb_true_iff in Hvalid as [Hb0 Hvalid].
    destruct (encode_slot b0 le h (obj_get values k0)) as [slot0|] eqn:Hs0; [|discriminate].
    destruct (encode_record (pre ++ (k, b) :: post) le h values) as [tail|]; [|discriminate].
    apply some_eq in Henc. subst bs.
    destruct (IH tail Hvalid eq_refl) as (bpre & slot & bpost & -> & Hs & Hl1 & Hl2).
    exists (slot0 ++ bpre), slot, bpost. rewrite <- app_assoc.
    repeat split; try assumption.
    rewrite zlen_app, Hl1, (encode_slot_length b0 le h _ slot0 Hb0 Hs0).
    unfold sizes_of. simpl. reflexivity.
Qed.

Lemma encode_record_representable (decl : list (string * Builtin)) (le : bool)
    (h : Heap) (values : JsObject) :
  forallb valid_size (map snd decl) = true ->
  (forall k b, In (k, b) decl -> representable b h (obj_get values k) = true) ->
  exists bs, encode_record decl le h values = Some bs.
Proof.
  induction decl as [|[k b] decl IH]; intros Hvalid H; simpl in *.
  - eexists; reflexivity.
  - apply andb_true_iff in Hvalid as [Hb Hvalid].
    destruct (slot_roundtrip b le h (obj_get values k) Hb) as (slot & -> & _).
    { apply H. now left. }
    destruct (IH Hvalid) as [tail ->]; [intros; apply H; now right|].
    eexists; reflexivity.
Qed.

Lemma returned_fills (b : Builtin) (v : Value) : fills b v = true -> returned b v = v.
Proof.
  destruct b, v; simpl; try reflexivity.
  intros H. apply Z.eqb_eq in H. rewrite H, Z.sub_diag. unfold zeros. simpl.
  now rewrite app_nil_r.
Qed.

Lemma same_field_refl_scalar (h h' : Heap) (v : Value) :
  (forall l, v <> VBytes l) -> same_field h v h' v.
Proof. destruct v; simpl; intros H; try reflexivity. now destruct (H l). Qed.

Lemma base_array_buffer (b : Builtin) (bs : list Z) : base b (view_of (ArrayBuffer bs)) = 0.
Proof. destruct b; reflexivity. Qed.

(** C1 (as the code has it). For a struct of built-in fields, none of them
    named [__proto__], whose size the platform can allocate, and a record
    whose values are representable in their fields, [to] succeeds, [from]
    on the result succeeds, and every field that is not named like an
    instance member comes back equal: byte arrays of the declared length by
    content, integers in range, null-terminated text that is well formed,
    has no U+0000, does not start with U+FEFF and fits in n-1 bytes, and
    fixed text (well formed, not starting with U+FEFF) that fills its field
    exactly.  Fixed text shorter than its field comes back followed by one
    U+0000 for each padding byte. *)
Theorem roundtrip_representable (n : string) (decl : list (string * Builtin))
    (options : StructOptions) (sd : Struct) (values : JsObject) (h : Heap) :
  struct n (builtin_fields decl) options = Ok sd ->
  distinct (names (builtin_fields decl)) = true ->
  proto_free (map fst decl) = true ->
  forallb valid_size (map snd decl) = true ->
  struct_size sd <= max_byte_length ->
  (forall k b, In (k, b) decl -> representable b h (obj_get values k) = true) ->
  exists buf r h',
    to sd values h = Ok (buf, h) /\
    from sd (ArrayBuffer buf) None h = Ok (r, h') /\
    forall k b, In (k, b) decl -> reserved k = false ->
      same_field h (returned b (obj_get values k)) h' (obj_get (props r) k) /\
      (fills b (obj_get values k) = true ->
       same_field h (obj_get values k) h' (obj_get (props r) k)).
Proof.
  intros Hs Hd _ Hvalid Hmax Hrep.
  destruct (encode_record_representable decl (littleEndian sd) h values Hvalid Hrep)
    as [bs Hbs].
  destruct (to_spec n decl options sd values h bs Hs Hd Hvalid Hmax Hbs) as [Hto Hlen].
  assert (Hwf : DataView.wf (view_of (ArrayBuffer bs))).
  { unfold DataView.wf. simpl. lia. }
  pose proof (from_spec n decl options sd (ArrayBuffer bs) None h Hs Hd Hvalid Hwf) as Hfrom.
  simpl in Hfrom. specialize (Hfrom ltac:(lia)).
  unfold zlen in Hlen. specialize (Hfrom ltac:(lia)).
  eexists bs, _, _. split; [exact Hto|]. split; [exact Hfrom|].
  intros k b Hin Hres. cbn [props].
  rewrite obj_get_define_members by exact Hres.
  enough (Hsame : same_field h (returned b (obj_get values k))
            (snd (decode_fields decl (littleEndian sd)
                    (DataView.mk bs 0 (Z.of_nat (length bs))) 0 [] h))
            (obj_get (fst (decode_fields decl (littleEndian sd)
                    (DataView.mk bs 0 (Z.of_nat (length bs))) 0 [] h)) k)).
  { split; [exact Hsame|]. intros Hf. now rewrite <- (returned_fills b _ Hf). }
  pose proof (Hrep k b Hin) as Hrk.
  apply in_split in Hin as (pre & post & ->).
  assert (Hvb : valid_size b = true).
  { rewrite map_app, forallb_app in Hvalid. apply andb_true_iff in Hvalid as [_ Hv].
    simpl in Hv. now apply andb_true_iff in Hv as [Hv _]. }
  destruct (encode_record_split pre post k b _ h values bs Hvalid Hbs)
    as (bpre & slot & bpost & -> & Hslot & Hl1 & Hl2).
  destruct (slot_roundtrip b (littleEndian sd) h (obj_get values k) Hvb Hrk)
    as (slot' & Hslot' & Hdec).
  rewrite Hslot in Hslot'. apply some_eq in Hslot'. subst slot'.
  assert (Hd' : distinct (map fst (pre ++ (k, b) :: post)) = true).
  { unfold names, builtin_fields in Hd. rewrite map_map in Hd. exact Hd. }
  pose proof (decode_fields_lookup pre post k b (littleEndian sd)
                (DataView.mk (bpre ++ slot ++ bpost) 0
                   (Z.of_nat (length (bpre ++ slot ++ bpost)))) Hd' 0 [] h) as Hlook.
  cbv zeta in Hlook.
  change (DataView.mk (bpre ++ slot ++ bpost) 0 (Z.of_nat (length (bpre ++ slot ++ bpost))))
    with (view_of (ArrayBuffer (bpre ++ slot ++ bpost))) in Hlook.
  rewrite base_array_buffer in Hlook. cbn [view_of DataView.buffer] in Hlook.
  rewrite slice_middle in Hlook by (unfold zlen in *; lia).
  destruct (decode_slot b (littleEndian sd) slot) as [content|v'] eqn:Hds.
  - destruct Hdec as (l & Hv & Hl). destruct Hlook as (l' & Hget & Hl' & _).
    rewrite Hv. replace (returned b (VBytes l)) with (VBytes l) by (now destruct b).
    simpl. exists l', content. repeat split; assumption.
  - rewrite Hlook, Hdec. apply same_field_refl_scalar.
    intros l Hl. destruct b, (obj_get values k); simpl in Hl, Hrk, Hds;
      first [discriminate Hds | discriminate Hl | discriminate Hrk].
Qed.

Lemma roundtrip_representable_witness :
  exists sd buf r h',
    struct "Header" (builtin_fields Header_decl) le_opts = Ok sd /\
    to sd Header_data Header_heap = Ok (buf, Header_heap) /\
    from sd (ArrayBuffer buf) None Header_heap = Ok (r, h') /\
    obj_get (props r) "count" = VNumber 12345.
Proof.
  pose (sd := {| name := "Header"; struct_size := 11;
                 fields := builtin_fields Header_decl; littleEndian := true;
                 totalSize := 11;
                 fieldOffsets := [("magic"%string, 0); ("version"%string, 4);
                                  ("flags"%string, 6); ("count"%string, 7)] |}).
  destruct (roundtrip_representable "Header" Header_decl le_opts sd Header_data
              Header_heap eq_refl eq_refl eq_refl eq_refl)
    as (buf & r & h' & Hto & Hfrom & Hall).
  - unfold max_byte_length. simpl. lia.
  - intros k b Hin. simpl in Hin.
    destruct Hin as [[= <- <-]|[[= <- <-]|[[= <- <-]|[[= <- <-]|[]]]]]; reflexivity.
  - exists sd, buf, r, h'. repeat split; try assumption.
    destruct (Hall "count"%string Uint32) as [Hsame _];
      [simpl; tauto | reflexivity | exact Hsame].
Defined.

(** C1 as stated fails: fixed text shorter than its field does not come
    back as it went in (the test suite expects the padding, too). *)
Lemma fixed_text_comes_back_padded :
  exists sd buf r,
    struct "Code" (builtin_fields [("code"%string, FixedString 4)]) no_opts = Ok sd /\
    zlen (TextCodec.encode (txt "XYZ")) <= 4 /\
    run (to sd [("code"%string, VString (txt "XYZ"))]) [] = Ok buf /\
    run (from sd (ArrayBuffer buf) None) [] = Ok r /\
    obj_get (props r) "code" = VString (txt "XYZ" ++ [0]) /\
    obj_get (props r) "code" <> VString (txt "XYZ").
Proof.
  eexists _, _, _. split; [reflexivity|]. split; [unfold zlen; simpl; lia|].
  split; [reflexivity|]. split; [reflexivity|]. split; [reflexivity|]. discriminate.
Qed.

(** The other conditions of the round trip are needed as well. *)
Example embedded_nul_cuts_cstring :
  there_and_back (CString 8) "s" (VString [0x41; 0; 0x42]) = Ok (VString [0x41]).
Proof. reflexivity. Qed.

Example leading_bom_is_dropped :
  there_and_back (CString 8) "s" (VString [0xFEFF; 0x41]) = Ok (VString [0x41]).
Proof. reflexivity. Qed.

Example lone_surrogate_is_replaced :
  there_and_back (CString 8) "s" (VString [0xD800; 0x41]) = Ok (VString [0xFFFD; 0x41]).
Proof. reflexivity. Qed.

Example member_name_is_overwritten :
  there_and_back Uint8 "$clone" (VNumber 7) = Ok VObject.
Proof. reflexivity. Qed.

(** ** [from] and the length of the buffer *)

Lemma reads_whole_slot_size (b : Builtin) :
  reads_whole_slot b = true -> valid_size b = true /\ 0 < size (field_of b).
Proof.
  destruct b; simpl; intros H; try discriminate; try (split; [reflexivity|lia]).
  apply Z.ltb_lt in H. split; [apply Z.leb_le|]; lia.
Qed.

Lemma read_loop_outside (dv : DataView.t) (offset : Z) (n : nat) :
  forall i, (0 < n)%nat ->
    offset + i < 0 \/ DataView.byteLength dv < offset + i + Z.of_nat n ->
    FieldTypes.read_loop dv offset i n = Throw RangeError.
Proof.
  induction n as [|n IH]; intros i Hn Hout; [lia|].
  cbn [FieldTypes.read_loop]. unfold DataView.getUint8.
  destruct (Z_lt_le_dec (offset + i) 0) as [Hneg|Hnn].
  - rewrite GetViewValue_out by (left; lia). reflexivity.
  - destruct (Z_lt_le_dec (DataView.byteLength dv) (offset + i + 1)) as [Hhi|Hin].
    + rewrite GetViewValue_out by (right; simpl; lia). reflexivity.
    + rewrite GetViewValue_in by (simpl; lia). cbn [obind].
      rewrite IH by lia. reflexivity.
Qed.

Lemma parse_outside (b : Builtin) (dv : DataView.t) (off : Z) (le : bool) (h : Heap) :
  reads_whole_slot b = true ->
  off < 0 \/ DataView.byteLength dv < off + size (field_of b) ->
  parse (field_of b) dv off le h = Throw RangeError.
Proof.
  intros Hr Hout.
  destruct b; simpl in Hr; try discriminate; simpl in Hout; cbn [field_of parse
    FieldTypes.bytes FieldTypes.uint8 FieldTypes.uint16 FieldTypes.uint32
    FieldTypes.uint64 FieldTypes.int8 FieldTypes.int16 FieldTypes.int32
    FieldTypes.int64];
    unfold DataView.getUint8, DataView.getUint16, DataView.getUint32,
      DataView.getBigUint64, DataView.getInt8, DataView.getInt16,
      DataView.getInt32, DataView.getBigInt64;
    try (rewrite GetViewValue_out by (simpl; lia); reflexivity).
  apply Z.ltb_lt in Hr. unfold FieldTypes.check_length.
  destruct (Z.ltb_spec length 0); [lia|].
  rewrite read_loop_outside by lia. reflexivity.
Qed.

Lemma parse_fields_outside (sd : Struct) (dv : DataView.t) (o : Z)
    (decl : list (string * Builtin)) :
  DataView.wf dv -> forallb reads_whole_slot (map snd decl) = true ->
  forall start result h,
    decl <> [] ->
    laid_out (fieldOffsets sd) start (builtin_fields decl) ->
    o + start < 0 \/ DataView.byteLength dv < o + start + sizes_of decl ->
    parse_fields sd dv o (builtin_fields decl) result h = Throw RangeError.
Proof.
  intros Hwf. induction decl as [|[k b] decl IH]; intros Hall start result h Hne Hlay Hout.
  - congruence.
  - simpl in Hall. apply andb_true_iff in Hall as [Hb Hall].
    destruct (reads_whole_slot_size b Hb) as [Hvb Hpos].
    unfold sizes_of in *.
    cbn [builtin_fields map fst snd laid_out sizes_sum fold_right] in Hlay, Hout |- *.
    fold (builtin_fields decl) in *. fold (sizes_sum (builtin_fields decl)) in *.
    destruct Hlay as [Hoff Hlay].
    cbn [parse_fields]. rewrite Hoff. unfold bind at 1.
    destruct (Z_lt_le_dec (o + start) 0) as [Hneg|Hnn];
      [rewrite parse_outside by (try assumption; lia); reflexivity|].
    destruct (Z_lt_le_dec (DataView.byteLength dv) (o + start + size (field_of b)))
      as [Hhi|Hin];
      [rewrite parse_outside by (try assumption; lia); reflexivity|].
    rewrite parse_slot by (try assumption; lia).
    assert (Hrest : decl <> []).
    { intros ->. simpl in Hout. lia. }
    destruct (decode_slot b (littleEndian sd) _) as [content|v]; cbn [deliver];
      apply (IH Hall (start + size (field_of b))); try assumption; lia.
Qed.

Lemma GetViewValue_outcome (dv : DataView.t) (idx : Z) (le : bool) (w : nat) :
  (exists z, DataView.GetViewValue dv idx le w = Ok z) \/
  DataView.GetViewValue dv idx le w = Throw RangeError.
Proof. unfold DataView.GetViewValue. zcases; eauto. Qed.

Lemma read_loop_outcome (dv : DataView.t) (offset : Z) (n : nat) :
  forall i,
    (exists bs, FieldTypes.read_loop dv offset i n = Ok bs) \/
    FieldTypes.read_loop dv offset i n = Throw RangeError.
Proof.
  induction n as [|n IH]; intros i; simpl; [eauto|].
  unfold DataView.getUint8.
  destruct (GetViewValue_outcome dv (offset + i) false 1) as [[z ->]| ->]; simpl; [|auto].
  destruct (IH (i + 1)) as [[bs ->]| ->]; simpl; eauto.
Qed.

Lemma scan_loop_outcome (dv : DataView.t) (offset : Z) (n : nat) :
  forall i,
    (exists bs, FieldTypes.scan_loop dv offset i n = Ok bs) \/
    FieldTypes.scan_loop dv offset i n = Throw RangeError.
Proof.
  induction n as [|n IH]; intros i; simpl; [eauto|].
  unfold DataView.getUint8.
  destruct (GetViewValue_outcome dv (offset + i) false 1) as [[z ->]| ->]; simpl; [|auto].
  destruct (z =? 0); [eauto|].
  destruct (IH (i + 1)) as [[bs ->]| ->]; simpl; eauto.
Qed.

Ltac getter_outcome dv off le w :=
  destruct (GetViewValue_outcome dv off le w) as [[z ->]| ->]; simpl; eauto.

Lemma parse_outcome (b : Builtin) (dv : DataView.t) (off : Z) (le : bool) (h : Heap) :
  (exists v h', parse (field_of b) dv off le h = Ok (v, h')) \/
  parse (field_of b) dv off le h = Throw RangeError.
Proof.
  destruct b; simpl; unfold lift, bind, FieldTypes.check_length,
    DataView.getUint8, DataView.getUint16, DataView.getUint32, DataView.getBigUint64,
    DataView.getInt8, DataView.getInt16, DataView.getInt32, DataView.getBigInt64.
  - destruct (length <? 0); [auto|].
    destruct (read_loop_outcome dv off (Z.to_nat length) 0) as [[bs ->]| ->]; eauto.
  - getter_outcome dv off false 1%nat.
  - getter_outcome dv off le 2%nat.
  - getter_outcome dv off le 4%nat.
  - getter_outcome dv off le 8%nat.
  - getter_outcome dv off false 1%nat.
  - getter_outcome dv off le 2%nat.
  - getter_outcome dv off le 4%nat.
  - getter_outcome dv off le 8%nat.
  - destruct (maxLength <? 0); [auto|].
    destruct (scan_loop_outcome dv off (Z.to_nat maxLength) 0) as [[bs ->]| ->]; simpl; eauto.
  - unfold FieldTypes.array_view. zcases; simpl; eauto.
Qed.

Lemma scan_loop_runs_out (dv : DataView.t) (offset : Z) (m : nat) :
  DataView.wf dv ->
  forall i, (0 < m)%nat -> 0 <= offset + i ->
    DataView.byteLength dv < offset + i + Z.of_nat m ->
    forallb (fun x => negb (x =? 0))
      (slice (DataView.buffer dv) (DataView.byteOffset dv + (offset + i))
         (DataView.byteLength dv - (offset + i))) = true ->
    FieldTypes.scan_loop dv offset i m = Throw RangeError.
Proof.
  intros Hwf. induction m as [|m IH]; intros i Hm Hlo Hhi Hnz; [lia|].
  cbn [FieldTypes.scan_loop].
  destruct (Z_lt_le_dec (DataView.byteLength dv) (offset + i + 1)) as [Hout|Hin].
  - unfold DataView.getUint8. rewrite GetViewValue_out by (right; simpl; lia). reflexivity.
  - destruct (getUint8_at dv (offset + i) Hwf Hlo Hin) as (x & Hx & ->). cbn [obind].
    destruct Hwf as (Hbo & Hbl & Hfit).
    destruct (slice_succ (DataView.buffer dv) (DataView.byteOffset dv + (offset + i)))
      as (x' & Hx' & Hsucc); [lia | unfold zlen; lia |].
    rewrite Hx in Hx'. injection Hx' as <-.
    replace (DataView.byteLength dv - (offset + i))
      with (Z.of_nat (S (Z.to_nat (DataView.byteLength dv - (offset + i) - 1)))) in Hnz
      by lia.
    rewrite Hsucc in Hnz. cbn [forallb] in Hnz. apply andb_true_iff in Hnz as [Hx0 Hnz].
    apply negb_true_iff in Hx0. rewrite Hx0.
    rewrite IH; [reflexivity | lia | lia | lia |].
    replace (DataView.byteOffset dv + (offset + (i + 1)))
      with (DataView.byteOffset dv + (offset + i) + 1) by lia.
    replace (DataView.byteLength dv - (offset + (i + 1)))
      with (Z.of_nat (Z.to_nat (DataView.byteLength dv - (offset + i) - 1))) by lia.
    exact Hnz.
Qed.

(** A decoder that runs out throws a RangeError. *)
Lemma parse_runs_out (b : Builtin) (dv : DataView.t) (off : Z) (le : bool) (h : Heap) :
  DataView.wf dv -> runs_out b dv off = true ->
  parse (field_of b) dv off le h = Throw RangeError.
Proof.
  intros Hwf Hout.
  destruct b; cbn [runs_out size field_of FieldTypes.uint8 FieldTypes.uint16
    FieldTypes.uint32 FieldTypes.uint64 FieldTypes.int8 FieldTypes.int16
    FieldTypes.int32 FieldTypes.int64] in Hout.
  - (* bytes *)
    cbn [field_of parse FieldTypes.bytes]. unfold bind, lift, FieldTypes.check_length.
    destruct (Z.ltb_spec length 0); [reflexivity|].
    simpl in Hout. apply andb_true_iff in Hout as [Hpos Hout].
    apply Z.ltb_lt in Hpos. apply orb_true_iff in Hout.
    rewrite read_loop_outside; [reflexivity | lia |].
    destruct Hout as [Hout|Hout]; apply Z.ltb_lt in Hout; lia.
  - apply parse_outside; [reflexivity|]. apply orb_true_iff in Hout.
    destruct Hout as [Hout|Hout]; apply Z.ltb_lt in Hout; simpl; lia.
  - apply parse_outside; [reflexivity|]. apply orb_true_iff in Hout.
    destruct Hout as [Hout|Hout]; apply Z.ltb_lt in Hout; simpl; lia.
  - apply parse_outside; [reflexivity|]. apply orb_true_iff in Hout.
    destruct Hout as [Hout|Hout]; apply Z.ltb_lt in Hout; simpl; lia.
  - apply parse_outside; [reflexivity|]. apply orb_true_iff in Hout.
    destruct Hout as [Hout|Hout]; apply Z.ltb_lt in Hout; simpl; lia.
  - apply parse_outside; [reflexivity|]. apply orb_true_iff in Hout.
    destruct Hout as [Hout|Hout]; apply Z.ltb_lt in Hout; simpl; lia.
  - apply parse_outside; [reflexivity|]. apply orb_true_iff in Hout.
    destruct Hout as [Hout|Hout]; apply Z.ltb_lt in Hout; simpl; lia.
  - apply parse_outside; [reflexivity|]. apply orb_true_iff in Hout.
    destruct Hout as [Hout|Hout]; apply Z.ltb_lt in Hout; simpl; lia.
  - apply parse_outside; [reflexivity|]. apply orb_true_iff in Hout.
    destruct Hout as [Hout|Hout]; apply Z.ltb_lt in Hout; simpl; lia.
  - (* cstring *)
    cbn [field_of parse FieldTypes.cstring]. unfold lift, FieldTypes.check_length.
    destruct (Z.ltb_spec maxLength 0); [reflexivity|].
    simpl in Hout. apply andb_true_iff in Hout as [Hn Hout]. apply Z.leb_le in Hn.
    apply orb_true_iff in Hout. destruct Hout as [Hneg|Hout].
    + apply Z.ltb_lt in Hneg.
      destruct (Z.to_nat maxLength) as [|m] eqn:Hm; [lia|].
      cbn [FieldTypes.scan_loop]. unfold DataView.getUint8.
      rewrite GetViewValue_out by (left; lia). reflexivity.
    + apply andb_true_iff in Hout as [Hpast Hnz]. apply Z.ltb_lt in Hpast.
      destruct (Z_lt_le_dec off 0) as [Hneg|Hnn].
      * destruct (Z.to_nat maxLength) as [|m] eqn:Hm; [lia|].
        cbn [FieldTypes.scan_loop]. unfold DataView.getUint8.
        rewrite GetViewValue_out by (left; lia). reflexivity.
      * rewrite (scan_loop_runs_out dv off (Z.to_nat maxLength) Hwf 0);
          [reflexivity | lia | lia | lia |].
        now rewrite Z.add_0_r.
  - (* string *)
    cbn [field_of parse FieldTypes.string]. unfold lift, FieldTypes.array_view.
    fold (zlen (DataView.buffer dv)).
    apply orb_true_iff in Hout. destruct Hout as [Hout|Hout];
      [apply orb_true_iff in Hout; destruct Hout as [Hout|Hout]|];
      apply Z.ltb_lt in Hout; zcases; reflexivity.
Qed.

Lemma parse_fields_runs_out (sd : Struct) (dv : DataView.t) (o : Z) (k : string)
    (b : Builtin) (post : list (string * Builtin)) :
  DataView.wf dv ->
  forall pre start result h,
    laid_out (fieldOffsets sd) start (builtin_fields (pre ++ (k, b) :: post)) ->
    runs_out b dv (o + (start + sizes_of pre)) = true ->
    parse_fields sd dv o (builtin_fields (pre ++ (k, b) :: post)) result h
    = Throw RangeError.
Proof.
  intros Hwf. induction pre as [|[k0 b0] pre IH]; intros start result h Hlay Hout.
  - change (sizes_of []) with 0 in Hout. rewrite Z.add_0_r in Hout.
    cbn [app builtin_fields map fst snd laid_out parse_fields] in Hlay |- *.
    destruct Hlay as [Hoff _]. rewrite Hoff. unfold bind.
    now rewrite parse_runs_out.
  - cbn [app builtin_fields map fst snd laid_out parse_fields] in Hlay |- *.
    fold (builtin_fields (pre ++ (k, b) :: post)) in *.
    destruct Hlay as [Hoff Hlay]. rewrite Hoff. unfold bind at 1.
    destruct (parse_outcome b0 dv (o + start) (littleEndian sd) h) as [(v & h' & ->)| ->];
      [|reflexivity].
    apply (IH (start + size (field_of b0))); [exact Hlay|].
    change (sizes_of ((k0, b0) :: pre)) with (size (field_of b0) + sizes_of pre) in Hout.
    replace (o + (start + size (field_of b0) + sizes_of pre))
      with (o + (start + (size (field_of b0) + sizes_of pre))) by lia.
    exact Hout.
Qed.

(** C2 (as the code has it). [from] checks nothing at entry; the fields are
    decoded in the order of [Object.entries] and a failure can only come
    from a field's decoder.  For a struct of built-in fields with distinct
    names other than [__proto__]: inside the bounds, with valid sizes,
    [from] succeeds; it throws a RangeError, and returns no record, as soon
    as the decoder of some field runs out at the field's position
    ([runs_out]; the position is the sum of the sizes of the fields
    declared before it when no name is an array index), in particular
    outside the bounds when every field is a non-empty byte array or an
    integer.  A struct with a null-terminated
    text field can succeed on a short buffer. *)
Theorem from_checks_no_bounds (n : string) (decl : list (string * Builtin))
    (options : StructOptions) (sd : Struct) (buffer : BufferSource)
    (offset : option Z) (h : Heap) :
  struct n (builtin_fields decl) options = Ok sd ->
  distinct (names (builtin_fields decl)) = true ->
  proto_free (map fst decl) = true ->
  source_wf buffer ->
  (forallb valid_size (map snd decl) = true ->
   0 <= default 0 offset ->
   default 0 offset + struct_size sd <= source_length buffer ->
   exists r h', from sd buffer offset h = Ok (r, h') /\ dollar_struct r = sd) /\
  (index_free (map fst decl) = true ->
   forall pre k b post,
     decl = pre ++ (k, b) :: post ->
     runs_out b (view_of buffer) (default 0 offset + sizes_of pre) = true ->
     from sd buffer offset h = Throw RangeError) /\
  (forallb reads_whole_slot (map snd decl) = true -> decl <> [] ->
   default 0 offset < 0 \/ source_length buffer < default 0 offset + struct_size sd ->
   from sd buffer offset h = Throw RangeError).
Proof.
  intros Hs Hd _ Hsrc. pose proof (source_view_wf buffer Hsrc) as Hwf.
  destruct (struct_members _ _ _ _ Hs) as (_ & Hf & Hsz & Htot & Hoff & _).
  assert (Hlay : laid_out (fieldOffsets sd) 0 (builtin_fields decl))
    by (rewrite Hoff; now apply layout_laid_out).
  split; [|split].
  - intros Hvalid Hlo Hhi.
    rewrite (from_spec n decl options sd buffer offset h Hs Hd Hvalid Hwf Hlo Hhi).
    eexists _, _. split; reflexivity.
  - intros _ pre k b post Hdecl Hout. subst decl.
    unfold from. rewrite Hf. unfold bind.
    rewrite (parse_fields_runs_out sd (view_of buffer) (default 0 offset) k b post Hwf pre 0);
      [reflexivity | exact Hlay | now rewrite Z.add_0_l].
  - intros Hall Hne Hout.
    unfold from. rewrite Hf. unfold bind.
    rewrite (parse_fields_outside sd (view_of buffer) (default 0 offset) decl Hwf Hall 0);
      try assumption; [reflexivity|].
    unfold sizes_of. rewrite <- Hsz, Z.add_0_r.
    destruct buffer; simpl in *; exact Hout.
Qed.

Lemma from_checks_no_bounds_witness :
  exists sd,
    struct "Simple" (builtin_fields [("value"%string, Uint32)]) le_opts = Ok sd /\
    (exists r h', from sd (ArrayBuffer [0; 0; 0; 0; 0x78; 0x56; 0x34; 0x12]) (Some 4) []
                  = Ok (r, h')) /\
    from sd (ArrayBuffer [0; 0; 0; 0; 0x78; 0x56; 0x34; 0x12]) (Some 5) []
      = Throw RangeError.
Proof.
  pose (sd := {| name := "Simple"; struct_size := 4;
                 fields := builtin_fields [("value"%string, Uint32)];
                 littleEndian := true; totalSize := 4;
                 fieldOffsets := [("value"%string, 0)] |}).
  assert (Hsrc : source_wf (ArrayBuffer [0; 0; 0; 0; 0x78; 0x56; 0x34; 0x12])).
  { simpl. unfold bytes_ok, is_byte. repeat constructor; lia. }
  exists sd. split; [reflexivity|]. split.
  - destruct (from_checks_no_bounds "Simple" [("value"%string, Uint32)] le_opts sd
                (ArrayBuffer [0; 0; 0; 0; 0x78; 0x56; 0x34; 0x12]) (Some 4) []
                eq_refl eq_refl eq_refl Hsrc) as [Hin _].
    destruct (Hin eq_refl) as (r & h' & Hfrom & _); [simpl; lia | simpl; lia |].
    exists r, h'. exact Hfrom.
  - destruct (from_checks_no_bounds "Simple" [("value"%string, Uint32)] le_opts sd
                (ArrayBuffer [0; 0; 0; 0; 0x78; 0x56; 0x34; 0x12]) (Some 5) []
                eq_refl eq_refl eq_refl Hsrc) as (_ & Hout & _).
    apply (Hout eq_refl [] "value"%string Uint32 []); reflexivity.
Defined.

(** C2 as stated fails: a struct of size 4 is decoded from a 2-byte buffer. *)
Lemma from_short_buffer_succeeds :
  exists sd r,
    struct "Name" (builtin_fields [("name"%string, CString 4)]) no_opts = Ok sd /\
    source_length (ArrayBuffer [65; 0]) < 0 + struct_size sd /\
    run (from sd (ArrayBuffer [65; 0]) None) [] = Ok r /\
    obj_get (props r) "name" = VString [65].
Proof.
  eexists _, _. split; [reflexivity|]. split; [simpl; lia|].
  split; reflexivity.
Qed.

(** ** Endianness *)

Lemma multi_byte_slot (b : Builtin) (le : bool) (h : Heap) (v : Value) (w : nat) (z : Z) :
  multi_byte b = Some w -> stored_int b v = Some z ->
  encode_slot b le h v = Some (digits le w z) /\ size (field_of b) = Z.of_nat w.
Proof.
  destruct b; simpl; try discriminate; intros [= <-]; destruct v; try discriminate;
    intros [= <-]; split; reflexivity.
Qed.

Lemma multi_byte_decode (b : Builtin) (le : bool) (slot : list Z) (w : nat) :
  multi_byte b = Some w ->
  exists v, decode_slot b le slot = DValue v /\
            payload v = Some (if signed b then to_signed w (unsigned_of le slot)
                              else unsigned_of le slot).
Proof.
  destruct b; simpl; try discriminate; intros [= <-]; eexists; split; reflexivity.
Qed.

(** C8. A little-endian struct with one [uint32] field encodes 12345 as
    0x39 0x30 0 0.  In general, for a struct of built-in fields none of
    which is named [__proto__] or like an array index (the fields then lie
    in the order of declaration), the one flag of the struct,
    [options.littleEndian ?? false], orders the bytes of every multi-byte
    integer field, in [to] and in [from] alike; the decoders and encoders
    of single-byte, byte-array and text fields ignore it. *)
Theorem endianness_is_uniform :
  (exists sd,
     struct "Count" (builtin_fields [("count"%string, Uint32)]) le_opts = Ok sd /\
     run (to sd [("count"%string, VNumber 12345)]) [] = Ok [0x39; 0x30; 0; 0]) /\
  (forall n decl options sd values h,
     struct n (builtin_fields decl) options = Ok sd ->
     distinct (names (builtin_fields decl)) = true ->
     proto_free (map fst decl) = true ->
     index_free (map fst decl) = true ->
     forallb valid_size (map snd decl) = true ->
     struct_size sd <= max_byte_length ->
     (forall k b, In (k, b) decl -> typed_or_missing b h (obj_get values k) = true) ->
     littleEndian sd = default false (opt_littleEndian options) /\
     exists buf,
       to sd values h = Ok (buf, h) /\
       forall pre k b post w z,
         decl = pre ++ (k, b) :: post ->
         multi_byte b = Some w -> stored_int b (obj_get values k) = Some z ->
         slice buf (sizes_of pre) (Z.of_nat w) =
         (if littleEndian sd then le_bytes w (z mod 2 ^ (8 * Z.of_nat w))
          else rev (le_bytes w (z mod 2 ^ (8 * Z.of_nat w))))) /\
  (forall n decl options sd buffer offset h,
     struct n (builtin_fields decl) options = Ok sd ->
     distinct (names (builtin_fields decl)) = true ->
     proto_free (map fst decl) = true ->
     index_free (map fst decl) = true ->
     forallb valid_size (map snd decl) = true ->
     source_wf buffer -> 0 <= default 0 offset ->
     default 0 offset + struct_size sd <= source_length buffer ->
     exists r h',
       from sd buffer offset h = Ok (r, h') /\
       forall pre k b post w,
         decl = pre ++ (k, b) :: post -> multi_byte b = Some w -> reserved k = false ->
         let slot := slice (DataView.buffer (view_of buffer))
                       (DataView.byteOffset (view_of buffer) + (default 0 offset + sizes_of pre))
                       (Z.of_nat w) in
         let u := le_value (if littleEndian sd then slot else rev slot) in
         payload (obj_get (props r) k) = Some (if signed b then to_signed w u else u)) /\
  (forall b, multi_byte b = None ->
     forall dv off v h,
       parse (field_of b) dv off true h = parse (field_of b) dv off false h /\
       write (field_of b) dv off v true h = write (field_of b) dv off v false h).
Proof.
  split; [eexists; split; reflexivity|]. split; [|split].
  - intros n decl options sd values h Hs Hd _ _ Hvalid Hmax Hall.
    destruct (struct_members _ _ _ _ Hs) as (_ & _ & _ & _ & _ & Hle).
    split; [exact Hle|].
    destruct (encode_record_total decl (littleEndian sd) h values Hall) as [bs Hbs].
    destruct (to_spec n decl options sd values h bs Hs Hd Hvalid Hmax Hbs) as [Hto _].
    exists bs. split; [exact Hto|].
    intros pre k b post w z -> Hw Hz.
    destruct (encode_record_split pre post k b _ h values bs Hvalid Hbs)
      as (bpre & slot & bpost & -> & Hslot & Hl1 & Hl2).
    destruct (multi_byte_slot b (littleEndian sd) h _ w z Hw Hz) as [Hsl Hsz].
    rewrite Hsl in Hslot. apply some_eq in Hslot. subst slot.
    rewrite slice_middle by (unfold zlen in *; lia). reflexivity.
  - intros n decl options sd buffer offset h Hs Hd _ _ Hvalid Hsrc Hlo Hhi.
    pose proof (source_view_wf buffer Hsrc) as Hwf.
    rewrite (from_spec n decl options sd buffer offset h Hs Hd Hvalid Hwf Hlo Hhi).
    eexists _, _. split; [reflexivity|].
    intros pre k b post w -> Hw Hres. cbv zeta. cbn [props].
    rewrite obj_get_define_members by exact Hres.
    assert (Hd' : distinct (map fst (pre ++ (k, b) :: post)) = true).
    { unfold names, builtin_fields in Hd. rewrite map_map in Hd. exact Hd. }
    pose proof (decode_fields_lookup pre post k b (littleEndian sd) (view_of buffer)
                  Hd' (default 0 offset) [] h) as Hlook.
    cbv zeta in Hlook.
    replace (base b (view_of buffer)) with (DataView.byteOffset (view_of buffer)) in Hlook
      by (destruct b; simpl in Hw; try discriminate; reflexivity).
    replace (size (field_of b)) with (Z.of_nat w) in Hlook
      by (destruct b; simpl in Hw; try discriminate; injection Hw as <-; reflexivity).
    destruct (multi_byte_decode b (littleEndian sd)
                (slice (DataView.buffer (view_of buffer))
                   (DataView.byteOffset (view_of buffer) + (default 0 offset + sizes_of pre))
                   (Z.of_nat w)) w Hw) as (v & Hdec & Hpay).
    rewrite Hdec in Hlook. rewrite Hlook. exact Hpay.
  - intros b Hb dv off v h. destruct b; simpl in Hb; try discriminate; split; reflexivity.
Qed.

Lemma endianness_is_uniform_witness :
  exists sd buf,
    struct "Header" (builtin_fields Header_decl) le_opts = Ok sd /\
    to sd Header_data Header_heap = Ok (buf, Header_heap) /\
    slice buf 7 4 = [0x39; 0x30; 0; 0].
Proof.
  pose (sd := {| name := "Header"; struct_size := 11;
                 fields := builtin_fields Header_decl; littleEndian := true;
                 totalSize := 11;
                 fieldOffsets := [("magic"%string, 0); ("version"%string, 4);
                                  ("flags"%string, 6); ("count"%string, 7)] |}).
  destruct endianness_is_uniform as (_ & Hto & _).
  destruct (Hto "Header"%string Header_decl le_opts sd Header_data Header_heap
              eq_refl eq_refl eq_refl eq_refl eq_refl) as (_ & buf & Hbuf & Hslots).
  - unfold max_byte_length. simpl. lia.
  - intros k b Hin. simpl in Hin.
    destruct Hin as [[= <- <-]|[[= <- <-]|[[= <- <-]|[[= <- <-]|[]]]]]; reflexivity.
  - exists sd, buf. split; [reflexivity|]. split; [exact Hbuf|].
    apply (Hslots [("magic"%string, Bytes 4); ("version"%string, Uint16);
                   ("flags"%string, Uint8)] "count"%string Uint32 [] 4%nat 12345);
      reflexivity.
Defined.

(** ** Fixed text and the position of the view *)

(** C4 fails on the code. A Uint8Array that starts at byte 1 of its
    ArrayBuffer shows the single byte 66 ('B'); [from] decodes a [string(1)]
    field of it as 'A', the byte at position 0 of the underlying buffer,
    which lies outside the view.  The decoders of [cstring(1)] and
    [bytes(1)] read the byte of the view. *)
Theorem fixed_text_reads_outside_view :
  source_wf offset_view /\ source_bytes offset_view = [66] /\
  (let? sd := struct "Tag" (builtin_fields [("tag"%string, FixedString 1)]) no_opts in
   let? r := run (from sd offset_view None) [] in
   Ok (obj_get (props r) "tag")) = Ok (VString [65]) /\
  (let? sd := struct "Tag" (builtin_fields [("tag"%string, CString 1)]) no_opts in
   let? r := run (from sd offset_view None) [] in
   Ok (obj_get (props r) "tag")) = Ok (VString [66]) /\
  (let? sd := struct "Tag" (builtin_fields [("tag"%string, Bytes 1)]) no_opts in
   from sd offset_view None []) =
  Ok ({| props := [("tag"%string, VBytes 0%nat)];
         dollar_struct := {| name := "Tag"; struct_size := 1;
                             fields := builtin_fields [("tag"%string, Bytes 1)];
                             littleEndian := false; totalSize := 1;
                             fieldOffsets := [("tag"%string, 0)] |} |}, [[66]]).
Proof.
  split.
  - simpl. unfold bytes_ok, is_byte. repeat split; try lia. repeat constructor; lia.
  - repeat split.
Qed.

(** ** Null-terminated text *)

Lemma set_at (dv : DataView.t) (pre old post new : list Z) (idx : Z) (le : bool)
    (w : nat) (v : Z) :
  DataView.buffer dv = pre ++ old ++ post ->
  DataView.byteOffset dv + idx = zlen pre ->
  0 <= idx -> idx + Z.of_nat w <= DataView.byteLength dv ->
  length old = w -> new = digits le w v ->
  DataView.SetViewValue dv idx le w (Ok v)
  = Ok (DataView.mk (pre ++ new ++ post) (DataView.byteOffset dv) (DataView.byteLength dv)).
Proof.
  intros Hbuf Hidx H0 Hfit Hold ->.
  rewrite SetViewValue_in by assumption. rewrite Hbuf, Hidx.
  fold (digits le w v). rewrite splice_middle; [reflexivity | reflexivity |].
  rewrite digits_length. now symmetry.
Qed.

Lemma setUint8_at (dv : DataView.t) (pre post : list Z) (o b idx : Z) :
  DataView.buffer dv = pre ++ o :: post ->
  DataView.byteOffset dv + idx = zlen pre ->
  0 <= idx -> idx + 1 <= DataView.byteLength dv -> is_byte b ->
  DataView.setUint8 dv idx (VNumber b)
  = Ok (DataView.mk (pre ++ b :: post) (DataView.byteOffset dv) (DataView.byteLength dv)).
Proof.
  intros Hbuf Hidx H0 Hfit Hb. unfold DataView.setUint8. cbn [DataView.ToNumber].
  apply (set_at dv pre [o] post [b] idx false 1 b); try assumption; try reflexivity.
  unfold digits. symmetry. now apply byte_digits.
Qed.

Lemma store_loop_at (bs : list Z) :
  bytes_ok bs ->
  forall dv pre old post offset i,
    DataView.buffer dv = pre ++ old ++ post ->
    DataView.byteOffset dv + offset + i = zlen pre ->
    0 <= offset + i -> offset + i + zlen bs <= DataView.byteLength dv ->
    length old = length bs ->
    FieldTypes.store_loop dv offset i bs
    = Ok (DataView.mk (pre ++ bs ++ post) (DataView.byteOffset dv) (DataView.byteLength dv)).
Proof.
  induction 1 as [|b bs Hb _ IH]; intros dv pre old post offset i Hbuf Hi H0 Hfit Hlen.
  - destruct old; [|discriminate]. simpl in *. rewrite <- Hbuf. now destruct dv.
  - destruct old as [|o old]; [discriminate|]. injection Hlen as Hlen.
    unfold zlen in Hfit. simpl length in Hfit.
    cbn [FieldTypes.store_loop app].
    rewrite (setUint8_at dv pre (old ++ post) o b) by (assumption || lia).
    cbn [obind].
    rewrite (IH _ (pre ++ [b]) old post offset (i + 1)); cbn [DataView.buffer
      DataView.byteOffset DataView.byteLength].
    + now rewrite <- !app_assoc.
    + now rewrite <- !app_assoc.
    + rewrite zlen_app. unfold zlen at 2. simpl. lia.
    + lia.
    + unfold zlen. lia.
    + exact Hlen.
Qed.

Lemma until_zero_terminated (a : list Z) : until_zero (a ++ [0]) = until_zero a.
Proof.
  induction a as [|x a IH]; simpl; [reflexivity|].
  destruct (x =? 0); [reflexivity | now rewrite IH].
Qed.

Lemma scan_loop_nonzero (dv : DataView.t) (offset : Z) (n : nat) :
  forall i bs, FieldTypes.scan_loop dv offset i n = Ok bs -> Forall (fun b => b <> 0) bs.
Proof.
  induction n as [|n IH]; intros i bs; cbn [FieldTypes.scan_loop].
  - intros [= <-]. constructor.
  - destruct (DataView.getUint8 dv (offset + i)) as [byte| |]; cbn [obind]; try discriminate.
    destruct (Z.eqb_spec byte 0) as [->|Hne].
    + intros [= <-]. constructor.
    + destruct (FieldTypes.scan_loop dv offset (i + 1) n) as [rest| |] eqn:Hrest;
        cbn [obind]; try discriminate.
      intros [= <-]. constructor; [exact Hne | now apply (IH (i + 1))].
Qed.

(** Whatever the buffer holds, a text decoded by [cstring] has no U+0000. *)
Lemma cstring_parse_no_nul (n : Z) (dv : DataView.t) (off : Z) (le : bool) (h h' : Heap)
    (v : Value) :
  parse (FieldTypes.cstring n) dv off le h = Ok (v, h') ->
  exists t, v = VString t /\ Forall (fun c => c <> 0) t.
Proof.
  cbn [parse FieldTypes.cstring]. unfold FieldTypes.check_length, lift.
  destruct (n <? 0); [discriminate|].
  destruct (FieldTypes.scan_loop dv off 0 (Z.to_nat n)) as [bs| |] eqn:Hscan;
    cbn [obind]; try discriminate.
  intros [= <- _]. eexists. split; [reflexivity|].
  apply decode_nonzero. exact (scan_loop_nonzero dv off _ 0 bs Hscan).
Qed.

Lemma split_last (old : list Z) (n : Z) :
  1 <= n -> zlen old = n ->
  exists old1 x, old = old1 ++ [x] /\ zlen old1 = n - 1.
Proof.
  intros Hn Hlen. unfold zlen in *.
  destruct (exists_last (l := old)) as (old1 & x & ->).
  { intros ->. simpl in Hlen. lia. }
  exists old1, x. split; [reflexivity|]. rewrite length_app in Hlen. simpl in Hlen. lia.
Qed.

(** C6 (as the code has it). For [cstring(n)], n >= 1, on any view that
    holds the slot: decoding gives the text of the slot's bytes before the
    first zero byte (all n of them when none is zero), and a decoded text
    never contains U+0000.  Encoding a text of more than n-1 bytes fills the
    slot with the first n-1 encoded bytes and a zero byte; decoding that
    slot gives the text of those n-1 bytes up to their first zero byte, so
    exactly those n-1 bytes when none of them is zero. *)
Theorem cstring_truncates (n : Z) (s : list Z) (dv : DataView.t) (off : Z)
    (le : bool) (h : Heap) :
  1 <= n -> units_ok s = true -> DataView.wf dv ->
  0 <= off -> off + n <= DataView.byteLength dv ->
  parse (FieldTypes.cstring n) dv off le h
    = Ok (VString (TextCodec.decode
                     (until_zero (slice (DataView.buffer dv)
                                    (DataView.byteOffset dv + off) n))), h) /\
  (forall dv0 off0 h0 v h', parse (FieldTypes.cstring n) dv0 off0 le h0 = Ok (v, h') ->
     exists t, v = VString t /\ Forall (fun c => c <> 0) t) /\
  (n - 1 < zlen (TextCodec.encode s) ->
   exists dv',
     write (FieldTypes.cstring n) dv off (VString s) le h = Ok (dv', h) /\
     slice (DataView.buffer dv') (DataView.byteOffset dv + off) n
       = take (Z.to_nat (n - 1)) (TextCodec.encode s) ++ [0] /\
     parse (FieldTypes.cstring n) dv' off le h
       = Ok (VString (TextCodec.decode
                        (until_zero (take (Z.to_nat (n - 1)) (TextCodec.encode s)))), h) /\
     (Forall (fun b => b <> 0) (take (Z.to_nat (n - 1)) (TextCodec.encode s)) ->
      parse (FieldTypes.cstring n) dv' off le h
        = Ok (VString (TextCodec.decode (take (Z.to_nat (n - 1)) (TextCodec.encode s))), h))).
Proof.
  intros Hn Hu Hwf Hoff Hfit.
  assert (Hvalid : valid_size (CString n) = true) by (apply Z.leb_le; lia).
  split; [|split].
  - exact (parse_slot (CString n) le dv off h Hvalid Hwf Hoff Hfit).
  - intros dv0 off0 h0 v h'. apply cstring_parse_no_nul.
  - intros Hlong. set (e := TextCodec.encode s) in *.
    pose proof Hwf as (Hbo & Hbl & Hlen).
    destruct (split_at (DataView.buffer dv) (DataView.byteOffset dv + off) n)
      as (Hbuf & Hl1 & Hl2); try lia.
    set (pre := take (Z.to_nat (DataView.byteOffset dv + off)) (DataView.buffer dv)) in *.
    set (post := drop (Z.to_nat (DataView.byteOffset dv + off + n)) (DataView.buffer dv)) in *.
    destruct (split_last (slice (DataView.buffer dv) (DataView.byteOffset dv + off) n) n)
      as (old1 & x & Hold & Hold1); [lia | unfold zlen; lia |].
    rewrite Hold in Hbuf. rewrite <- app_assoc in Hbuf.
    set (e1 := take (Z.to_nat (n - 1)) e).
    assert (He1 : zlen e1 = n - 1) by (apply take_zlen; lia).
    assert (Hok : bytes_ok e1) by (apply Forall_take; now apply encode_units_ok).
    set (dv' := DataView.mk (pre ++ e1 ++ [0] ++ post)
                  (DataView.byteOffset dv) (DataView.byteLength dv)).
    assert (Hw : write (FieldTypes.cstring n) dv off (VString s) le h = Ok (dv', h)).
    { cbn [write FieldTypes.cstring FieldTypes.encode_input obind]. fold e. fold (zlen e).
      rewrite Z.min_r by lia. fold e1. cbn [obind].
      rewrite (store_loop_at e1 Hok dv pre old1 ([x] ++ post) off 0);
        try assumption; unfold zlen in *; try lia.
      cbn [obind].
      erewrite (setUint8_at _ (pre ++ e1) post x 0);
        cbn [DataView.buffer DataView.byteOffset DataView.byteLength].
      - unfold dv'. now rewrite <- !app_assoc.
      - now rewrite <- !app_assoc.
      - rewrite zlen_app. unfold zlen. lia.
      - lia.
      - lia.
      - unfold is_byte. lia. }
    assert (Hslice : slice (DataView.buffer dv') (DataView.byteOffset dv + off) n
                     = e1 ++ [0]).
    { unfold dv'. cbn [DataView.buffer]. rewrite (app_assoc e1 [0] post).
      apply slice_middle; [lia|]. rewrite length_app. unfold zlen in He1. simpl. lia. }
    assert (Hwf' : DataView.wf dv').
    { unfold DataView.wf, dv'. cbn. repeat split; try lia.
      rewrite !length_app. simpl. rewrite Hbuf in Hlen. rewrite !length_app in Hlen.
      simpl in Hlen. unfold zlen in *. lia. }
    assert (Hp : parse (FieldTypes.cstring n) dv' off le h
                 = Ok (VString (TextCodec.decode (until_zero e1)), h)).
    { etransitivity; [exact (parse_slot (CString n) le dv' off h Hvalid Hwf' Hoff Hfit)|].
      cbn [base size field_of FieldTypes.cstring decode_slot deliver].
      change (DataView.byteOffset dv') with (DataView.byteOffset dv).
      now rewrite Hslice, until_zero_terminated. }
    exists dv'. repeat split; try assumption.
    intros Hnz. now rewrite Hp, until_zero_all.
Qed.

Lemma cstring_truncates_witness :
  exists dv',
    write (FieldTypes.cstring 4) (DataView.mk [9; 9; 9; 9; 9; 9] 1 5) 1
      (VString (txt "Hello")) false [] = Ok (dv', []) /\
    DataView.buffer dv' = [9; 9; 72; 101; 108; 0] /\
    parse (FieldTypes.cstring 4) dv' 1 false [] = Ok (VString (txt "Hel"), []).
Proof.
  assert (Hwf : DataView.wf (DataView.mk [9; 9; 9; 9; 9; 9] 1 5))
    by (unfold DataView.wf; simpl; lia).
  destruct (cstring_truncates 4 (txt "Hello") (DataView.mk [9; 9; 9; 9; 9; 9] 1 5) 1
              false [] ltac:(lia) eq_refl Hwf ltac:(lia) ltac:(simpl; lia))
    as (_ & _ & Hlong).
  destruct Hlong as (dv' & Hw & _ & Hp & _); [unfold zlen; simpl; lia|].
  exists dv'. split; [exact Hw|]. split; [|exact Hp].
  cbv in Hw. injection Hw as <-. reflexivity.
Defined.

(** C6 as stated fails: when the first n-1 encoded bytes contain a zero
    byte, decoding stops there and does not yield those n-1 bytes. *)
Lemma cstring_stops_at_embedded_nul :
  exists dv',
    write (FieldTypes.cstring 4) (whole (zeros 4)) 0 (VString [65; 0; 66; 67; 68]) false []
      = Ok (dv', []) /\
    3 < zlen (TextCodec.encode [65; 0; 66; 67; 68]) /\
    DataView.buffer dv' = take 3 (TextCodec.encode [65; 0; 66; 67; 68]) ++ [0] /\
    parse (FieldTypes.cstring 4) dv' 0 false [] = Ok (VString [65], []) /\
    TextCodec.decode (take 3 (TextCodec.encode [65; 0; 66; 67; 68])) = [65; 0; 66] /\
    [65] <> [65; 0; 66].
Proof.
  eexists. split; [reflexivity|]. split; [unfold zlen; simpl; lia|].
  repeat split. discriminate.
Qed.

(** ** [$clone] *)

Lemma obj_set_fresh_app (seen rest : JsObject) (k : string) (v v' : Value) :
  ~ In k (map fst seen) ->
  obj_set (seen ++ (k, v) :: rest) k v' = seen ++ (k, v') :: rest.
Proof.
  induction seen as [|[k0 v0] seen IH]; intros Hin; simpl in *.
  - now rewrite String.eqb_refl.
  - destruct (String.eqb_spec k0 k); [tauto|]. rewrite IH by tauto. reflexivity.
Qed.

Lemma ref_ok_grow (h : Heap) (c : list Z) (entries : JsObject) :
  Forall (fun kv => ref_ok h (snd kv)) entries ->
  Forall (fun kv => ref_ok (h ++ [c]) (snd kv)) entries.
Proof.
  intros H. eapply Forall_impl; [exact H|]. intros [k1 v1]. simpl.
  destruct v1; simpl; try tauto. rewrite length_app. simpl. lia.
Qed.

Lemma clone_arrays_cloned (entries : JsObject) :
  forall seen h,
    distinct (map fst (seen ++ entries)) = true ->
    Forall (fun kv => ref_ok h (snd kv)) entries ->
    clone_arrays entries (seen ++ entries) h
    = Ok (seen ++ fst (cloned entries h), snd (cloned entries h)).
Proof.
  induction entries as [|[k v] entries IH]; intros seen h Hd Hrefs.
  - reflexivity.
  - apply Forall_cons in Hrefs as [Hv Hrefs].
    assert (Hk : ~ In k (map fst seen)).
    { rewrite map_app in Hd. simpl in Hd. now apply distinct_app_mid in Hd. }
    assert (Hnext : forall v' h',
              Forall (fun kv => ref_ok h' (snd kv)) entries ->
              clone_arrays entries (seen ++ (k, v') :: entries) h'
              = Ok (seen ++ (k, v') :: fst (cloned entries h'), snd (cloned entries h'))).
    { intros v' h' Hrefs'.
      replace (seen ++ (k, v') :: entries) with ((seen ++ [(k, v')]) ++ entries)
        by (now rewrite <- app_assoc).
      rewrite IH; [now rewrite <- app_assoc | | exact Hrefs'].
      rewrite <- app_assoc. simpl. rewrite map_app in *. exact Hd. }
    destruct v; cbn [clone_arrays cloned fst snd]; try (now apply Hnext).
    simpl in Hv. destruct (h !! l) as [content|] eqn:Hl.
    + unfold bind, copy_array. rewrite Hl. cbn [alloc fst snd default].
      rewrite obj_set_fresh_app by exact Hk.
      apply Hnext. now apply ref_ok_grow.
    + apply lookup_ge_None in Hl. lia.
Qed.

Lemma cloned_keys (entries : JsObject) :
  forall h, map fst (fst (cloned entries h)) = map fst entries.
Proof.
  induction entries as [|[k v] entries IH]; intros h; [reflexivity|].
  destruct v; simpl; now rewrite IH.
Qed.

Lemma cloned_heap (entries : JsObject) :
  forall h, exists ext, snd (cloned entries h) = h ++ ext.
Proof.
  induction entries as [|[k v] entries IH]; intros h.
  - exists []. simpl. now rewrite app_nil_r.
  - destruct v; simpl; try apply IH.
    destruct (IH (h ++ [default [] (h !! l)])) as [ext ->].
    eexists. now rewrite <- app_assoc.
Qed.


Lemma inherited_not_bytes (k : string) (l : loc) : inherited k <> VBytes l.
Proof. unfold inherited. destruct (existsb _ _); discriminate. Qed.

Lemma cloned_lookup (entries : JsObject) (k : string) :
  forall h,
    Forall (fun kv => ref_ok h (snd kv)) entries ->
    match obj_get entries k with
    | VBytes l =>
        exists l' content,
          obj_get (fst (cloned entries h)) k = VBytes l' /\
          h !! l = Some content /\ snd (cloned entries h) !! l' = Some content /\
          (length h <= l')%nat
    | v => obj_get (fst (cloned entries h)) k = v
    end.
Proof.
  induction entries as [|[k0 v0] entries IH]; intros h Hrefs.
  { simpl. unfold inherited. destruct (existsb _ _); reflexivity. }
  apply Forall_cons in Hrefs as [Hv Hrefs]. simpl in Hv.
  assert (Hgrow : forall c, Forall (fun kv => ref_ok (h ++ [c]) (snd kv)) entries)
    by (intros c; now apply ref_ok_grow).
  cbn [obj_get]. destruct (String.eqb_spec k0 k) as [->|Hne].
  - destruct v0; simpl; rewrite ?String.eqb_refl; try reflexivity.
    simpl in Hv.
    destruct (h !! l) as [content|] eqn:Hl; [|apply lookup_ge_None in Hl; lia].
    exists (length h), content. repeat split; try lia.
    change (default [] (Some content)) with content.
    destruct (cloned_heap entries (h ++ [content])) as [ext ->].
    rewrite <- app_assoc. now apply list_lookup_middle.
  - assert (Hskip : forall v h1, obj_get ((k0, v) :: fst (cloned entries h1)) k
                      = obj_get (fst (cloned entries h1)) k).
    { intros v h1. simpl. destruct (String.eqb_spec k0 k); [contradiction | reflexivity]. }
    destruct v0; cbn [cloned fst snd]; rewrite Hskip; try apply (IH h Hrefs).
    specialize (IH (h ++ [default [] (h !! l)]) (Hgrow _)).
    destruct (obj_get entries k) eqn:Hget; try exact IH.
    destruct IH as (l' & content & H1 & H2 & H3 & H4).
    exists l', content. repeat split; try assumption.
    + assert (Hin : (l0 < length h)%nat).
      { clear - Hrefs Hget. induction entries as [|[k1 v1] entries IH];
          [now destruct (inherited_not_bytes k l0)|].
        apply Forall_cons in Hrefs as [Hv Hrefs]. simpl in *.
        destruct (String.eqb k1 k); [subst v1; exact Hv | now apply IH]. }
      rewrite lookup_app_l in H2 by exact Hin. exact H2.
    + rewrite length_app in H4. simpl in H4. lia.
Qed.

Lemma filter_members_id (o : JsObject) :
  Forall (fun kv => reserved (fst kv) = false) o -> define_members o = o.
Proof.
  unfold define_members. induction 1 as [|[k v] o Hk _ IH]; simpl; [reflexivity|].
  simpl in Hk. rewrite Hk. simpl. now rewrite IH.
Qed.

Lemma obj_get_ref_ok (h : Heap) (o : JsObject) (k : string) :
  Forall (fun kv => ref_ok h (snd kv)) o -> ref_ok h (obj_get o k).
Proof.
  induction 1 as [|[k0 v0] o Hv _ IH]; simpl.
  { unfold inherited. destruct (existsb _ _); exact I. }
  destruct (String.eqb k0 k); assumption.
Qed.

Lemma obj_set_keys_in (o : JsObject) (k x : string) (v : Value) :
  In x (map fst (obj_set o k v)) -> x = k \/ In x (map fst o).
Proof.
  induction o as [|[k0 v0] o IH]; simpl.
  - intros [<-|[]]. now left.
  - destruct (String.eqb_spec k0 k); simpl; intros [<-|Hin]; try tauto;
      destruct (IH Hin); tauto.
Qed.

Lemma obj_set_NoDup (o : JsObject) (k : string) (v : Value) :
  NoDup (map fst o) -> NoDup (map fst (obj_set o k v)).
Proof.
  induction o as [|[k0 v0] o IH]; simpl; intros Hnd.
  - repeat constructor. apply not_elem_of_nil.
  - apply NoDup_cons in Hnd as [Hk0 Hnd]. rewrite list_elem_of_In in Hk0.
    destruct (String.eqb_spec k0 k); simpl.
    + apply NoDup_cons. rewrite list_elem_of_In. tauto.
    + apply NoDup_cons. rewrite list_elem_of_In. split; [|now apply IH].
      intros Hin. apply obj_set_keys_in in Hin as [->|Hin]; tauto.
Qed.

Lemma obj_set_Forall (P : string * Value -> Prop) (o : JsObject) (k : string) (v : Value) :
  Forall P o -> P (k, v) -> Forall P (obj_set o k v).
Proof.
  induction 1 as [|[k0 v0] o Hp Ho IH]; simpl; intros Hv.
  - now repeat constructor.
  - destruct (String.eqb_spec k0 k) as [->|_]; constructor; auto.
Qed.

Lemma decode_fields_ok (decl : list (string * Builtin)) (le : bool) (dv : DataView.t) :
  forall pos result h,
    NoDup (map fst result) -> Forall (fun kv => ref_ok h (snd kv)) result ->
    NoDup (map fst (fst (decode_fields decl le dv pos result h))) /\
    Forall (fun kv => ref_ok (snd (decode_fields decl le dv pos result h)) (snd kv))
      (fst (decode_fields decl le dv pos result h)).
Proof.
  induction decl as [|[k b] decl IH]; intros pos result h Hnd Hrefs; simpl.
  - split; assumption.
  - destruct (decode_slot b le _) as [content|v] eqn:Hds.
    + apply IH; [now apply obj_set_NoDup|].
      apply obj_set_Forall; [now apply ref_ok_grow|].
      simpl. rewrite length_app. simpl. lia.
    + apply IH; [now apply obj_set_NoDup|].
      apply obj_set_Forall; [exact Hrefs|].
      (* a decoded scalar is no reference *)
      destruct b; simpl in Hds; try discriminate; injection Hds as <-; exact I.
Qed.

Lemma filter_members_NoDup (o : JsObject) :
  NoDup (map fst o) -> NoDup (map fst (define_members o)).
Proof.
  unfold define_members. induction o as [|[k v] o IH]; simpl; intros Hnd; [constructor|].
  apply NoDup_cons in Hnd as [Hk Hnd].
  destruct (reserved k); simpl; [now apply IH|].
  apply NoDup_cons. split; [|now apply IH].
  rewrite list_elem_of_In in *. intros Hin. apply Hk.
  apply in_map_iff in Hin as ([k1 v1] & <- & Hin).
  apply filter_In in Hin as [Hin _]. apply in_map_iff. now exists (k1, v1).
Qed.

Lemma filter_members_Forall (P : string * Value -> Prop) (o : JsObject) :
  Forall P o ->
  Forall (fun kv => reserved (fst kv) = false /\ P kv) (define_members o).
Proof.
  unfold define_members. induction 1 as [|[k v] o Hp _ IH]; simpl; [constructor|].
  destruct (reserved k) eqn:Hr; simpl; [exact IH|]. constructor; [now split | exact IH].
Qed.

(** The records [from] makes satisfy the invariant. *)
Lemma from_instance_ok (n : string) (decl : list (string * Builtin))
    (options : StructOptions) (sd : Struct) (buffer : BufferSource)
    (offset : option Z) (h : Heap) (r : Instance) (h' : Heap) :
  struct n (builtin_fields decl) options = Ok sd ->
  distinct (names (builtin_fields decl)) = true ->
  forallb valid_size (map snd decl) = true ->
  source_wf buffer -> 0 <= default 0 offset ->
  default 0 offset + struct_size sd <= source_length buffer ->
  from sd buffer offset h = Ok (r, h') -> instance_ok h' r.
Proof.
  intros Hs Hd Hvalid Hsrc Hlo Hhi.
  rewrite (from_spec n decl options sd buffer offset h Hs Hd Hvalid
             (source_view_wf buffer Hsrc) Hlo Hhi).
  intros [= <- <-]. unfold instance_ok. cbn [props].
  destruct (decode_fields_ok decl (littleEndian sd) (view_of buffer) (default 0 offset) [] h)
    as [Hnd Hrefs]; [constructor | constructor |].
  split.
  - apply distinct_NoDup. now apply filter_members_NoDup.
  - now apply filter_members_Forall.
Qed.




(** The scenario of the test suite: the clone's array is changed, the
    original keeps its content. *)
Example clone_then_mutate :
  (let? r := run (from Header_struct
                    (ArrayBuffer [65; 66; 67; 68; 123; 0; 7; 0x39; 0x30; 0; 0]) None) [] in
   Ok (props r))
  = Ok [("magic"%string, VBytes 0%nat); ("version"%string, VNumber 123);
        ("flags"%string, VNumber 7); ("count"%string, VNumber 12345)] /\
  match dollar_clone Header_record Header_heap with
  | Ok (c, h') =>
      get_array (set_element h' 1%nat 0%nat 88) (obj_get (props c) "magic") = Some [88; 66; 67; 68] /\
      get_array (set_element h' 1%nat 0%nat 88) (obj_get (props Header_record) "magic")
        = Some [65; 66; 67; 68]
  | _ => False
  end.
Proof. vm_compute. repeat split. Qed.

(** ** [to] reads the declared keys only *)

Lemma write_fields_ext (sd : Struct) (v1 v2 : JsObject) (fs : Fields) :
  (forall k, In k (names fs) -> obj_get v1 k = obj_get v2 k) ->
  forall dv h, write_fields sd dv v1 fs h = write_fields sd dv v2 fs h.
Proof.
  induction fs as [|[k ft] fs IH]; intros Hagree dv h; [reflexivity|].
  simpl. destruct (offsets_get (fieldOffsets sd) k) as [o|]; [|reflexivity].
  unfold bind. rewrite (Hagree k) by (left; reflexivity).
  destruct (write ft dv o (obj_get v2 k) (littleEndian sd) h) as [[dv' h']| |]; try reflexivity.
  apply IH. intros k' Hin. apply Hagree. right. exact Hin.
Qed.

(** X1. [to] looks up the declared field names and nothing else: two value
    objects that agree on every declared name are encoded alike (same
    buffer, same exception), whatever the field types are and whatever
    other properties the objects carry. *)
Theorem to_reads_declared_keys (sd : Struct) (v1 v2 : JsObject) (h : Heap) :
  (forall k, In k (names (fields sd)) -> obj_get v1 k = obj_get v2 k) ->
  to sd v1 h = to sd v2 h.
Proof.
  intros Hagree. unfold to.
  destruct ((totalSize sd <? 0) || (max_byte_length <? totalSize sd)); [reflexivity|].
  unfold bind. rewrite (write_fields_ext sd v1 v2 (fields sd) Hagree). reflexivity.
Qed.

Lemma to_reads_declared_keys_witness :
  to Header_struct (Header_data ++ [("comment"%string, VString (txt "x"))]) Header_heap
  = to Header_struct Header_data Header_heap.
Proof.
  apply to_reads_declared_keys.
  intros k Hin. simpl in Hin.
  destruct Hin as [<-|[<-|[<-|[<-|[]]]]]; reflexivity.
Defined.

(** ** [$toBuffer] *)

Lemma obj_get_app (o1 o2 : JsObject) (k : string) :
  obj_get (o1 ++ o2) k = if obj_has o1 k then obj_get o1 k else obj_get o2 k.
Proof.
  induction o1 as [|[k' v] o1 IH]; simpl; [reflexivity|].
  destruct (String.eqb k' k); [reflexivity|exact IH].
Qed.

Lemma obj_get_missing (o : JsObject) (k : string) :
  obj_has o k = false -> obj_get o k = inherited k.
Proof.
  induction o as [|[k' v] o IH]; simpl; [reflexivity|].
  destruct (String.eqb k' k); [discriminate|exact IH].
Qed.

Lemma instance_object_get (r : Instance) (k : string) :
  reserved k = false -> obj_get (instance_object r) k = obj_get (props r) k.
Proof.
  intros Hk. unfold instance_object. rewrite obj_get_app.
  destruct (obj_has (props r) k) eqn:Hhas; [reflexivity|].
  rewrite (obj_get_missing _ _ Hhas).
  unfold reserved in Hk. apply orb_false_iff in Hk as [Hk H3].
  apply orb_false_iff in Hk as [H1 H2].
  cbn [obj_get].
  rewrite (String.eqb_sym "$struct"), H1, (String.eqb_sym "$toBuffer"), H2,
    (String.eqb_sym "$clone"), H3.
  reflexivity.
Qed.

(** X2. [$toBuffer] is [to] of the record's own struct applied to the
    record's enumerable properties: when no declared field is named like
    an instance member, the hidden members [$struct], [$toBuffer] and
    [$clone] never reach an encoder.  The record is one whose prototype is
    [Object.prototype], as [from] builds it when no field is named
    [__proto__]. *)
Theorem toBuffer_encodes_own_fields (r : Instance) (h : Heap) :
  forallb (fun k => negb (reserved k)) (names (fields (dollar_struct r))) = true ->
  proto_free (names (fields (dollar_struct r))) = true ->
  dollar_toBuffer r h = to (dollar_struct r) (props r) h.
Proof.
  intros Hnames _. unfold dollar_toBuffer, to.
  destruct ((totalSize (dollar_struct r) <? 0)
            || (max_byte_length <? totalSize (dollar_struct r))); [reflexivity|].
  unfold bind.
  rewrite (write_fields_ext (dollar_struct r) (instance_object r) (props r)); [reflexivity|].
  intros k Hin. apply instance_object_get.
  rewrite forallb_forall in Hnames. apply Hnames in Hin.
  destruct (reserved k); [discriminate|reflexivity].
Qed.

Lemma toBuffer_encodes_own_fields_witness :
  dollar_toBuffer Header_record Header_heap = to Header_struct Header_data Header_heap.
Proof. apply (toBuffer_encodes_own_fields Header_record Header_heap); reflexivity. Defined.

(** ** The only exception of [from] *)

Lemma parse_fields_outcome (sd : Struct) (dv : DataView.t) (o : Z)
    (decl : list (string * Builtin)) :
  forall start result h,
    laid_out (fieldOffsets sd) start (builtin_fields decl) ->
    (exists res h', parse_fields sd dv o (builtin_fields decl) result h = Ok (res, h')) \/
    parse_fields sd dv o (builtin_fields decl) result h = Throw RangeError.
Proof.
  induction decl as [|[k b] decl IH]; intros start result h Hlay.
  - left. eexists _, _. reflexivity.
  - cbn [builtin_fields map fst snd laid_out parse_fields] in Hlay |- *.
    fold (builtin_fields decl) in *.
    destruct Hlay as [Hoff Hlay]. rewrite Hoff. unfold bind at 1 2.
    destruct (parse_outcome b dv (o + start) (littleEndian sd) h) as [(v & h' & ->)| ->];
      [|auto].
    exact (IH _ _ _ Hlay).
Qed.

(** X3. Whatever the buffer, the offset and the declared sizes are, [from]
    on a struct of built-in fields either returns a record or throws a
    RangeError: no other exception leaves it. *)
Theorem from_throws_range_errors_only (n : string) (decl : list (string * Builtin))
    (options : StructOptions) (sd : Struct) (buffer : BufferSource)
    (offset : option Z) (h : Heap) :
  struct n (builtin_fields decl) options = Ok sd ->
  distinct (names (builtin_fields decl)) = true ->
  (exists r h', from sd buffer offset h = Ok (r, h') /\ dollar_struct r = sd) \/
  from sd buffer offset h = Throw RangeError.
Proof.
  intros Hsd Hdist.
  destruct (struct_members _ _ _ _ Hsd) as (_ & Hf & _ & _ & Hoff & _).
  assert (Hlay : laid_out (fieldOffsets sd) 0 (builtin_fields decl)).
  { rewrite Hoff. apply layout_laid_out. exact Hdist. }
  unfold from, bind. rewrite Hf.
  destruct (parse_fields_outcome sd (view_of buffer) (default 0 offset) decl 0 [] h Hlay)
    as [(res & h' & ->)| ->]; [|auto].
  left. eexists _, _. split; reflexivity.
Qed.

Lemma from_throws_range_errors_only_witness :
  (exists r h', from Header_struct (ArrayBuffer [1; 2; 3]) (Some (-4)) [] = Ok (r, h') /\
                dollar_struct r = Header_struct) \/
  from Header_struct (ArrayBuffer [1; 2; 3]) (Some (-4)) [] = Throw RangeError.
Proof.
  apply (from_throws_range_errors_only "Header" Header_decl le_opts); reflexivity.
Defined.

(** ** Integer fields of width 8 *)

(** X4. A 64-bit integer field takes a BigInt of any magnitude: the slot
    holds the eight digits of the value reduced modulo 2^64 in the
    requested byte order, and decoding returns the reduced value (read as
    two's complement by [int64]).  A Number or [undefined] handed to such a
    field throws a TypeError. *)
Theorem wide_integer_wraps (b : Builtin) (sg : bool) (dv : DataView.t) (off v : Z)
    (le : bool) (h : Heap) :
  wide_int b = Some sg ->
  DataView.wf dv -> 0 <= off -> off + 8 <= DataView.byteLength dv ->
  (exists dv',
     write (field_of b) dv off (VBigInt v) le h = Ok (dv', h) /\
     slice (DataView.buffer dv') (DataView.byteOffset dv + off) 8 = digits le 8 v /\
     parse (field_of b) dv' off le h = Ok (VBigInt (wrap 8 sg v), h)) /\
  write (field_of b) dv off (VNumber v) le h = Throw TypeError /\
  write (field_of b) dv off VUndefined le h = Throw TypeError.
Proof.
  intros Hb Hwf Hoff Hfit.
  assert (Hneg : (off <? 0) = false) by (apply Z.ltb_ge; lia).
  destruct b; simpl in Hb; try discriminate; injection Hb as <-;
    cbn [field_of write parse FieldTypes.uint64 FieldTypes.int64];
    unfold DataView.setBigUint64, DataView.setBigInt64,
      DataView.getBigUint64, DataView.getBigInt64;
    cbn [DataView.ToBigInt];
    (split; [|unfold DataView.SetViewValue; rewrite Hneg; split; reflexivity]);
    destruct (get_after_set dv off le 8 v Hwf Hoff Hfit)
      as (dv' & Hset & _ & _ & Hsl & Hget);
    exists dv'; rewrite (lift_ok _ _ _ Hset);
    (split; [reflexivity|]); (split; [exact Hsl|]);
    rewrite Hget; reflexivity.
Qed.

Lemma wide_integer_wraps_witness :
  exists dv',
    write FieldTypes.int64 (DataView.mk (zeros 10) 1 9) 1 (VBigInt (2 ^ 64 - 2)) true []
      = Ok (dv', []) /\
    slice (DataView.buffer dv') 2 8 = [254; 255; 255; 255; 255; 255; 255; 255] /\
    parse FieldTypes.int64 dv' 1 true [] = Ok (VBigInt (-2), []).
Proof.
  assert (Hwf : DataView.wf (DataView.mk (zeros 10) 1 9))
    by (unfold DataView.wf; simpl; lia).
  destruct (wide_integer_wraps Int64 true (DataView.mk (zeros 10) 1 9) 1 (2 ^ 64 - 2)
              true [] eq_refl Hwf) as [(dv' & Hw & Hs & Hp) _]; [lia | simpl; lia |].
  exists dv'. split; [exact Hw|]. split; [exact Hs | exact Hp].
Defined.

(** ** Encoders write inside their slot *)

Lemma view_eta (dv : DataView.t) (bs : list Z) :
  DataView.buffer dv = bs ->
  dv = DataView.mk bs (DataView.byteOffset dv) (DataView.byteLength dv).
Proof. destruct dv; simpl; intros ->; reflexivity. Qed.

Lemma write_elements_at (h : Heap) (l : loc) (content : list Z) (n : nat) :
  h !! l = Some content -> bytes_ok content ->
  forall dv pre old post offset i,
    DataView.buffer dv = pre ++ old ++ post ->
    DataView.byteOffset dv + offset + i = zlen pre ->
    0 <= i -> 0 <= offset + i -> offset + i + Z.of_nat n <= DataView.byteLength dv ->
    length old = n ->
    FieldTypes.write_elements h dv offset (VBytes l) i n
    = Ok (DataView.mk (pre ++ elements content (Z.to_nat i) n ++ post)
            (DataView.byteOffset dv) (DataView.byteLength dv)).
Proof.
  intros Hl Hc. induction n as [|n IH]; intros dv pre old post offset i Hbuf Hpos Hi Hlo Hhi Hlen.
  - destruct old; [|discriminate]. simpl. f_equal. now apply view_eta.
  - destruct old as [|o old]; [discriminate|]. injection Hlen as Hlen.
    cbn [FieldTypes.write_elements FieldTypes.element_or_zero elements app].
    rewrite Hl. cbn [obind].
    rewrite (setUint8_at dv pre (old ++ post) o (nth (Z.to_nat i) content 0) (offset + i));
      [|exact Hbuf | lia | lia | lia |].
    2:{ pose proof (elements_bytes_ok content (Z.to_nat i) 1 Hc) as He.
        simpl in He. now apply Forall_cons in He as [He _]. }
    cbn [obind].
    rewrite (IH _ (pre ++ [nth (Z.to_nat i) content 0]) old post offset (i + 1));
      cbn [DataView.buffer DataView.byteOffset DataView.byteLength];
      [|now rewrite <- app_assoc | rewrite zlen_app; unfold zlen at 2; simpl; lia
       | lia | lia | lia | exact Hlen].
    rewrite <- app_assoc. cbn [app].
    replace (Z.to_nat (i + 1)) with (S (Z.to_nat i)) by lia. reflexivity.
Qed.

Lemma int_write_at (dv : DataView.t) (pre old post : list Z) (off : Z) (le : bool)
    (w : nat) (conv : outcome Z) (z : Z) (h : Heap) :
  conv = Ok z ->
  DataView.buffer dv = pre ++ old ++ post ->
  DataView.byteOffset dv + off = zlen pre ->
  0 <= off -> off + Z.of_nat w <= DataView.byteLength dv ->
  zlen old = Z.of_nat w ->
  lift (DataView.SetViewValue dv off le w conv) h
  = Ok (DataView.mk (pre ++ digits le w z ++ post)
          (DataView.byteOffset dv) (DataView.byteLength dv), h).
Proof.
  intros -> Hbuf Hpos Hlo Hhi Hlen.
  rewrite (set_at dv pre old post (digits le w z) off le w z); try assumption;
    [reflexivity | unfold zlen in Hlen; lia | reflexivity].
Qed.

Lemma overwrite_total (b : Builtin) (le : bool) (h : Heap) (v : Value) (old : list Z) :
  typed_or_missing b h v = true -> exists slot, overwrite b le h v old = Some slot.
Proof.
  intros Ht. destruct (typed_or_missing_encodes b le h v Ht) as [slot Hs].
  destruct b; try (exists slot; exact Hs).
  cbn [overwrite encode_slot] in *.
  destruct (text_of v) as [e|]; [|discriminate]. eexists. reflexivity.
Qed.

Lemma split_slot (old : list Z) (m : Z) :
  0 <= m <= zlen old ->
  old = take (Z.to_nat m) old ++ drop (Z.to_nat m) old /\
  length (take (Z.to_nat m) old) = Z.to_nat m /\
  zlen (drop (Z.to_nat m) old) = zlen old - m.
Proof.
  intros Hm. unfold zlen in *. split; [now rewrite take_drop|].
  rewrite length_take, length_drop. lia.
Qed.

Ltac int_at conv_lemma :=
  match goal with
  | He : option_map _ (?f ?v) = Some ?slot |- _ =>
      let z := fresh "z" in
      let Hz := fresh "Hz" in
      destruct (f v) as [z|] eqn:Hz; [|discriminate];
      cbn [option_map] in He; apply some_eq in He; subst slot;
      split; [|unfold zlen; rewrite digits_length; reflexivity];
      unfold DataView.setUint8, DataView.setUint16, DataView.setUint32,
        DataView.setBigUint64, DataView.setInt8, DataView.setInt16,
        DataView.setInt32, DataView.setBigInt64;
      eapply int_write_at; [now apply conv_lemma | eassumption | assumption..]
  end.

Lemma write_at (b : Builtin) (le : bool) (h : Heap) (v : Value) (dv : DataView.t)
    (pre old post slot : list Z) (off : Z) :
  valid_size b = true -> overwrite b le h v old = Some slot ->
  DataView.buffer dv = pre ++ old ++ post ->
  DataView.byteOffset dv + off = zlen pre ->
  zlen old = size (field_of b) ->
  0 <= off -> off + size (field_of b) <= DataView.byteLength dv ->
  write (field_of b) dv off v le h
    = Ok (DataView.mk (pre ++ slot ++ post) (DataView.byteOffset dv) (DataView.byteLength dv), h)
  /\ zlen slot = size (field_of b).
Proof.
  intros Hv He Hbuf Hpos Hold Hlo Hhi.
  destruct b; cbn [valid_size] in Hv; cbn [overwrite encode_slot] in He;
    simpl in Hhi, Hold; cbn [field_of write size
    FieldTypes.bytes FieldTypes.uint8 FieldTypes.uint16 FieldTypes.uint32
    FieldTypes.uint64 FieldTypes.int8 FieldTypes.int16 FieldTypes.int32
    FieldTypes.int64 FieldTypes.cstring FieldTypes.string].
  - (* bytes *)
    apply Z.leb_le in Hv.
    assert (Hcases : (v = VUndefined /\ length = 0 /\ slot = []) \/
              (exists l content, v = VBytes l /\ h !! l = Some content /\
                 bytes_ok content /\ slot = elements content 0 (Z.to_nat length))).
    { destruct v; cbn [array_of option_map] in He; try discriminate.
      - left. destruct (Z.leb_spec length 0); [|discriminate].
        injection He as <-. repeat split. lia.
      - right. destruct (h !! l) as [content|] eqn:Hl; [|discriminate].
        destruct (forallb is_byteb content) eqn:Hc; [|discriminate].
        cbn [option_map] in He. apply some_eq in He. subst slot.
        exists l, content. repeat split; try assumption.
        now apply is_byteb_ok. }
    destruct Hcases as [(-> & -> & ->)|(l & content & -> & Hl & Hc & ->)].
    + destruct old; [|unfold zlen in Hold; simpl in Hold; lia].
      split; [|reflexivity]. simpl. do 2 f_equal. now apply view_eta.
    + rewrite (write_elements_at h l content (Z.to_nat length) Hl Hc dv pre old post off 0);
        try assumption; [| lia | lia | lia | lia | unfold zlen in Hold; lia].
      split; [reflexivity|]. unfold zlen. rewrite elements_length. lia.
  - int_at number_of_ToNumber.
  - int_at number_of_ToNumber.
  - int_at number_of_ToNumber.
  - int_at bigint_of_ToBigInt.
  - int_at number_of_ToNumber.
  - int_at number_of_ToNumber.
  - int_at number_of_ToNumber.
  - int_at bigint_of_ToBigInt.
  - (* cstring *)
    apply Z.leb_le in Hv.
    destruct (text_of v) as [e|] eqn:Ht; [|discriminate].
    cbn [option_map] in He. apply some_eq in He. subst slot.
    rewrite (encode_input_text v e Ht). cbn [obind].
    fold (zlen e). set (len := Z.min (zlen e) (maxLength - 1)).
    pose proof (zlen_nonneg e) as He0.
    assert (Hlen : 0 <= len <= zlen e /\ len <= maxLength - 1) by (unfold len; lia).
    assert (Hok : bytes_ok (take (Z.to_nat len) e)).
    { apply Forall_take. now apply (text_of_bytes_ok v). }
    assert (Htl : zlen (take (Z.to_nat len) e) = len) by (apply take_zlen; lia).
    destruct (split_slot old len) as (_ & Hl1 & Hl2); [lia|].
    destruct (drop (Z.to_nat len) old) as [|x old2] eqn:Hd;
      [unfold zlen in Hl2, Hold; simpl in Hl2; lia|].
    assert (Hdrop : drop (Z.to_nat (len + 1)) old = old2).
    { replace (Z.to_nat (len + 1)) with (Z.to_nat len + 1)%nat by lia.
      rewrite <- drop_drop, Hd. reflexivity. }
    assert (Hsplit : take (Z.to_nat len) old ++ x :: old2 = old)
      by (rewrite <- Hd; apply take_drop).
    assert (Hbuf' : DataView.buffer dv = pre ++ take (Z.to_nat len) old ++ (x :: old2 ++ post)).
    { rewrite Hbuf, <- Hsplit at 1. now rewrite <- app_assoc. }
    rewrite (store_loop_at _ Hok dv pre (take (Z.to_nat len) old) (x :: old2 ++ post) off 0 Hbuf');
      [| lia | lia | lia | unfold zlen in Htl; lia].
    cbn [obind].
    rewrite (setUint8_at _ (pre ++ take (Z.to_nat len) e) (old2 ++ post) x 0 (off + len));
      cbn [DataView.buffer DataView.byteOffset DataView.byteLength];
      [| now rewrite <- app_assoc | rewrite zlen_app; lia | lia | lia | unfold is_byte; lia].
    split.
    + cbn [lift]. rewrite Hdrop, <- !app_assoc. reflexivity.
    + rewrite Hdrop, zlen_app, Htl. unfold zlen in *. simpl in *. lia.
  - (* string *)
    apply Z.leb_le in Hv.
    destruct (text_of v) as [e|] eqn:Ht; [|discriminate].
    cbn [option_map] in He. apply some_eq in He. subst slot.
    rewrite (encode_input_text v e Ht). cbn [obind].
    fold (zlen e). set (m := Z.min (zlen e) length).
    pose proof (zlen_nonneg e) as He0.
    assert (Hm : 0 <= m <= zlen e /\ m <= length) by (unfold m; lia).
    assert (Hok : bytes_ok (take (Z.to_nat m) e)).
    { apply Forall_take. now apply (text_of_bytes_ok v). }
    assert (Htl : zlen (take (Z.to_nat m) e) = m) by (apply take_zlen; lia).
    destruct (split_slot old m) as (Hsplit & Hl1 & Hl2); [lia|].
    assert (Hbuf' : DataView.buffer dv
                    = pre ++ take (Z.to_nat m) old ++ (drop (Z.to_nat m) old ++ post)).
    { rewrite Hbuf, Hsplit at 1. now rewrite <- app_assoc. }
    rewrite (store_loop_at _ Hok dv pre (take (Z.to_nat m) old) (drop (Z.to_nat m) old ++ post)
               off 0 Hbuf');
      [| lia | lia | lia | unfold zlen in Htl; lia].
    cbn [obind].
    rewrite (store_loop_at _ (zeros_bytes_ok (length - m)) _
               (pre ++ take (Z.to_nat m) e) (drop (Z.to_nat m) old) post off m);
      cbn [DataView.buffer DataView.byteOffset DataView.byteLength];
      [| now rewrite <- app_assoc | rewrite zlen_app; lia | lia
       | rewrite zlen_zeros by lia; lia
       | rewrite zeros_length; unfold zlen in Hl2, Hold; lia].
    split.
    + cbn [lift]. rewrite <- !app_assoc. reflexivity.
    + rewrite zlen_app, Htl, zlen_zeros by lia. lia.
Qed.

(** X5. An encoder of a built-in type, run inside the bounds of any view on
    a value of its type, changes the bytes of its own slot and nothing
    else: the bytes before and after the slot, the geometry of the view and
    the heap stay as they were.  The new content of the slot is the
    encoding of the value; only [cstring] keeps what the slot held after
    its terminator. *)
Theorem write_stays_in_slot (b : Builtin) (le : bool) (dv : DataView.t) (off : Z)
    (v : Value) (h : Heap) :
  valid_size b = true -> typed_or_missing b h v = true ->
  DataView.wf dv -> 0 <= off -> off + size (field_of b) <= DataView.byteLength dv ->
  exists slot,
    overwrite b le h v (slice (DataView.buffer dv) (DataView.byteOffset dv + off)
                          (size (field_of b))) = Some slot /\
    zlen slot = size (field_of b) /\
    write (field_of b) dv off v le h
    = Ok (DataView.mk
            (take (Z.to_nat (DataView.byteOffset dv + off)) (DataView.buffer dv) ++ slot ++
             drop (Z.to_nat (DataView.byteOffset dv + off + size (field_of b)))
               (DataView.buffer dv))
            (DataView.byteOffset dv) (DataView.byteLength dv), h).
Proof.
  intros Hv Ht (Hbo & Hbl & Hfit) Hlo Hhi.
  pose proof (valid_size_nonneg b Hv) as Hsz.
  destruct (split_at (DataView.buffer dv) (DataView.byteOffset dv + off) (size (field_of b)))
    as (Hbuf & Hpre & Hold); [lia | lia | lia |].
  destruct (overwrite_total b le h v
              (slice (DataView.buffer dv) (DataView.byteOffset dv + off) (size (field_of b))) Ht)
    as [slot Hslot].
  exists slot. split; [exact Hslot|].
  destruct (write_at b le h v dv _ _ _ slot off Hv Hslot Hbuf) as [Hw Hlen];
    [unfold zlen; lia | unfold zlen; lia | lia | lia |].
  split; [exact Hlen | exact Hw].
Qed.

Lemma write_stays_in_slot_witness :
  exists slot,
    write (FieldTypes.cstring 4) (DataView.mk [9; 9; 9; 9; 9; 9] 1 5) 1 (VString [65]) false []
    = Ok (DataView.mk ([9; 9] ++ slot ++ []) 1 5, []) /\
    slot = [65; 0; 9; 9].
Proof.
  destruct (write_stays_in_slot (CString 4) false (DataView.mk [9; 9; 9; 9; 9; 9] 1 5) 1
              (VString [65]) []) as (slot & Hs & _ & Hw);
    [reflexivity | reflexivity | unfold DataView.wf; simpl; lia | lia | simpl; lia |].
  exists slot. split; [exact Hw|].
  apply some_eq. rewrite <- Hs. reflexivity.
Defined.

(** ** Decoders read their slot *)

(** X6. A decoder of a built-in type, run inside the bounds of a view,
    always returns, allocates at most one array and changes no existing
    one, and its result is determined by the bytes it is positioned on:
    two views that hold the same bytes there give the same result.  The
    position counts from the start of the view, for [string] from the start
    of the underlying ArrayBuffer. *)
Theorem parse_reads_only_slot (b : Builtin) (le : bool) (dv1 dv2 : DataView.t)
    (off1 off2 : Z) (h : Heap) :
  valid_size b = true -> DataView.wf dv1 -> DataView.wf dv2 ->
  0 <= off1 -> off1 + size (field_of b) <= DataView.byteLength dv1 ->
  0 <= off2 -> off2 + size (field_of b) <= DataView.byteLength dv2 ->
  slice (DataView.buffer dv1) (base b dv1 + off1) (size (field_of b))
  = slice (DataView.buffer dv2) (base b dv2 + off2) (size (field_of b)) ->
  parse (field_of b) dv1 off1 le h = parse (field_of b) dv2 off2 le h /\
  exists v h', parse (field_of b) dv1 off1 le h = Ok (v, h') /\
               (h' = h \/ exists content, h' = h ++ [content]).
Proof.
  intros Hv Hwf1 Hwf2 Hlo1 Hhi1 Hlo2 Hhi2 Hsame.
  rewrite (parse_slot b le dv1 off1 h Hv Hwf1 Hlo1 Hhi1).
  rewrite (parse_slot b le dv2 off2 h Hv Hwf2 Hlo2 Hhi2).
  rewrite Hsame. split; [reflexivity|].
  destruct (decode_slot b le _) as [content|v]; cbn [deliver]; eexists _, _;
    (split; [reflexivity|]); [right; eexists; reflexivity | left; reflexivity].
Qed.

Lemma parse_reads_only_slot_witness :
  parse FieldTypes.uint16 (DataView.mk [1; 2; 3] 0 3) 1 false []
  = parse FieldTypes.uint16 (DataView.mk [9; 2; 3; 9] 1 3) 0 false [].
Proof.
  apply (parse_reads_only_slot Uint16 false (DataView.mk [1; 2; 3] 0 3)
           (DataView.mk [9; 2; 3; 9] 1 3) 1 0 []);
    try reflexivity; try (unfold DataView.wf; simpl; lia); simpl; lia.
Defined.

(** ** Slices of slices, digits of digits *)

Lemma take_add (A : Type) (a b : nat) (l : list A) :
  take (a + b) l = take a l ++ take b (drop a l).
Proof.
  revert l. induction a as [|a IH]; intros l; [reflexivity|].
  destruct l as [|x l]; simpl; [now rewrite take_nil|]. now rewrite IH.
Qed.

Lemma slice_app (bs : list Z) (i n1 n2 : Z) :
  0 <= i -> 0 <= n1 -> 0 <= n2 ->
  slice bs i (n1 + n2) = slice bs i n1 ++ slice bs (i + n1) n2.
Proof.
  intros Hi H1 H2. unfold slice.
  rewrite Z2Nat.inj_add by lia. rewrite take_add, drop_drop.
  now rewrite (Z2Nat.inj_add i n1) by lia.
Qed.

Lemma slice_slice (bs : list Z) (i m j n : Z) :
  0 <= i -> 0 <= j -> 0 <= n -> j + n <= m ->
  slice (slice bs i m) j n = slice bs (i + j) n.
Proof.
  intros Hi Hj Hn Hm. unfold slice.
  rewrite List.skipn_firstn_comm, List.firstn_firstn, drop_drop.
  rewrite Z2Nat.inj_add by lia. f_equal. lia.
Qed.

Lemma slice_bytes_ok (bs : list Z) (i n : Z) : bytes_ok bs -> bytes_ok (slice bs i n).
Proof. intros H. unfold slice. apply Forall_take, Forall_drop, H. Qed.

Lemma slice_zlen (bs : list Z) (i n : Z) :
  0 <= i -> 0 <= n -> i + n <= zlen bs -> zlen (slice bs i n) = n.
Proof.
  intros Hi Hn Hfit. unfold zlen in *.
  destruct (split_at bs i n Hi Hn Hfit) as (_ & _ & ->). lia.
Qed.

Lemma le_value_bound (bs : list Z) :
  bytes_ok bs -> 0 <= le_value bs < 256 ^ Z.of_nat (length bs).
Proof.
  induction 1 as [|b bs Hb _ IH]; [simpl; lia|].
  cbn [le_value length]. rewrite Nat2Z.inj_succ, Z.pow_succ_r by lia.
  unfold is_byte in Hb. nia.
Qed.

Lemma le_bytes_value (bs : list Z) :
  bytes_ok bs -> le_bytes (length bs) (le_value bs) = bs.
Proof.
  induction 1 as [|b bs Hb _ IH]; [reflexivity|].
  cbn [le_value length le_bytes]. unfold is_byte in Hb.
  replace (b + 256 * le_value bs) with (b + le_value bs * 256) by lia.
  rewrite Z.mod_add, Z.div_add, Z.mod_small, Z.div_small, Z.add_0_l by lia.
  now rewrite IH.
Qed.

(** The digits of the integer read from a slot are the slot. *)
Lemma digits_unsigned (le : bool) (w : nat) (slot : list Z) :
  bytes_ok slot -> length slot = w -> digits le w (unsigned_of le slot) = slot.
Proof.
  intros Hok Hlen. unfold digits, unsigned_of.
  set (x := if le then slot else rev slot).
  assert (Hx : bytes_ok x) by (unfold x; destruct le; [exact Hok | now apply Forall_rev]).
  assert (Hxl : length x = w) by (unfold x; now rewrite order_length).
  pose proof (le_value_bound x Hx) as Hb. rewrite Hxl, <- pow_bits in Hb.
  rewrite Z.mod_small by exact Hb. rewrite <- Hxl, le_bytes_value by exact Hx.
  unfold x. apply order_involutive.
Qed.

Lemma to_signed_mod (w : nat) (u : Z) :
  to_signed w u mod 2 ^ (8 * Z.of_nat w) = u mod 2 ^ (8 * Z.of_nat w).
Proof.
  unfold to_signed. destruct (u <? _); [reflexivity|].
  replace (u - 2 ^ (8 * Z.of_nat w)) with (u + (-1) * 2 ^ (8 * Z.of_nat w)) by lia.
  apply Z.mod_add. apply Z.pow_nonzero; lia.
Qed.

Lemma digits_signed (le : bool) (w : nat) (u : Z) :
  digits le w (to_signed w u) = digits le w u.
Proof. unfold digits. now rewrite to_signed_mod. Qed.

(** Decoding a slot of bytes or of an integer and encoding the result
    gives the slot back. *)
Lemma slot_reencode (b : Builtin) (le : bool) (slot : list Z) :
  binary b = true -> valid_size b = true ->
  bytes_ok slot -> zlen slot = size (field_of b) ->
  match decode_slot b le slot with
  | DValue v => forall h, encode_slot b le h v = Some slot
  | DArray content =>
      forall h l, h !! l = Some content -> encode_slot b le h (VBytes l) = Some slot
  end.
Proof.
  intros Hb Hv Hok Hlen.
  destruct b; try discriminate Hb; simpl in Hlen;
    cbn [decode_slot encode_slot number_of bigint_of option_map].
  - intros h l Hl. cbn [array_of]. rewrite Hl.
    rewrite (proj2 (is_byteb_ok slot) Hok). cbn [option_map]. f_equal.
    rewrite <- Hlen. unfold zlen. rewrite Nat2Z.id. apply elements_exact.
  - intros h. f_equal. apply digits_unsigned; [exact Hok | unfold zlen in Hlen; lia].
  - intros h. f_equal. apply digits_unsigned; [exact Hok | unfold zlen in Hlen; lia].
  - intros h. f_equal. apply digits_unsigned; [exact Hok | unfold zlen in Hlen; lia].
  - intros h. f_equal. apply digits_unsigned; [exact Hok | unfold zlen in Hlen; lia].
  - intros h. f_equal. rewrite digits_signed.
    apply digits_unsigned; [exact Hok | unfold zlen in Hlen; lia].
  - intros h. f_equal. rewrite digits_signed.
    apply digits_unsigned; [exact Hok | unfold zlen in Hlen; lia].
  - intros h. f_equal. rewrite digits_signed.
    apply digits_unsigned; [exact Hok | unfold zlen in Hlen; lia].
  - intros h. f_equal. rewrite digits_signed.
    apply digits_unsigned; [exact Hok | unfold zlen in Hlen; lia].
Qed.

Lemma encode_record_ext (decl : list (string * Builtin)) (le : bool) (h : Heap)
    (v1 v2 : JsObject) :
  (forall k b, In (k, b) decl -> obj_get v1 k = obj_get v2 k) ->
  encode_record decl le h v1 = encode_record decl le h v2.
Proof.
  induction decl as [|[k b] decl IH]; intros Hagree; [reflexivity|].
  cbn [encode_record]. rewrite (Hagree k b) by (left; reflexivity).
  rewrite IH; [reflexivity|]. intros k' b' Hin. apply (Hagree k' b'). right. exact Hin.
Qed.

(** ** [from] then [to] *)

Lemma sizes_of_app (d1 d2 : list (string * Builtin)) :
  sizes_of (d1 ++ d2) = sizes_of d1 + sizes_of d2.
Proof. unfold sizes_of. now rewrite builtin_fields_app, sizes_sum_app. Qed.

Lemma sizes_of_cons (k : string) (b : Builtin) (d : list (string * Builtin)) :
  sizes_of ((k, b) :: d) = size (field_of b) + sizes_of d.
Proof. reflexivity. Qed.

Lemma valid_app (d1 d2 : list (string * Builtin)) :
  forallb valid_size (map snd (d1 ++ d2)) = true ->
  forallb valid_size (map snd d1) = true /\ forallb valid_size (map snd d2) = true.
Proof. rewrite map_app, forallb_app. apply andb_true_iff. Qed.

Lemma binary_base (b : Builtin) (dv : DataView.t) :
  binary b = true -> base b dv = DataView.byteOffset dv.
Proof. destruct b; try discriminate; reflexivity. Qed.

Lemma reencode_fields (decl : list (string * Builtin)) (le : bool) (dv : DataView.t)
    (pos : Z) (h : Heap) :
  distinct (map fst decl) = true ->
  forallb valid_size (map snd decl) = true ->
  bytes_ok (DataView.buffer dv) -> 0 <= DataView.byteOffset dv + pos ->
  DataView.byteOffset dv + pos + sizes_of decl <= zlen (DataView.buffer dv) ->
  forall rest seen,
    decl = seen ++ rest ->
    forallb binary (map snd rest) = true ->
    encode_record rest le (snd (decode_fields decl le dv pos [] h))
      (fst (decode_fields decl le dv pos [] h))
    = Some (slice (DataView.buffer dv) (DataView.byteOffset dv + pos + sizes_of seen)
              (sizes_of rest)).
Proof.
  intros Hdist Hvalid Hok Hlo Hhi.
  induction rest as [|[k b] rest IH]; intros seen Hdecl Hbin; [reflexivity|].
  simpl in Hbin. apply andb_true_iff in Hbin as [Hb Hbin].
  pose proof Hvalid as Hv. rewrite Hdecl in Hv. apply valid_app in Hv as [Hvseen Hv].
  simpl in Hv. apply andb_true_iff in Hv as [Hvb Hvrest].
  pose proof (sizes_sum_nonneg seen Hvseen) as Hs1.
  pose proof (sizes_sum_nonneg rest Hvrest) as Hs3.
  pose proof (valid_size_nonneg b Hvb) as Hs2.
  fold (sizes_of seen) in Hs1. fold (sizes_of rest) in Hs3.
  assert (Hsum : sizes_of decl = sizes_of seen + (size (field_of b) + sizes_of rest))
    by (rewrite Hdecl, sizes_of_app, sizes_of_cons; reflexivity).
  pose proof (decode_fields_lookup seen rest k b le dv) as Hlook.
  rewrite <- Hdecl in Hlook. specialize (Hlook Hdist pos [] h). cbv zeta in Hlook.
  rewrite (binary_base b dv Hb), Z.add_assoc in Hlook.
  set (slot := slice (DataView.buffer dv) (DataView.byteOffset dv + pos + sizes_of seen)
                 (size (field_of b))) in *.
  assert (Hslot : bytes_ok slot) by (apply slice_bytes_ok; exact Hok).
  assert (Hlen : zlen slot = size (field_of b)) by (apply slice_zlen; lia).
  pose proof (slot_reencode b le slot Hb Hvb Hslot Hlen) as Hre.
  assert (Henc : encode_slot b le (snd (decode_fields decl le dv pos [] h))
                   (obj_get (fst (decode_fields decl le dv pos [] h)) k) = Some slot).
  { destruct (decode_slot b le slot) as [content|v].
    - destruct Hlook as (l & -> & Hl & _). now apply Hre.
    - rewrite Hlook. apply Hre. }
  cbn [encode_record]. rewrite Henc.
  rewrite (IH (seen ++ [(k, b)])); [|rewrite <- app_assoc; exact Hdecl | exact Hbin].
  rewrite sizes_of_app, !sizes_of_cons. change (sizes_of []) with 0. f_equal.
  rewrite (slice_app _ _ (size (field_of b)) (sizes_of rest)) by lia.
  unfold slot. do 2 f_equal. lia.
Qed.

(** X7. Decoding and encoding again gives the bytes back: for a struct of
    byte-array and integer fields, none named like an instance member or
    [__proto__], [from] on a buffer that holds the struct at [offset]
    returns a record whose encoding, by [to] on its fields and by its own
    [$toBuffer], is exactly the [size] bytes of the source that start at
    [offset] (a buffer of [size] bytes can be allocated). *)
Theorem from_then_to_restores_bytes (n : string) (decl : list (string * Builtin))
    (options : StructOptions) (sd : Struct) (buffer : BufferSource)
    (offset : option Z) (h : Heap) :
  struct n (builtin_fields decl) options = Ok sd ->
  distinct (names (builtin_fields decl)) = true ->
  forallb valid_size (map snd decl) = true ->
  forallb binary (map snd decl) = true ->
  forallb (fun k => negb (reserved k)) (map fst decl) = true ->
  proto_free (map fst decl) = true ->
  struct_size sd <= max_byte_length ->
  source_wf buffer -> 0 <= default 0 offset ->
  default 0 offset + struct_size sd <= source_length buffer ->
  exists r h',
    from sd buffer offset h = Ok (r, h') /\
    to sd (props r) h'
      = Ok (slice (source_bytes buffer) (default 0 offset) (struct_size sd), h') /\
    dollar_toBuffer r h'
      = Ok (slice (source_bytes buffer) (default 0 offset) (struct_size sd), h').
Proof.
  intros Hs Hd Hvalid Hbin Hfree _ Hmax Hsrc Hlo Hhi.
  pose proof (source_view_wf buffer Hsrc) as Hwf.
  rewrite (from_spec n decl options sd buffer offset h Hs Hd Hvalid Hwf Hlo Hhi).
  eexists _, _. split; [reflexivity|].
  destruct (struct_members _ _ _ _ Hs) as (_ & _ & Hsz & _).
  fold (sizes_of decl) in Hsz.
  assert (Hd' : distinct (map fst decl) = true).
  { unfold names, builtin_fields in Hd. rewrite map_map in Hd. exact Hd. }
  set (dv := view_of buffer) in *. set (o := default 0 offset) in *.
  set (le := littleEndian sd).
  assert (Hgeom : bytes_ok (DataView.buffer dv) /\
                  DataView.byteOffset dv + o + sizes_of decl <= zlen (DataView.buffer dv) /\
                  0 <= DataView.byteOffset dv /\
                  slice (source_bytes buffer) o (sizes_of decl)
                  = slice (DataView.buffer dv) (DataView.byteOffset dv + o) (sizes_of decl)).
  { pose proof (sizes_sum_nonneg decl Hvalid) as Hnn. fold (sizes_of decl) in Hnn.
    rewrite Hsz in Hhi. unfold dv.
    destruct buffer as [bs|bs bo bl]; simpl in Hsrc, Hhi |- *.
    - repeat split; try assumption; unfold zlen; lia.
    - destruct Hsrc as (Hok & Hbo & Hbl & Hfit). repeat split; try assumption.
      + unfold zlen; lia.
      + apply slice_slice; lia. }
  destruct Hgeom as (Hok & Hfit & Hbo & Hbytes).
  pose proof (reencode_fields decl le dv o h Hd' Hvalid Hok ltac:(lia) Hfit decl []
                eq_refl Hbin) as Henc.
  change (sizes_of []) with 0 in Henc. rewrite Z.add_0_r in Henc.
  rewrite Hsz, Hbytes.
  set (out := decode_fields decl le dv o [] h) in *.
  assert (Hfrees : forall k b, In (k, b) decl -> reserved k = false).
  { intros k b Hin. rewrite forallb_forall in Hfree.
    specialize (Hfree k ltac:(apply in_map_iff; exists (k, b); split; [reflexivity | exact Hin])).
    destruct (reserved k); [discriminate | reflexivity]. }
  split.
  - apply (to_spec n decl options sd _ (snd out) _ Hs Hd Hvalid Hmax).
    cbn [props]. rewrite <- Henc. apply encode_record_ext.
    intros k b Hin. apply obj_get_define_members. now apply (Hfrees k b).
  - unfold dollar_toBuffer. cbn [dollar_struct].
    apply (to_spec n decl options sd _ (snd out) _ Hs Hd Hvalid Hmax).
    rewrite <- Henc. apply encode_record_ext.
    intros k b Hin. rewrite instance_object_get by now apply (Hfrees k b).
    cbn [props]. apply obj_get_define_members. now apply (Hfrees k b).
Qed.

Lemma from_then_to_restores_bytes_witness :
  exists r h',
    from Header_struct
      (Uint8Array [9; 9; 65; 66; 67; 68; 123; 0; 7; 0x39; 0x30; 0; 0; 9] 1 13) (Some 1) []
      = Ok (r, h') /\
    dollar_toBuffer r h' = Ok ([65; 66; 67; 68; 123; 0; 7; 0x39; 0x30; 0; 0], h').
Proof.
  destruct (from_then_to_restores_bytes "Header" Header_decl le_opts Header_struct
              (Uint8Array [9; 9; 65; 66; 67; 68; 123; 0; 7; 0x39; 0x30; 0; 0; 9] 1 13)
              (Some 1) [] eq_refl eq_refl eq_refl eq_refl eq_refl eq_refl)
    as (r & h' & Hfrom & _ & Hbuf).
  - unfold max_byte_length. simpl. lia.
  - simpl. repeat split; try lia.
    repeat (constructor; [unfold is_byte; lia|]). constructor.
  - simpl. lia.
  - simpl. lia.
  - exists r, h'. split; [exact Hfrom | exact Hbuf].
Defined.

(** ** [from] reads [size] bytes at [offset] *)

Lemma decode_fields_cong (decl : list (string * Builtin)) (le : bool)
    (dv1 dv2 : DataView.t) :
  forall pos1 pos2 result h,
    (forall pre k b post, decl = pre ++ (k, b) :: post ->
       slice (DataView.buffer dv1) (base b dv1 + (pos1 + sizes_of pre)) (size (field_of b))
       = slice (DataView.buffer dv2) (base b dv2 + (pos2 + sizes_of pre)) (size (field_of b))) ->
    decode_fields decl le dv1 pos1 result h = decode_fields decl le dv2 pos2 result h.
Proof.
  induction decl as [|[k b] decl IH]; intros pos1 pos2 result h Hsame; [reflexivity|].
  cbn [decode_fields].
  pose proof (Hsame [] k b decl eq_refl) as H0.
  change (sizes_of []) with 0 in H0. rewrite !Z.add_0_r in H0. rewrite H0.
  destruct (decode_slot b le _) as [content|v]; apply IH;
    intros pre k' b' post ->;
    specialize (Hsame ((k, b) :: pre) k' b' post eq_refl);
    rewrite sizes_of_cons, !Z.add_assoc in Hsame; rewrite !Z.add_assoc; exact Hsame.
Qed.

Lemma source_bytes_zlen (buffer : BufferSource) :
  source_wf buffer -> zlen (source_bytes buffer) = source_length buffer.
Proof.
  destruct buffer as [bs|bs bo bl]; simpl; [reflexivity|].
  intros (_ & Hbo & Hbl & Hfit). apply slice_zlen; unfold zlen; lia.
Qed.

(** X8. For a struct of built-in fields with valid sizes, none of them
    named [__proto__], [from] looks at the [size] bytes of the source that
    start at [offset], and at nothing else: parsing a buffer, or a
    Uint8Array over part of a larger ArrayBuffer, at an offset gives the
    same record and heap as parsing a fresh ArrayBuffer that holds just
    those [size] bytes.  This needs every field to read through the view,
    which [string] does only when the source starts at offset 0 of its
    ArrayBuffer. *)
Theorem from_reads_its_window (n : string) (decl : list (string * Builtin))
    (options : StructOptions) (sd : Struct) (buffer : BufferSource)
    (offset : option Z) (h : Heap) :
  struct n (builtin_fields decl) options = Ok sd ->
  distinct (names (builtin_fields decl)) = true ->
  proto_free (map fst decl) = true ->
  forallb valid_size (map snd decl) = true ->
  forallb (reads_through_view buffer) (map snd decl) = true ->
  source_wf buffer -> 0 <= default 0 offset ->
  default 0 offset + struct_size sd <= source_length buffer ->
  from sd buffer offset h
  = from sd (ArrayBuffer (slice (source_bytes buffer) (default 0 offset) (struct_size sd)))
      None h /\
  exists r h', from sd buffer offset h = Ok (r, h').
Proof.
  intros Hs Hd _ Hvalid Hview Hsrc Hlo Hhi.
  pose proof (source_view_wf buffer Hsrc) as Hwf.
  destruct (struct_members _ _ _ _ Hs) as (_ & _ & Hsz & _).
  fold (sizes_of decl) in Hsz.
  pose proof (sizes_sum_nonneg decl Hvalid) as Hnn. fold (sizes_of decl) in Hnn.
  pose proof (source_bytes_zlen buffer Hsrc) as Hsb.
  set (o := default 0 offset) in *.
  set (w := slice (source_bytes buffer) o (struct_size sd)).
  assert (Hw : zlen w = struct_size sd) by (apply slice_zlen; lia).
  rewrite (from_spec n decl options sd buffer offset h Hs Hd Hvalid Hwf Hlo Hhi).
  split; [|eexists _, _; reflexivity].
  rewrite (from_spec n decl options sd (ArrayBuffer w) None h Hs Hd Hvalid);
    [| unfold DataView.wf; simpl; lia | simpl; lia | simpl; unfold zlen in Hw; lia].
  fold o. change (default 0 None) with 0.
  rewrite (decode_fields_cong decl (littleEndian sd) (view_of buffer) (view_of (ArrayBuffer w))
             o 0 [] h); [reflexivity|].
  intros pre k b post Hdecl.
  rewrite base_array_buffer. cbn [view_of DataView.buffer]. rewrite !Z.add_0_l.
  assert (Hvb : forallb valid_size (map snd pre) = true /\ valid_size b = true).
  { rewrite Hdecl in Hvalid. apply valid_app in Hvalid as [Hv1 Hv2].
    simpl in Hv2. apply andb_true_iff in Hv2 as [Hv2 _]. split; assumption. }
  destruct Hvb as [Hvpre Hvb].
  pose proof (sizes_sum_nonneg pre Hvpre) as Hp. fold (sizes_of pre) in Hp.
  pose proof (valid_size_nonneg b Hvb) as Hb.
  assert (Hpost : 0 <= sizes_of post).
  { rewrite Hdecl in Hvalid. apply valid_app in Hvalid as [_ Hv2].
    simpl in Hv2. apply andb_true_iff in Hv2 as [_ Hv2].
    apply (sizes_sum_nonneg post Hv2). }
  assert (Hsum : sizes_of decl = sizes_of pre + (size (field_of b) + sizes_of post))
    by (rewrite Hdecl, sizes_of_app, sizes_of_cons; reflexivity).
  unfold w. rewrite slice_slice by lia.
  assert (Hrb : reads_through_view buffer b = true).
  { rewrite forallb_forall in Hview. apply Hview. rewrite Hdecl, map_app.
    apply in_or_app. right. left. reflexivity. }
  destruct buffer as [bs|bs bo bl].
  - rewrite (base_array_buffer b bs). cbn [source_bytes view_of DataView.buffer].
    now rewrite Z.add_0_l.
  - cbn [source_bytes view_of DataView.buffer].
    simpl in Hsrc, Hhi. destruct Hsrc as (_ & Hbo & Hbl & Hfit).
    rewrite slice_slice by lia. f_equal.
    destruct b; cbn [base DataView.byteOffset]; try reflexivity.
    simpl in Hrb. apply Z.eqb_eq in Hrb. lia.
Qed.

Lemma from_reads_its_window_witness :
  from Header_struct
    (Uint8Array [9; 9; 65; 66; 67; 68; 123; 0; 7; 0x39; 0x30; 0; 0; 9] 1 13) (Some 1) []
  = from Header_struct (ArrayBuffer [65; 66; 67; 68; 123; 0; 7; 0x39; 0x30; 0; 0]) None [].
Proof.
  apply (from_reads_its_window "Header" Header_decl le_opts Header_struct
           (Uint8Array [9; 9; 65; 66; 67; 68; 123; 0; 7; 0x39; 0x30; 0; 0; 9] 1 13)
           (Some 1) [] eq_refl eq_refl eq_refl eq_refl eq_refl).
  - simpl. repeat split; try lia.
    repeat (constructor; [unfold is_byte; lia|]). constructor.
  - simpl. lia.
  - simpl. lia.
Defined.

(** ** [to] then [from], field by field *)

(** What [from] finds under a field's name after [to]: the decoding of the
    field's own slot. *)
Lemma to_from_slots (n : string) (decl : list (string * Builtin))
    (options : StructOptions) (sd : Struct) (values : JsObject) (h : Heap) :
  struct n (builtin_fields decl) options = Ok sd ->
  distinct (names (builtin_fields decl)) = true ->
  forallb valid_size (map snd decl) = true ->
  struct_size sd <= max_byte_length ->
  (forall k b, In (k, b) decl -> typed_or_missing b h (obj_get values k) = true) ->
  exists buf r h',
    to sd values h = Ok (buf, h) /\ zlen buf = struct_size sd /\
    from sd (ArrayBuffer buf) None h = Ok (r, h') /\
    forall pre k b post, decl = pre ++ (k, b) :: post ->
      exists slot,
        encode_slot b (littleEndian sd) h (obj_get values k) = Some slot /\
        slice buf (sizes_of pre) (size (field_of b)) = slot /\
        (reserved k = false ->
         match decode_slot b (littleEndian sd) slot with
         | DValue v => obj_get (props r) k = v
         | DArray content =>
             exists l, obj_get (props r) k = VBytes l /\ h' !! l = Some content /\
                       (length h <= l)%nat
         end).
Proof.
  intros Hs Hd Hvalid Hmax Htyped.
  destruct (encode_record_total decl (littleEndian sd) h values Htyped) as [bs Hbs].
  destruct (to_spec n decl options sd values h bs Hs Hd Hvalid Hmax Hbs) as [Hto Hlen].
  assert (Hwf : DataView.wf (view_of (ArrayBuffer bs))).
  { unfold DataView.wf. simpl. lia. }
  pose proof (from_spec n decl options sd (ArrayBuffer bs) None h Hs Hd Hvalid Hwf) as Hfrom.
  simpl in Hfrom. specialize (Hfrom ltac:(lia)).
  pose proof Hlen as Hlen'. unfold zlen in Hlen'. specialize (Hfrom ltac:(lia)).
  eexists bs, _, _. split; [exact Hto|]. split; [exact Hlen|]. split; [exact Hfrom|].
  intros pre k b post ->.
  destruct (encode_record_split pre post k b _ h values bs Hvalid Hbs)
    as (bpre & slot & bpost & -> & Hslot & Hl1 & Hl2).
  exists slot. split; [exact Hslot|].
  split; [apply slice_middle; unfold zlen in *; lia|].
  intros Hres. cbn [props]. rewrite obj_get_define_members by exact Hres.
  assert (Hd' : distinct (map fst (pre ++ (k, b) :: post)) = true).
  { unfold names, builtin_fields in Hd. rewrite map_map in Hd. exact Hd. }
  pose proof (decode_fields_lookup pre post k b (littleEndian sd)
                (DataView.mk (bpre ++ slot ++ bpost) 0
                   (Z.of_nat (length (bpre ++ slot ++ bpost)))) Hd' 0 [] h) as Hlook.
  cbv zeta in Hlook.
  change (DataView.mk (bpre ++ slot ++ bpost) 0 (Z.of_nat (length (bpre ++ slot ++ bpost))))
    with (view_of (ArrayBuffer (bpre ++ slot ++ bpost))) in Hlook.
  rewrite base_array_buffer in Hlook. cbn [view_of DataView.buffer] in Hlook.
  rewrite slice_middle in Hlook by (unfold zlen in *; lia).
  exact Hlook.
Qed.

Lemma elements_pad (content : list Z) (n : nat) :
  forall i, elements content i n = take n (drop i content ++ replicate n 0).
Proof.
  induction n as [|n IH]; intros i; [reflexivity|].
  cbn [elements]. rewrite IH.
  destruct (drop i content) as [|x rest] eqn:Hd.
  - assert (Hlen : (length content <= i)%nat).
    { apply (f_equal length) in Hd. rewrite length_drop in Hd. simpl in Hd. lia. }
    rewrite nth_overflow by exact Hlen.
    rewrite (drop_ge content (S i)) by lia.
    reflexivity.
  - assert (Hx : nth i content 0 = x /\ drop (S i) content = rest).
    { rewrite <- (take_drop i content) at 1.
      assert (Hi : length (take i content) = i).
      { apply (f_equal length) in Hd. rewrite length_drop in Hd. simpl in Hd.
        rewrite length_take. lia. }
      rewrite Hd, app_nth2 by lia. rewrite Hi, Nat.sub_diag. split; [reflexivity|].
      replace (S i) with (i + 1)%nat by lia. rewrite <- drop_drop, Hd. reflexivity. }
    destruct Hx as [-> ->]. simpl. f_equal.
    change (0 :: replicate n 0) with (replicate (S n) 0).
    destruct (Nat.le_gt_cases n (length rest)) as [Hle|Hgt].
    + now rewrite !take_app_le by exact Hle.
    + rewrite !take_app_ge by lia. f_equal.
      rewrite !take_replicate. f_equal. lia.
Qed.

Lemma take_padded (e : list Z) (len : Z) :
  0 <= len ->
  take (Z.to_nat (Z.min (zlen e) len)) e ++ zeros (len - Z.min (zlen e) len)
  = take (Z.to_nat len) (e ++ zeros len).
Proof.
  intros Hlen. unfold zlen, zeros.
  destruct (Z.le_gt_cases len (Z.of_nat (length e))) as [Hle|Hgt].
  - rewrite Z.min_r by lia. rewrite Z.sub_diag. simpl. rewrite app_nil_r.
    rewrite take_app_le by lia. reflexivity.
  - rewrite Z.min_l by lia. rewrite Nat2Z.id, firstn_all.
    rewrite take_app_ge by lia. f_equal.
    rewrite take_replicate. f_equal. lia.
Qed.

Lemma valid_at (pre post : list (string * Builtin)) (k : string) (b : Builtin) :
  forallb valid_size (map snd (pre ++ (k, b) :: post)) = true -> valid_size b = true.
Proof.
  intros H. apply valid_app in H as [_ H]. simpl in H.
  now apply andb_true_iff in H as [H _].
Qed.

(** X9. A byte-array field takes an array of any length: [to] stores the
    first [length] elements and fills what is missing with zero bytes, and
    [from] then returns a fresh array holding the content followed by
    zeros, cut to [length].  This is so in every struct of built-in fields
    with valid sizes, none of them named [__proto__] or like an array
    index (the fields then lie in the order of declaration), whose size the
    platform can allocate, when the other fields hold values of their
    types. *)
Theorem byte_array_is_padded_or_cut (n : string) (decl pre post : list (string * Builtin))
    (k : string) (len : Z) (options : StructOptions) (sd : Struct) (values : JsObject)
    (h : Heap) (l : loc) (content : list Z) :
  struct n (builtin_fields decl) options = Ok sd ->
  distinct (names (builtin_fields decl)) = true ->
  proto_free (map fst decl) = true ->
  index_free (map fst decl) = true ->
  forallb valid_size (map snd decl) = true ->
  struct_size sd <= max_byte_length ->
  (forall k b, In (k, b) decl -> typed_or_missing b h (obj_get values k) = true) ->
  decl = pre ++ (k, Bytes len) :: post -> reserved k = false ->
  obj_get values k = VBytes l -> h !! l = Some content ->
  exists buf r h' l',
    to sd values h = Ok (buf, h) /\
    slice buf (sizes_of pre) len = take (Z.to_nat len) (content ++ zeros len) /\
    from sd (ArrayBuffer buf) None h = Ok (r, h') /\
    obj_get (props r) k = VBytes l' /\
    h' !! l' = Some (take (Z.to_nat len) (content ++ zeros len)) /\
    (length h <= l')%nat.
Proof.
  intros Hs Hd _ _ Hvalid Hmax Htyped Hdecl Hres Hv Hl.
  destruct (to_from_slots n decl options sd values h Hs Hd Hvalid Hmax Htyped)
    as (buf & r & h' & Hto & _ & Hfrom & Hfields).
  destruct (Hfields pre k (Bytes len) post Hdecl) as (slot & Hslot & Hslice & Hback).
  rewrite Hv in Hslot. cbn [encode_slot array_of] in Hslot. rewrite Hl in Hslot.
  destruct (forallb is_byteb content); [|discriminate].
  cbn [option_map] in Hslot. apply some_eq in Hslot.
  rewrite elements_pad in Hslot. cbn [drop] in Hslot. fold (zeros len) in Hslot.
  subst slot. specialize (Hback Hres). cbn [decode_slot] in Hback.
  destruct Hback as (l' & Hget & Hl' & Hfresh).
  exists buf, r, h', l'. repeat split; assumption.
Qed.

Lemma byte_array_is_padded_or_cut_witness :
  exists buf r h' l',
    to Header_struct Header_data [[65; 66]] = Ok (buf, [[65; 66]]) /\
    from Header_struct (ArrayBuffer buf) None [[65; 66]] = Ok (r, h') /\
    obj_get (props r) "magic" = VBytes l' /\
    h' !! l' = Some [65; 66; 0; 0].
Proof.
  destruct (byte_array_is_padded_or_cut "Header" Header_decl [] (tl Header_decl) "magic" 4
              le_opts Header_struct Header_data [[65; 66]] 0%nat [65; 66]
              eq_refl eq_refl eq_refl eq_refl eq_refl)
    as (buf & r & h' & l' & Hto & _ & Hfrom & Hget & Hl' & _); try reflexivity.
  - unfold max_byte_length. simpl. lia.
  - intros k b Hin. simpl in Hin.
    destruct Hin as [[= <- <-]|[[= <- <-]|[[= <- <-]|[[= <- <-]|[]]]]]; reflexivity.
  - exists buf, r, h', l'. repeat split; assumption.
Defined.

(** X10. A fixed-text field takes a text of any length: [to] stores the
    first [length] bytes of its UTF-8 encoding and fills what is missing
    with zero bytes, and [from] then returns the decoding of exactly these
    [length] bytes, so a longer text comes back cut (in the middle of a
    character, if that is where the field ends) and a shorter one comes
    back followed by U+0000.  This is so in every struct of built-in fields
    with valid sizes, none of them named [__proto__] or like an array
    index (the fields then lie in the order of declaration), whose size the
    platform can allocate, when the other fields hold values of their
    types. *)
Theorem fixed_text_is_cut_or_padded (n : string) (decl pre post : list (string * Builtin))
    (k : string) (len : Z) (options : StructOptions) (sd : Struct) (values : JsObject)
    (h : Heap) (s : list Z) :
  struct n (builtin_fields decl) options = Ok sd ->
  distinct (names (builtin_fields decl)) = true ->
  proto_free (map fst decl) = true ->
  index_free (map fst decl) = true ->
  forallb valid_size (map snd decl) = true ->
  struct_size sd <= max_byte_length ->
  (forall k b, In (k, b) decl -> typed_or_missing b h (obj_get values k) = true) ->
  decl = pre ++ (k, FixedString len) :: post -> reserved k = false ->
  obj_get values k = VString s ->
  exists buf r h',
    to sd values h = Ok (buf, h) /\
    slice buf (sizes_of pre) len = take (Z.to_nat len) (TextCodec.encode s ++ zeros len) /\
    from sd (ArrayBuffer buf) None h = Ok (r, h') /\
    obj_get (props r) k
    = VString (TextCodec.decode (take (Z.to_nat len) (TextCodec.encode s ++ zeros len))).
Proof.
  intros Hs Hd _ _ Hvalid Hmax Htyped Hdecl Hres Hv.
  destruct (to_from_slots n decl options sd values h Hs Hd Hvalid Hmax Htyped)
    as (buf & r & h' & Hto & _ & Hfrom & Hfields).
  destruct (Hfields pre k (FixedString len) post Hdecl) as (slot & Hslot & Hslice & Hback).
  rewrite Hdecl in Hvalid. apply valid_at in Hvalid. simpl in Hvalid.
  apply Z.leb_le in Hvalid.
  rewrite Hv in Hslot. cbn [encode_slot text_of] in Hslot.
  destruct (units_ok s); [|discriminate].
  cbn [option_map] in Hslot. apply some_eq in Hslot.
  rewrite take_padded in Hslot by exact Hvalid.
  subst slot. specialize (Hback Hres). cbn [decode_slot] in Hback.
  exists buf, r, h'. repeat split; assumption.
Qed.

Lemma fixed_text_is_cut_or_padded_witness :
  exists buf r h',
    to Code_struct [("code"%string, VString (txt "Hello"))] [] = Ok (buf, []) /\
    from Code_struct (ArrayBuffer buf) None [] = Ok (r, h') /\
    obj_get (props r) "code" = VString (txt "Hell").
Proof.
  destruct (fixed_text_is_cut_or_padded "Code" [("code"%string, FixedString 4)] [] []
              "code" 4 no_opts Code_struct [("code"%string, VString (txt "Hello"))] []
              (txt "Hello") eq_refl eq_refl eq_refl eq_refl eq_refl)
    as (buf & r & h' & Hto & _ & Hfrom & Hget); try reflexivity.
  - unfold max_byte_length. simpl. lia.
  - intros k b Hin. simpl in Hin. destruct Hin as [[= <- <-]|[]]. reflexivity.
  - exists buf, r, h'. repeat split; assumption.
Defined.

(** X11. Fields do not interfere: in the buffer [to] builds for a struct of
    built-in fields with valid sizes, none of them named [__proto__] or
    like an array index (the fields then lie in the order of declaration),
    whose size the platform can allocate, the bytes of a field are the buffer
    [to] builds for a struct that declares this field alone, and [from]
    gives the field the value it gives it in that one-field struct (byte
    arrays compared by content). *)
Theorem fields_do_not_interfere (n n1 : string) (decl pre post : list (string * Builtin))
    (k : string) (b : Builtin) (options : StructOptions) (sd sd1 : Struct)
    (values : JsObject) (h : Heap) :
  struct n (builtin_fields decl) options = Ok sd ->
  struct n1 (builtin_fields [(k, b)]) options = Ok sd1 ->
  distinct (names (builtin_fields decl)) = true ->
  proto_free (map fst decl) = true ->
  index_free (map fst decl) = true ->
  forallb valid_size (map snd decl) = true ->
  struct_size sd <= max_byte_length ->
  (forall k b, In (k, b) decl -> typed_or_missing b h (obj_get values k) = true) ->
  decl = pre ++ (k, b) :: post -> reserved k = false ->
  exists buf r h' buf1 r1 h1',
    to sd values h = Ok (buf, h) /\
    from sd (ArrayBuffer buf) None h = Ok (r, h') /\
    to sd1 values h = Ok (buf1, h) /\
    from sd1 (ArrayBuffer buf1) None h = Ok (r1, h1') /\
    slice buf (sizes_of pre) (size (field_of b)) = buf1 /\
    same_field h' (obj_get (props r) k) h1' (obj_get (props r1) k).
Proof.
  intros Hs Hs1 Hd _ _ Hvalid Hmax Htyped Hdecl Hres.
  pose proof Hvalid as Hvb. rewrite Hdecl in Hvb. apply valid_at in Hvb.
  assert (Hin : In (k, b) decl) by (rewrite Hdecl; apply in_or_app; right; left; reflexivity).
  destruct (to_from_slots n decl options sd values h Hs Hd Hvalid Hmax Htyped)
    as (buf & r & h' & Hto & _ & Hfrom & Hfields).
  assert (Hmax1 : struct_size sd1 <= max_byte_length).
  { destruct (struct_members _ _ _ _ Hs) as (_ & _ & Hsz & _).
    destruct (struct_members _ _ _ _ Hs1) as (_ & _ & Hsz1 & _).
    fold (sizes_of decl) in Hsz. rewrite Hsz1. rewrite Hsz in Hmax.
    rewrite Hdecl, sizes_of_app, sizes_of_cons in Hmax.
    pose proof Hvalid as Hv. rewrite Hdecl in Hv. apply valid_app in Hv as [Hv1 Hv2].
    simpl in Hv2. apply andb_true_iff in Hv2 as [_ Hv2].
    pose proof (sizes_sum_nonneg pre Hv1) as Hp. fold (sizes_of pre) in Hp.
    pose proof (sizes_sum_nonneg post Hv2) as Hq. fold (sizes_of post) in Hq.
    simpl. lia. }
  destruct (to_from_slots n1 [(k, b)] options sd1 values h Hs1 eq_refl) as
    (buf1 & r1 & h1' & Hto1 & Hlen1 & Hfrom1 & Hfields1).
  { simpl. now rewrite Hvb. }
  { exact Hmax1. }
  { intros k' b' [[= <- <-]|[]]. now apply Htyped. }
  destruct (Hfields pre k b post Hdecl) as (slot & Hslot & Hslice & Hback).
  destruct (Hfields1 [] k b [] eq_refl) as (slot1 & Hslot1 & Hslice1 & Hback1).
  destruct (struct_members _ _ _ _ Hs) as (_ & _ & _ & _ & _ & Hle).
  destruct (struct_members _ _ _ _ Hs1) as (_ & _ & Hsz1 & _ & _ & Hle1).
  rewrite Hle1, <- Hle in *. rewrite Hslot in Hslot1. apply some_eq in Hslot1. subst slot1.
  assert (Hbuf1 : buf1 = slot).
  { rewrite <- Hslice1. unfold slice. cbn [sizes_of builtin_fields map sizes_sum fold_right].
    change (Z.to_nat 0) with 0%nat. cbn [drop]. symmetry. apply take_all.
    rewrite Hlen1, Hsz1. simpl. lia. }
  exists buf, r, h', buf1, r1, h1'.
  repeat split; try assumption; [now rewrite Hbuf1|].
  specialize (Hback Hres). specialize (Hback1 Hres).
  destruct (decode_slot b (littleEndian sd) slot) as [content|v] eqn:Hds.
  - destruct Hback as (l & -> & Hl & _). destruct Hback1 as (l1 & -> & Hl1 & _).
    simpl. exists l1, content. repeat split; assumption.
  - rewrite Hback, Hback1. apply same_field_refl_scalar.
    intros l ->. destruct b; simpl in Hds; discriminate Hds.
Qed.

Lemma fields_do_not_interfere_witness :
  exists buf r h' buf1 r1 h1',
    to Header_struct Header_data Header_heap = Ok (buf, Header_heap) /\
    from Header_struct (ArrayBuffer buf) None Header_heap = Ok (r, h') /\
    to Version_struct Header_data Header_heap = Ok (buf1, Header_heap) /\
    from Version_struct (ArrayBuffer buf1) None Header_heap = Ok (r1, h1') /\
    slice buf 4 2 = buf1 /\
    same_field h' (obj_get (props r) "version") h1' (obj_get (props r1) "version").
Proof.
  destruct (fields_do_not_interfere "Header" "Version" Header_decl
              [("magic"%string, Bytes 4)] [("flags"%string, Uint8); ("count"%string, Uint32)]
              "version" Uint16 le_opts Header_struct Version_struct Header_data Header_heap
              eq_refl eq_refl eq_refl eq_refl eq_refl eq_refl)
    as (buf & r & h' & buf1 & r1 & h1' & Hto & Hfrom & Hto1 & Hfrom1 & Hslice & Hsame);
    try reflexivity.
  - unfold max_byte_length. simpl. lia.
  - intros k b Hin. simpl in Hin.
    destruct Hin as [[= <- <-]|[[= <- <-]|[[= <- <-]|[[= <- <-]|[]]]]]; reflexivity.
  - exists buf, r, h', buf1, r1, h1'.
    split; [exact Hto|]. split; [exact Hfrom|]. split; [exact Hto1|].
    split; [exact Hfrom1|]. split; [exact Hslice | exact Hsame].
Defined.

(** ** A clone encodes like its original *)

Lemma element_or_zero_same (h h' : Heap) (v v' : Value) (i : Z) :
  same_field h v h' v' ->
  FieldTypes.element_or_zero h v i = FieldTypes.element_or_zero h' v' i.
Proof.
  destruct v; simpl; try (intros ->; reflexivity).
  intros (l' & content & -> & Hl & Hl'). simpl. now rewrite Hl, Hl'.
Qed.

Lemma write_elements_same (h h' : Heap) (v v' : Value) (offset : Z) (n : nat) :
  same_field h v h' v' ->
  forall dv i,
    FieldTypes.write_elements h dv offset v i n
    = FieldTypes.write_elements h' dv offset v' i n.
Proof.
  intros Hsame. induction n as [|n IH]; intros dv i; [reflexivity|].
  cbn [FieldTypes.write_elements]. rewrite (element_or_zero_same h h' v v' i Hsame).
  destruct (FieldTypes.element_or_zero h' v' i) as [e| |]; cbn [obind]; try reflexivity.
  destruct (DataView.setUint8 dv (offset + i) e) as [dv'| |]; cbn [obind]; try reflexivity.
  apply IH.
Qed.

(** An encoder leaves the heap alone, and its outcome depends on a byte
    array only through the content of the array. *)
Lemma write_same (b : Builtin) (dv : DataView.t) (off : Z) (le : bool)
    (h h' : Heap) (v v' : Value) :
  same_field h v h' v' ->
  exists m, write (field_of b) dv off v le h = lift m h /\
            write (field_of b) dv off v' le h' = lift m h'.
Proof.
  intros Hsame. destruct b.
  1:{ cbn [field_of write FieldTypes.bytes]. eexists. split; [reflexivity|].
      now rewrite (write_elements_same h h' v v' off (Z.to_nat length) Hsame). }
  all: destruct v; simpl in Hsame;
    try (destruct Hsame as (l' & content & -> & _)); try subst v';
    eexists; split; reflexivity.
Qed.

Lemma write_fields_same (sd : Struct) (h h' : Heap) (v1 v2 : JsObject)
    (decl : list (string * Builtin)) :
  (forall k, same_field h (obj_get v1 k) h' (obj_get v2 k)) ->
  forall dv,
    exists m, write_fields sd dv v1 (builtin_fields decl) h = lift m h /\
              write_fields sd dv v2 (builtin_fields decl) h' = lift m h'.
Proof.
  intros Hsame. induction decl as [|[k b] decl IH]; intros dv.
  - exists (Ok dv). split; reflexivity.
  - cbn [builtin_fields map fst snd write_fields]. fold (builtin_fields decl).
    destruct (offsets_get (fieldOffsets sd) k) as [o|];
      [|exists Unmodelled; split; reflexivity].
    destruct (write_same b dv o (littleEndian sd) h h' _ _ (Hsame k)) as (m & H1 & H2).
    unfold bind. rewrite H1, H2.
    destruct m as [dv'|e|]; cbn [lift];
      [apply IH | exists (Throw e); split; reflexivity
       | exists Unmodelled; split; reflexivity].
Qed.

Lemma to_same (sd : Struct) (h h' : Heap) (v1 v2 : JsObject)
    (decl : list (string * Builtin)) :
  fields sd = builtin_fields decl ->
  (forall k, same_field h (obj_get v1 k) h' (obj_get v2 k)) ->
  exists m, to sd v1 h = lift m h /\ to sd v2 h' = lift m h'.
Proof.
  intros Hf Hsame. unfold to. rewrite Hf.
  destruct ((totalSize sd <? 0) || (max_byte_length <? totalSize sd));
    [exists (Throw RangeError); split; reflexivity|].
  destruct (write_fields_same sd h h' v1 v2 decl Hsame
              (DataView.mk (zeros (totalSize sd)) 0 (totalSize sd))) as (m & H1 & H2).
  unfold bind. rewrite H1, H2.
  destruct m as [dv'|e|]; cbn [lift];
    [exists (Ok (DataView.buffer dv')) | exists (Throw e) | exists Unmodelled];
    split; reflexivity.
Qed.

Lemma obj_has_keys (o1 o2 : JsObject) (k : string) :
  map fst o1 = map fst o2 -> obj_has o1 k = obj_has o2 k.
Proof.
  revert o2. induction o1 as [|[k1 v1] o1 IH]; intros [|[k2 v2] o2] Hkeys;
    try discriminate; [reflexivity|].
  simpl in Hkeys. injection Hkeys as -> Hkeys. simpl.
  destruct (String.eqb k2 k); [reflexivity | now apply IH].
Qed.

Lemma instance_object_same (h h' : Heap) (r c : Instance) :
  map fst (props c) = map fst (props r) ->
  (forall k, same_field h (obj_get (props r) k) h' (obj_get (props c) k)) ->
  forall k, same_field h (obj_get (instance_object r) k) h' (obj_get (instance_object c) k).
Proof.
  intros Hkeys Hsame k. unfold instance_object. rewrite !obj_get_app.
  rewrite (obj_has_keys (props c) (props r) k Hkeys).
  destruct (obj_has (props r) k); [apply Hsame|].
  apply same_field_refl_scalar. intros l. cbn [obj_get].
  repeat match goal with |- context [String.eqb ?a k] => destruct (String.eqb a k) end;
    try discriminate.
  apply inherited_not_bytes.
Qed.

Lemma dollar_clone_cloned (r : Instance) (h : Heap) :
  instance_ok h r ->
  dollar_clone r h
  = Ok ({| props := fst (cloned (props r) h); dollar_struct := dollar_struct r |},
        snd (cloned (props r) h)).
Proof.
  intros [Hd Hall].
  assert (Hres : Forall (fun kv => reserved (fst kv) = false) (props r))
    by (eapply Forall_impl; [exact Hall|]; now intros kv [? _]).
  assert (Hrefs : Forall (fun kv => ref_ok h (snd kv)) (props r))
    by (eapply Forall_impl; [exact Hall|]; now intros kv [_ ?]).
  pose proof (clone_arrays_cloned (props r) [] h Hd Hrefs) as Hclone. simpl in Hclone.
  assert (Hres' : Forall (fun kv => reserved (fst kv) = false) (fst (cloned (props r) h))).
  { apply Forall_map with (f := fst) (P := fun k => reserved k = false).
    rewrite cloned_keys. now apply Forall_map with (f := fst) (P := fun k => reserved k = false). }
  unfold dollar_clone, bind. rewrite Hclone. unfold ret.
  now rewrite (filter_members_id _ Hres').
Qed.

(** X12. A clone encodes like its original: for a record of a struct of
    built-in fields, none of them named [__proto__] (so that the record's
    prototype is [Object.prototype], as the clone's is), [$clone] returns a
    record whose [$toBuffer] has the outcome (the same buffer or the same
    exception) that [$toBuffer] of the original has, before and after the
    clone was made; and [$toBuffer] leaves the heap as it is. *)
Theorem clone_encodes_alike (r : Instance) (h : Heap) (decl : list (string * Builtin)) :
  instance_ok h r ->
  fields (dollar_struct r) = builtin_fields decl ->
  proto_free (map fst decl) = true ->
  exists c h' out,
    dollar_clone r h = Ok (c, h') /\
    dollar_toBuffer r h = lift out h /\
    dollar_toBuffer c h' = lift out h' /\
    dollar_toBuffer r h' = lift out h'.
Proof.
  intros Hok Hf _.
  pose proof (dollar_clone_cloned r h Hok) as Hclone.
  destruct Hok as [Hd Hall].
  assert (Hrefs : Forall (fun kv => ref_ok h (snd kv)) (props r))
    by (eapply Forall_impl; [exact Hall|]; now intros kv [_ ?]).
  set (c := {| props := fst (cloned (props r) h); dollar_struct := dollar_struct r |}) in *.
  set (h' := snd (cloned (props r) h)) in *.
  assert (Hsame : forall k, same_field h (obj_get (props r) k) h' (obj_get (props c) k)).
  { intros k. pose proof (cloned_lookup (props r) k h Hrefs) as Hk.
    destruct (obj_get (props r) k); simpl; try exact Hk.
    destruct Hk as (l' & content & H1 & H2 & H3 & _). now exists l', content. }
  assert (Hkeep : forall k, same_field h (obj_get (props r) k) h' (obj_get (props r) k)).
  { intros k. pose proof (obj_get_ref_ok h (props r) k Hrefs) as Hl.
    destruct (obj_get (props r) k) as [| | | |l|]; simpl; try reflexivity.
    simpl in Hl. destruct (lookup_lt_is_Some_2 h l Hl) as [content Hc].
    exists l, content. split; [reflexivity|]. split; [exact Hc|].
    unfold h'. destruct (cloned_heap (props r) h) as [ext ->].
    rewrite lookup_app_l by exact Hl. exact Hc. }
  destruct (to_same (dollar_struct r) h h' (instance_object r) (instance_object c) decl Hf)
    as (out & H1 & H2).
  { apply instance_object_same; [apply cloned_keys | exact Hsame]. }
  destruct (to_same (dollar_struct r) h h' (instance_object r) (instance_object r) decl Hf)
    as (out' & H3 & H4).
  { apply instance_object_same; [reflexivity | exact Hkeep]. }
  exists c, h', out. split; [exact Hclone|]. split; [exact H1|]. split; [exact H2|].
  assert (out' = out) as <-; [|exact H4].
  rewrite H1 in H3. destruct out as [a|e|], out' as [a'|e'|]; simpl in H3; congruence.
Qed.

Lemma clone_encodes_alike_witness :
  exists c h' out,
    dollar_clone Header_record Header_heap = Ok (c, h') /\
    dollar_toBuffer Header_record Header_heap = lift out Header_heap /\
    dollar_toBuffer c h' = lift out h'.
Proof.
  assert (Hok : instance_ok Header_heap Header_record).
  { split; [reflexivity|]. repeat constructor; simpl; lia. }
  destruct (clone_encodes_alike Header_record Header_heap Header_decl Hok eq_refl eq_refl)
    as (c & h' & out & Hc & H1 & H2 & _).
  exists c, h', out. split; [exact Hc|]. split; [exact H1 | exact H2].
Defined.

(** ** The record [from] builds *)

Lemma obj_set_new (o : JsObject) (k : string) (v : Value) :
  ~ In k (map fst o) -> obj_set o k v = o ++ [(k, v)].
Proof.
  induction o as [|[k0 v0] o IH]; intros Hin; [reflexivity|].
  simpl in *. destruct (String.eqb_spec k0 k) as [->|_]; [tauto|].
  rewrite IH by tauto. reflexivity.
Qed.

Lemma decode_fields_keys (decl : list (string * Builtin)) (le : bool) (dv : DataView.t) :
  forall pos result h,
    NoDup (map fst result ++ map fst decl) ->
    map fst (fst (decode_fields decl le dv pos result h)) = map fst result ++ map fst decl.
Proof.
  induction decl as [|[k b] decl IH]; intros pos result h Hnd.
  - simpl. now rewrite app_nil_r.
  - assert (Hk : ~ In k (map fst result)).
    { simpl in Hnd. apply NoDup_app in Hnd as (_ & Hdisj & _).
      intros Hin. apply (Hdisj k); [now apply list_elem_of_In | left]. }
    assert (Hnd' : forall v, NoDup (map fst (obj_set result k v) ++ map fst decl)).
    { intros v. rewrite obj_set_new by exact Hk. rewrite map_app. simpl.
      now rewrite <- app_assoc. }
    cbn [decode_fields].
    destruct (decode_slot b le _) as [content|v]; rewrite IH by apply Hnd';
      rewrite obj_set_new by exact Hk; rewrite map_app, <- app_assoc; reflexivity.
Qed.

Lemma define_members_keys (o : JsObject) :
  map fst (define_members o) = List.filter (fun k => negb (reserved k)) (map fst o).
Proof.
  unfold define_members. induction o as [|[k v] o IH]; [reflexivity|].
  simpl. destruct (reserved k); simpl; now rewrite IH.
Qed.

Lemma decode_fields_loc (pre post : list (string * Builtin)) (k : string) (len : Z)
    (le : bool) (dv : DataView.t) :
  distinct (map fst (pre ++ (k, Bytes len) :: post)) = true ->
  forall pos result h,
    obj_get (fst (decode_fields (pre ++ (k, Bytes len) :: post) le dv pos result h)) k
    = VBytes (length h + count_arrays pre)%nat.
Proof.
  induction pre as [|[k0 b0] pre IH]; intros Hd pos result h.
  - simpl in Hd. apply andb_true_iff in Hd as [Hk _].
    apply negb_true_iff, existsb_eqb_false in Hk.
    cbn [app decode_fields decode_slot].
    rewrite decode_fields_other by exact Hk.
    rewrite obj_get_set, String.eqb_refl. unfold count_arrays. simpl.
    now rewrite Nat.add_0_r.
  - simpl in Hd. apply andb_true_iff in Hd as [_ Hd].
    cbn [app decode_fields].
    destruct b0; cbn [decode_slot]; rewrite (IH Hd); unfold count_arrays; simpl;
      try reflexivity.
    rewrite length_app. simpl. f_equal. lia.
Qed.

Lemma decode_fields_count (decl : list (string * Builtin)) (le : bool) (dv : DataView.t) :
  forall pos result h,
    exists ext, snd (decode_fields decl le dv pos result h) = h ++ ext /\
                length ext = count_arrays decl.
Proof.
  induction decl as [|[k b] decl IH]; intros pos result h.
  - exists []. split; [now rewrite app_nil_r | reflexivity].
  - cbn [decode_fields].
    destruct b; cbn [decode_slot]; try apply IH.
    destruct (IH (pos + size (field_of (Bytes length)))
                (obj_set result k (VBytes (List.length h)))
                (h ++ [slice (DataView.buffer dv) (base (Bytes length) dv + pos)
                         (size (field_of (Bytes length)))])) as (ext & -> & Hlen).
    eexists (_ :: ext). split; [now rewrite <- app_assoc|].
    unfold count_arrays in *. simpl. now rewrite Hlen.
Qed.

(** X13. The record [from] returns is built from fresh parts.  For a struct
    of built-in fields with valid sizes whose names are not [__proto__] and
    not array indices (so that [Object.entries] lists them in the order of
    declaration): the keys of the record are the declared field names in
    that order (without those named like an instance member), the heap
    only grows, every byte-array field holds an array allocated by this
    call, the arrays are allocated in that order so that no two fields
    share one, and each holds the bytes of its field's slot. *)
Theorem from_builds_fresh_record (n : string) (decl : list (string * Builtin))
    (options : StructOptions) (sd : Struct) (buffer : BufferSource)
    (offset : option Z) (h : Heap) :
  struct n (builtin_fields decl) options = Ok sd ->
  distinct (names (builtin_fields decl)) = true ->
  proto_free (map fst decl) = true ->
  index_free (map fst decl) = true ->
  forallb valid_size (map snd decl) = true ->
  source_wf buffer -> 0 <= default 0 offset ->
  default 0 offset + struct_size sd <= source_length buffer ->
  exists r h' ext,
    from sd buffer offset h = Ok (r, h') /\
    h' = h ++ ext /\ length ext = count_arrays decl /\
    instance_ok h' r /\
    map fst (props r) = List.filter (fun k => negb (reserved k)) (map fst decl) /\
    forall pre k len post,
      decl = pre ++ (k, Bytes len) :: post -> reserved k = false ->
      obj_get (props r) k = VBytes (length h + count_arrays pre)%nat /\
      h' !! (length h + count_arrays pre)%nat
      = Some (slice (source_bytes buffer) (default 0 offset + sizes_of pre) len).
Proof.
  intros Hs Hd _ _ Hvalid Hsrc Hlo Hhi.
  pose proof (source_view_wf buffer Hsrc) as Hwf.
  pose proof (from_spec n decl options sd buffer offset h Hs Hd Hvalid Hwf Hlo Hhi) as Hfrom.
  pose proof (from_instance_ok n decl options sd buffer offset h _ _ Hs Hd Hvalid Hsrc Hlo Hhi
                Hfrom) as Hok.
  assert (Hd' : distinct (map fst decl) = true).
  { unfold names, builtin_fields in Hd. rewrite map_map in Hd. exact Hd. }
  set (dv := view_of buffer) in *. set (o := default 0 offset) in *.
  set (le := littleEndian sd) in *.
  destruct (decode_fields_count decl le dv o [] h) as (ext & Hext & Hcount).
  eexists _, _, ext. split; [exact Hfrom|]. split; [exact Hext|]. split; [exact Hcount|].
  split; [exact Hok|]. split.
  - cbn [props]. rewrite define_members_keys, decode_fields_keys; [reflexivity|].
    simpl. now apply distinct_NoDup.
  - intros pre k len post Hdecl Hres. cbn [props].
    rewrite obj_get_define_members by exact Hres.
    pose proof (decode_fields_loc pre post k len le dv) as Hloc.
    pose proof (decode_fields_lookup pre post k (Bytes len) le dv) as Hlook.
    rewrite <- Hdecl in Hloc, Hlook.
    specialize (Hloc Hd' o [] h). specialize (Hlook Hd' o [] h).
    cbv zeta in Hlook. cbn [decode_slot base size field_of FieldTypes.bytes] in Hlook.
    destruct Hlook as (l & Hget & Hl & _).
    rewrite Hloc in Hget. injection Hget as <-.
    split; [exact Hloc|]. refine (eq_trans Hl _). f_equal.
    destruct (struct_members _ _ _ _ Hs) as (_ & _ & Hsz & _).
    fold (sizes_of decl) in Hsz.
    pose proof Hvalid as Hv. rewrite Hdecl in Hv. apply valid_app in Hv as [Hvpre Hv].
    simpl in Hv. apply andb_true_iff in Hv as [Hvb Hvpost]. apply Z.leb_le in Hvb.
    pose proof (sizes_sum_nonneg pre Hvpre) as Hp. fold (sizes_of pre) in Hp.
    pose proof (sizes_sum_nonneg post Hvpost) as Hq. fold (sizes_of post) in Hq.
    assert (Hsum : sizes_of decl = sizes_of pre + (len + sizes_of post))
      by (rewrite Hdecl, sizes_of_app, sizes_of_cons; reflexivity).
    unfold dv. destruct buffer as [bs|bs bo bl]; cbn [view_of source_bytes DataView.buffer
      DataView.byteOffset].
    + now rewrite Z.add_0_l.
    + simpl in Hsrc, Hhi. destruct Hsrc as (_ & Hbo & Hbl & Hfit).
      symmetry. apply slice_slice; lia.
Qed.

Lemma from_builds_fresh_record_witness :
  exists r h' ext,
    from Header_struct (ArrayBuffer [65; 66; 67; 68; 123; 0; 7; 0x39; 0x30; 0; 0]) None [[1]]
      = Ok (r, h') /\
    h' = [[1]] ++ ext /\
    obj_get (props r) "magic" = VBytes 1%nat /\
    h' !! 1%nat = Some [65; 66; 67; 68].
Proof.
  destruct (from_builds_fresh_record "Header" Header_decl le_opts Header_struct
              (ArrayBuffer [65; 66; 67; 68; 123; 0; 7; 0x39; 0x30; 0; 0]) None [[1]]
              eq_refl eq_refl eq_refl eq_refl eq_refl)
    as (r & h' & ext & Hfrom & Hext & _ & _ & _ & Hfields).
  - simpl. repeat (constructor; [unfold is_byte; lia|]). constructor.
  - simpl. lia.
  - simpl. lia.
  - destruct (Hfields [] "magic"%string 4 (tl Header_decl) eq_refl eq_refl) as [Hget Hl].
    exists r, h', ext. split; [exact Hfrom|]. split; [exact Hext|].
    split; [exact Hget | exact Hl].
Defined.

(** ** A [cstring] without room for its terminator *)

(** X14. [cstring(maxLength)] with [maxLength <= 0] has no room for the
    terminator, and its encoder does not notice: it copies no byte of the
    text and stores the zero byte at [offset + maxLength - 1], which lies
    before the field's slot; the byte there is lost and everything else is
    unchanged.  When that position is outside the view the encoder throws
    a RangeError. *)
Theorem cstring_without_room_writes_before_slot (n off : Z) (v : Value) (e : list Z)
    (dv : DataView.t) (le : bool) (h : Heap) :
  n <= 0 -> text_of v = Some e -> DataView.wf dv ->
  (0 <= off + n - 1 -> off + n <= DataView.byteLength dv ->
   write (FieldTypes.cstring n) dv off v le h
   = Ok (DataView.mk
           (take (Z.to_nat (DataView.byteOffset dv + off + n - 1)) (DataView.buffer dv) ++
            0 :: drop (Z.to_nat (DataView.byteOffset dv + off + n)) (DataView.buffer dv))
           (DataView.byteOffset dv) (DataView.byteLength dv), h)) /\
  (off + n - 1 < 0 \/ DataView.byteLength dv < off + n ->
   write (FieldTypes.cstring n) dv off v le h = Throw RangeError).
Proof.
  intros Hn Ht (Hbo & Hbl & Hfit).
  pose proof (zlen_nonneg e) as He.
  cbn [write FieldTypes.cstring]. rewrite (encode_input_text v e Ht). cbn [obind].
  fold (zlen e). rewrite Z.min_r by lia.
  replace (Z.to_nat (n - 1)) with 0%nat by lia.
  change (take 0 e) with (@nil Z). cbn [FieldTypes.store_loop obind].
  split.
  - intros Hlo Hhi.
    destruct (split_at (DataView.buffer dv) (DataView.byteOffset dv + off + n - 1) 1)
      as (Hbuf & Hpre & Hone); [lia | lia | lia |].
    destruct (slice (DataView.buffer dv) (DataView.byteOffset dv + off + n - 1) 1)
      as [|x [|y rest]] eqn:Hs; try discriminate Hone.
    rewrite (setUint8_at dv _ _ x 0 (off + (n - 1)) Hbuf);
      [| unfold zlen; lia | lia | lia | unfold is_byte; lia].
    cbn [lift].
    replace (DataView.byteOffset dv + off + n - 1 + 1)
      with (DataView.byteOffset dv + off + n) by lia.
    reflexivity.
  - intros Hout. unfold DataView.setUint8, DataView.SetViewValue, lift. cbn [DataView.ToNumber obind].
    destruct (Z.ltb_spec (off + (n - 1)) 0); [reflexivity|].
    destruct (Z.ltb_spec (DataView.byteLength dv) (off + (n - 1) + Z.of_nat 1));
      [reflexivity | lia].
Qed.

Lemma cstring_without_room_writes_before_slot_witness :
  write (FieldTypes.cstring 0) (DataView.mk [7; 8; 9] 0 3) 1 (VString (txt "A")) false []
  = Ok (DataView.mk [0; 8; 9] 0 3, []).
Proof.
  apply (proj1 (cstring_without_room_writes_before_slot 0 1 (VString (txt "A"))
                  (TextCodec.encode (txt "A")) (DataView.mk [7; 8; 9] 0 3) false []
                  ltac:(lia) eq_refl ltac:(unfold DataView.wf; simpl; lia)));
    simpl; lia.
Defined.

(** ** Field types that keep to their slot *)

Lemma sizes_sum_carried (le : bool) (values : JsObject) (fs : Fields) :
  (forall k ft, In (k, ft) fs -> carries ft le (obj_get values k)) -> 0 <= sizes_sum fs.
Proof.
  induction fs as [|[k ft] fs IH]; intros Hall; simpl; [lia|].
  destruct (Hall k ft (or_introl eq_refl)) as [Hsz _].
  fold (sizes_sum fs). specialize (IH (fun k' ft' Hin => Hall k' ft' (or_intror Hin))). lia.
Qed.

Lemma write_fields_carried (sd : Struct) (values : JsObject) (h : Heap) (fs : Fields) :
  (forall k ft, In (k, ft) fs -> carries ft (littleEndian sd) (obj_get values k)) ->
  forall pre k,
    laid_out (fieldOffsets sd) (zlen pre) fs -> sizes_sum fs <= k ->
    exists bs,
      write_fields sd (whole (pre ++ zeros k)) values fs h
      = Ok (whole (pre ++ bs ++ zeros (k - sizes_sum fs)), h) /\
      zlen bs = sizes_sum fs /\ stored (littleEndian sd) values fs bs.
Proof.
  induction fs as [|[name ft] fs IH]; intros Hall pre k Hlay Hk.
  - exists []. simpl. rewrite Z.sub_0_r. repeat split.
  - pose proof (sizes_sum_carried _ _ fs (fun k' ft' Hin => Hall k' ft' (or_intror Hin)))
      as Hrest.
    destruct (Hall name ft (or_introl eq_refl)) as [Hsz Hcarry].
    cbn [laid_out] in Hlay. destruct Hlay as [Hoff Hlay].
    cbn [sizes_sum fold_right fst snd] in Hk |- *. fold (sizes_sum fs) in *.
    pose proof (zlen_nonneg pre) as Hpre.
    destruct (Hcarry (whole (pre ++ zeros k)) (zlen pre) h pre (zeros (size ft))
                (zeros (k - size ft))) as (slot & Hlen & Hreads & Hw).
    { cbn [whole DataView.buffer]. now rewrite (zeros_split (size ft) k) by lia. }
    { reflexivity. }
    { apply zlen_zeros; lia. }
    { lia. }
    { cbn [whole DataView.byteLength]. rewrite zlen_app, zlen_zeros by lia. lia. }
    cbn [write_fields]. rewrite Hoff. unfold bind at 1. rewrite Hw.
    assert (Hwhole : DataView.mk (pre ++ slot ++ zeros (k - size ft))
                       (DataView.byteOffset (whole (pre ++ zeros k)))
                       (DataView.byteLength (whole (pre ++ zeros k)))
                     = whole ((pre ++ slot) ++ zeros (k - size ft))).
    { unfold whole. cbn [DataView.byteOffset DataView.byteLength].
      rewrite <- app_assoc. f_equal.
      rewrite !zlen_app, Hlen, !zlen_zeros by lia. lia. }
    rewrite Hwhole.
    destruct (IH (fun k' ft' Hin => Hall k' ft' (or_intror Hin)) (pre ++ slot) (k - size ft))
      as (tail & Hrec & Htl & Hstored);
      [rewrite zlen_app, Hlen; exact Hlay | lia |].
    exists (slot ++ tail). rewrite Hrec. split; [|split].
    + do 3 f_equal. rewrite <- !app_assoc. do 4 f_equal. lia.
    + rewrite zlen_app. lia.
    + exists slot, tail. repeat split; assumption.
Qed.

Lemma parse_fields_stored (sd : Struct) (dv : DataView.t) (o : Z) (values : JsObject)
    (h : Heap) (fs : Fields) :
  DataView.wf dv ->
  (forall k ft, In (k, ft) fs -> 0 <= size ft) ->
  forall start result bs,
    laid_out (fieldOffsets sd) start fs ->
    stored (littleEndian sd) values fs bs ->
    slice (DataView.buffer dv) (DataView.byteOffset dv + (o + start)) (sizes_sum fs) = bs ->
    0 <= o + start -> o + start + sizes_sum fs <= DataView.byteLength dv ->
    parse_fields sd dv o fs result h = Ok (assign values fs result, h).
Proof.
  intros Hwf. induction fs as [|[name ft] fs IH];
    intros Hsizes start result bs Hlay Hst Hbs Hlo Hhi; [reflexivity|].
  cbn [laid_out] in Hlay. destruct Hlay as [Hoff Hlay].
  cbn [stored] in Hst. destruct Hst as (slot & tail & -> & Hlen & Hreads & Hst).
  cbn [sizes_sum fold_right fst snd] in Hbs, Hhi. fold (sizes_sum fs) in *.
  pose proof (Hsizes name ft (or_introl eq_refl)) as Hsz.
  assert (Hrest : 0 <= sizes_sum fs).
  { clear -Hsizes. induction fs as [|[k' ft'] fs IH]; simpl; [lia|].
    fold (sizes_sum fs).
    pose proof (Hsizes k' ft' (or_intror (or_introl eq_refl))).
    specialize (IH (fun k ft Hin => Hsizes k ft
                      match Hin with or_introl e => or_introl e
                                   | or_intror i => or_intror (or_intror i) end)).
    lia. }
  destruct Hwf as (Hbo & Hbl & Hfit).
  rewrite slice_app in Hbs by lia.
  apply app_inj_1 in Hbs as [Hslot Htail].
  2:{ pose proof (slice_zlen (DataView.buffer dv) (DataView.byteOffset dv + (o + start))
                    (size ft)) as Hz.
      unfold zlen in *. specialize (Hz ltac:(lia) ltac:(lia) ltac:(lia)). lia. }
  cbn [parse_fields assign]. rewrite Hoff. unfold bind at 1.
  rewrite (Hreads dv (o + start) h); [| repeat split; assumption | lia | lia | exact Hslot].
  apply (IH (fun k ft Hin => Hsizes k ft (or_intror Hin)) (start + size ft) _ tail);
    try assumption; [|lia|lia].
  rewrite <- Htail. f_equal. lia.
Qed.

Lemma assign_get (values : JsObject) (fs : Fields) (k : string) :
  forall result,
    In k (names fs) \/ obj_get result k = obj_get values k ->
    obj_get (assign values fs result) k = obj_get values k.
Proof.
  induction fs as [|[k0 ft] fs IH]; intros result H.
  - destruct H as [[]|H]. exact H.
  - cbn [assign]. apply IH. rewrite obj_get_set.
    destruct (String.eqb_spec k0 k) as [->|Hne]; [now right|].
    destruct H as [[Heq|Hin]|H]; [now destruct Hne | now left | now right].
Qed.

Lemma plain_heap (b : Builtin) (h h' : Heap) (v : Value) :
  plain b = true -> representable b h v = representable b h' v.
Proof. destruct b, v; try discriminate; reflexivity. Qed.

Lemma plain_reads (b : Builtin) (le : bool) (slot : list Z) (v : Value) :
  plain b = true -> valid_size b = true ->
  decode_slot b le slot = DValue v -> reads (field_of b) le slot v.
Proof.
  intros Hp Hv Hdec dv off h Hwf Hlo Hhi Hslice.
  rewrite (parse_slot b le dv off h Hv Hwf Hlo Hhi).
  replace (base b dv) with (DataView.byteOffset dv) by (destruct b; try discriminate; reflexivity).
  rewrite Hslice, Hdec. reflexivity.
Qed.

(** The integers and [cstring] keep to the contract for the values they
    represent. *)
Lemma builtin_carries (b : Builtin) (le : bool) (h0 : Heap) (v : Value) :
  plain b = true -> valid_size b = true -> representable b h0 v = true ->
  carries (field_of b) le v.
Proof.
  intros Hp Hv Hr. split; [now apply valid_size_nonneg|].
  intros dv off h pre old post Hbuf Hpos Hold Hlo Hhi.
  rewrite (plain_heap b h0 h v Hp) in Hr.
  destruct (slot_roundtrip b le h v Hv Hr) as (slot & Hslot & Hdec).
  destruct b; try discriminate Hp.
  9:{ (* cstring *)
    destruct v as [| | |s| |]; try discriminate Hr. simpl in Hr.
    apply andb_true_iff in Hr as [Hr Hfit]. apply andb_true_iff in Hr as [Hr Hnn].
    apply andb_true_iff in Hr as [Hwf Hbom]. apply negb_true_iff in Hbom.
    apply Z.leb_le in Hfit.
    assert (Hover : overwrite (CString maxLength) le h (VString s) old
                    = Some (TextCodec.encode s ++ 0 ::
                            drop (Z.to_nat (zlen (TextCodec.encode s) + 1)) old)).
    { cbn [overwrite text_of]. rewrite (well_formed_units s Hwf). cbn [option_map].
      rewrite Z.min_l by lia. rewrite take_all by lia. reflexivity. }
    destruct (write_at (CString maxLength) le h (VString s) dv pre old post _ off Hv Hover
                Hbuf Hpos Hold Hlo Hhi) as [Hw Hlen].
    eexists. split; [exact Hlen|]. split; [|exact Hw].
    apply (plain_reads (CString maxLength) le _ (VString s) eq_refl Hv).
    cbn [decode_slot]. rewrite until_zero_stop by now apply encode_nonzero.
    now rewrite decode_encode. }
  all: destruct (write_at _ le h v dv pre old post slot off Hv Hslot Hbuf Hpos Hold Hlo Hhi)
         as [Hw Hlen];
       exists slot; split; [exact Hlen|]; split; [|exact Hw];
       apply plain_reads; [reflexivity | exact Hv |];
       destruct (decode_slot _ le slot) as [content|v'] eqn:Hds;
         [simpl in Hds; discriminate Hds|];
       rewrite Hdec; destruct v; reflexivity.
Qed.

(** X15. The codec of a struct works for any field types, built-in or made
    by [custom], that keep to their slot: if no field is named [__proto__],
    the platform can allocate [size] bytes, and for each declared field the
    type carries the value the record holds (its encoder replaces its own
    slot and nothing else, and its decoder reads the value back from what
    was written, both without touching the heap), then [to] returns a
    buffer of [size] bytes and [from] on it returns a record that holds the
    same value under every field not named like an instance member. *)
Theorem conforming_fields_round_trip (n : string) (fs : Fields) (options : StructOptions)
    (sd : Struct) (values : JsObject) (h : Heap) :
  struct n fs options = Ok sd ->
  distinct (names fs) = true ->
  proto_free (names fs) = true ->
  struct_size sd <= max_byte_length ->
  (forall k ft, In (k, ft) fs -> carries ft (littleEndian sd) (obj_get values k)) ->
  exists buf r,
    to sd values h = Ok (buf, h) /\ zlen buf = struct_size sd /\
    from sd (ArrayBuffer buf) None h = Ok (r, h) /\ dollar_struct r = sd /\
    forall k ft, In (k, ft) fs -> reserved k = false ->
      obj_get (props r) k = obj_get values k.
Proof.
  intros Hs Hd _ Hmax Hall.
  destruct (struct_members _ _ _ _ Hs) as (_ & Hf & Hsz & Htot & Hoff & _).
  pose proof (sizes_sum_carried _ _ fs Hall) as Hnn.
  assert (Hlay : laid_out (fieldOffsets sd) 0 fs)
    by (rewrite Hoff; apply layout_laid_out; exact Hd).
  destruct (write_fields_carried sd values h fs Hall [] (sizes_sum fs) Hlay ltac:(lia))
    as (bs & Hw & Hlen & Hstored).
  assert (Hto : to sd values h = Ok (bs, h)).
  { unfold to. rewrite to_allocates by lia. rewrite Htot, Hf.
    rewrite whole_zeros by lia. unfold bind. rewrite Hw. unfold ret. simpl.
    rewrite Z.sub_diag. unfold zeros. simpl. now rewrite app_nil_r. }
  assert (Hfrom : from sd (ArrayBuffer bs) None h
                  = Ok ({| props := define_members (assign values fs []);
                           dollar_struct := sd |}, h)).
  { unfold from, bind. rewrite Hf. cbn [default view_of].
    rewrite (parse_fields_stored sd _ 0 values h fs) with (start := 0) (bs := bs);
      [reflexivity | unfold DataView.wf; simpl; lia
       | intros k ft Hin; apply (Hall k ft Hin) | exact Hlay | exact Hstored
       | | lia | simpl; unfold zlen in Hlen; lia].
    cbn [DataView.buffer DataView.byteOffset]. unfold slice. simpl.
    apply take_all. lia. }
  eexists bs, _. split; [exact Hto|]. split; [lia|]. split; [exact Hfrom|].
  split; [reflexivity|].
  intros k ft Hin Hres. cbn [props]. rewrite obj_get_define_members by exact Hres.
  apply assign_get. left. unfold names. apply in_map_iff. exists (k, ft). split; [reflexivity|exact Hin].
Qed.

Lemma conforming_fields_round_trip_witness :
  exists buf r,
    to Tagged_struct [("id"%string, VNumber 513); ("delta"%string, VNumber (-1))] []
      = Ok (buf, []) /\
    from Tagged_struct (ArrayBuffer buf) None [] = Ok (r, []) /\
    obj_get (props r) "id" = VNumber 513 /\ obj_get (props r) "delta" = VNumber (-1).
Proof.
  destruct (conforming_fields_round_trip "Tagged" Tagged_fields no_opts Tagged_struct
              [("id"%string, VNumber 513); ("delta"%string, VNumber (-1))] []
              eq_refl eq_refl eq_refl) as (buf & r & Hto & _ & Hfrom & _ & Hget).
  - unfold max_byte_length. simpl. lia.
  - intros k ft Hin. simpl in Hin. destruct Hin as [[= <- <-]|[[= <- <-]|[]]].
    + exact (builtin_carries Uint16 false [] (VNumber 513) eq_refl eq_refl eq_refl).
    + exact (builtin_carries Int8 false [] (VNumber (-1)) eq_refl eq_refl eq_refl).
  - exists buf, r. split; [exact Hto|]. split; [exact Hfrom|]. split.
    + exact (Hget "id"%string _ (or_introl eq_refl) eq_refl).
    + exact (Hget "delta"%string _ (or_intror (or_introl eq_refl)) eq_refl).
Defined.
